(** * Contour-based gating (NIVA): a shallow embedding and its properties

    The development follows [src/gating/contour_based_gating.py].  Python
    exceptions are results of an error monad, numpy integer indices are
    [Z], and the fields of the main window touched by the gating code
    form an explicit state record.  For what does not depend on rounding
    (which exception is raised, the shape of an array, where NaN and the
    infinities go, the indices of peaks and of gated frames) a numpy
    [float64] value is an exact rational or one of the IEEE special
    values; for the normalisation, whose result does depend on it, the
    values and the operations are those of binary64 (module [F64]). *)

From Stdlib Require Import String Ascii DecimalString.
From Stdlib Require Import List ZArith QArith Qcanon Qround Lia Bool.
From Stdlib Require Import Permutation Sorted.
From Stdlib Require Import SpecFloat.
Import ListNotations.

(** ** Python exceptions *)

Inductive exn : Type :=
| ValueError
| IndexError.

Inductive result (A : Type) : Type :=
| Ok (a : A)
| Raise (e : exn).
Arguments Ok {A} a.
Arguments Raise {A} e.

Definition bind {A B : Type} (m : result A) (k : A -> result B) : result B :=
  match m with
  | Ok a => k a
  | Raise e => Raise e
  end.

Notation "x <- m ;; k" := (bind m (fun x => k))
  (at level 61, m at next level, right associativity).

(** ** Python built-ins *)

Module Py.

(** [sorted], as an insertion sort for the order [leb] *)
Fixpoint insert_sorted {A : Type} (leb : A -> A -> bool) (x : A) (l : list A) : list A :=
  match l with
  | [] => [x]
  | y :: r => if leb x y then x :: l else y :: insert_sorted leb x r
  end.

Definition sorted {A : Type} (leb : A -> A -> bool) (l : list A) : list A :=
  fold_right (insert_sorted leb) [] l.

(** [set(l)] of integers, as a duplicate-free list *)
Definition set (l : list Z) : list Z := nodup Z.eq_dec l.

(** [l.remove(x)]: drops the first occurrence, [ValueError] if there is none. *)
Fixpoint list_remove (x : Z) (l : list Z) : result (list Z) :=
  match l with
  | [] => Raise ValueError
  | y :: r =>
      if (y =? x)%Z then Ok r
      else r' <- list_remove x r ;; Ok (y :: r')
  end.

(** [l[i] = v]: a negative index counts from the end, an index out of
    range raises [IndexError]. *)
Fixpoint replace_nth {A : Type} (l : list A) (n : nat) (v : A) : list A :=
  match l, n with
  | [], _ => []
  | _ :: r, O => v :: r
  | x :: r, S n' => x :: replace_nth r n' v
  end.

Definition setitem {A : Type} (l : list A) (i : Z) (v : A) : result (list A) :=
  let len := Z.of_nat (length l) in
  let i := (if i <? 0 then i + len else i)%Z in
  if ((0 <=? i) && (i <? len))%Z then Ok (replace_nth l (Z.to_nat i) v)
  else Raise IndexError.

(** [l[::2]] *)
Fixpoint every_second {A : Type} (l : list A) : list A :=
  match l with
  | [] => []
  | x :: r => x :: match r with [] => [] | _ :: r' => every_second r' end
  end.

(** [l[i:j]] for [0 <= i] and [0 <= j] *)
Definition slice {A : Type} (l : list A) (i j : nat) : list A :=
  firstn (j - i) (skipn i l).

(** [str(n)] for an integer *)
Definition str (n : Z) : String.string :=
  DecimalString.NilZero.string_of_int (Z.to_int n).

(** [sep.join(l)] *)
Definition join (sep : String.string) (l : list String.string) : String.string :=
  String.concat sep l.

(** The list comprehension [[f(x) for x in l]] of a function that can raise. *)
Fixpoint map_result {A B : Type} (f : A -> result B) (l : list A) : result (list B) :=
  match l with
  | [] => Ok []
  | x :: r => y <- f x ;; ys <- map_result f r ;; Ok (y :: ys)
  end.

End Py.

(** ** numpy float64 values *)

Module NpFloat.

Inductive t : Type :=
| Fin (q : Qc)
| PInf
| NInf
| NaN.

Definition Qc_eqb (a b : Qc) : bool :=
  match (a ?= b)%Qc with Eq => true | _ => false end.

Definition Qc_ltb (a b : Qc) : bool :=
  match (a ?= b)%Qc with Lt => true | _ => false end.

Definition Qc_leb (a b : Qc) : bool :=
  match (a ?= b)%Qc with Gt => false | _ => true end.

Definition zero : t := Fin 0%Qc.
Definition one : t := Fin 1%Qc.
Definition of_Z (z : Z) : t := Fin (Q2Qc (inject_Z z)).

Definition is_finite (x : t) : bool :=
  match x with Fin _ => true | _ => false end.

Definition neg (x : t) : t :=
  match x with
  | Fin q => Fin (- q)%Qc
  | PInf => NInf
  | NInf => PInf
  | NaN => NaN
  end.

Definition add (x y : t) : t :=
  match x, y with
  | NaN, _ | _, NaN => NaN
  | PInf, NInf | NInf, PInf => NaN
  | PInf, _ | _, PInf => PInf
  | NInf, _ | _, NInf => NInf
  | Fin a, Fin b => Fin (a + b)%Qc
  end.

Definition sub (x y : t) : t := add x (neg y).

(** An infinity multiplied by the finite value [q]. *)
Definition scale_inf (inf : t) (q : Qc) : t :=
  if Qc_eqb q 0%Qc then NaN
  else if Qc_ltb 0%Qc q then inf else neg inf.

Definition mul (x y : t) : t :=
  match x, y with
  | NaN, _ | _, NaN => NaN
  | Fin a, Fin b => Fin (a * b)%Qc
  | Fin a, inf => scale_inf inf a
  | inf, Fin b => scale_inf inf b
  | PInf, PInf | NInf, NInf => PInf
  | PInf, NInf | NInf, PInf => NInf
  end.

(** numpy division: a zero divisor gives an infinity or NaN, never an
    exception. *)
Definition div (x y : t) : t :=
  match x, y with
  | NaN, _ | _, NaN => NaN
  | Fin a, Fin b =>
      if Qc_eqb b 0%Qc then
        if Qc_eqb a 0%Qc then NaN
        else if Qc_ltb 0%Qc a then PInf else NInf
      else Fin (a / b)%Qc
  | Fin _, _ => zero
  | inf, Fin b => if Qc_ltb b 0%Qc then neg inf else inf
  | _, _ => NaN
  end.

(** [x ** -1] on a numpy scalar. *)
Definition pow_m1 (x : t) : t := div one x.

Definition ltb (x y : t) : bool :=
  match x, y with
  | NaN, _ | _, NaN => false
  | Fin a, Fin b => Qc_ltb a b
  | NInf, NInf => false
  | NInf, _ => true
  | _, PInf => negb (match x with PInf => true | _ => false end)
  | _, _ => false
  end.

Definition leb (x y : t) : bool :=
  match x, y with
  | NaN, _ | _, NaN => false
  | Fin a, Fin b => Qc_leb a b
  | NInf, _ => true
  | _, PInf => true
  | _, _ => false
  end.

(** [x > y] *)
Definition gtb (x y : t) : bool := ltb y x.

(** The reduction step of [np.min]: NaN propagates. *)
Definition min (x y : t) : t :=
  match x, y with
  | NaN, _ => NaN
  | _, NaN => NaN
  | _, _ => if ltb y x then y else x
  end.

Definition max (x y : t) : t :=
  match x, y with
  | NaN, _ => NaN
  | _, NaN => NaN
  | _, _ => if ltb x y then y else x
  end.

End NpFloat.

Abbreviation npfloat := NpFloat.t.
Abbreviation Fin := NpFloat.Fin.
Abbreviation PInf := NpFloat.PInf.
Abbreviation NInf := NpFloat.NInf.
Abbreviation NaN := NpFloat.NaN.

(** The built-in [sum] on numpy scalars, and [round] on one. *)
Definition py_sum (l : list npfloat) : npfloat :=
  fold_left NpFloat.add l NpFloat.zero.

(** [round(q)]: to the nearest integer, a tie to the even one. *)
Definition py_round (q : Qc) : Z :=
  let f := Qfloor q in
  match ((q - Q2Qc (inject_Z f)) ?= Q2Qc (1 # 2))%Qc with
  | Lt => f
  | Gt => (f + 1)%Z
  | Eq => if Z.even f then f else (f + 1)%Z
  end.

(** ** The numpy routines the gating code calls *)

Module Np.

(** [np.sum] *)
Definition sum (l : list npfloat) : npfloat :=
  fold_left NpFloat.add l NpFloat.zero.

(** [np.min]: raises [ValueError] on an empty array. *)
Definition min (l : list npfloat) : result npfloat :=
  match l with
  | [] => Raise ValueError
  | x :: r => Ok (fold_left NpFloat.min r x)
  end.

(** [np.max] *)
Definition max (l : list npfloat) : result npfloat :=
  match l with
  | [] => Raise ValueError
  | x :: r => Ok (fold_left NpFloat.max r x)
  end.

(** [np.mean]: the mean of an empty array is NaN (0/0). *)
Definition mean (l : list npfloat) : npfloat :=
  NpFloat.div (sum l) (NpFloat.of_Z (Z.of_nat (length l))).

(** [array - scalar], [array / scalar], [array * scalar] *)
Definition sub_scalar (l : list npfloat) (c : npfloat) : list npfloat :=
  map (fun x => NpFloat.sub x c) l.

Definition add_scalar (l : list npfloat) (c : npfloat) : list npfloat :=
  map (fun x => NpFloat.add x c) l.

Definition div_scalar (l : list npfloat) (c : npfloat) : list npfloat :=
  map (fun x => NpFloat.div x c) l.

Definition mul_scalar (l : list npfloat) (c : npfloat) : list npfloat :=
  map (fun x => NpFloat.mul x c) l.

(** [np.diff] *)
Fixpoint diff (l : list Z) : list Z :=
  match l with
  | a :: (b :: _) as r => (b - a)%Z :: diff r
  | _ => []
  end.

(** A square root for the examples: exact where the root is rational
    with a small denominator, and otherwise cut off 52 binary digits
    below the unit. *)
Definition sqrt (q : Qc) : Qc :=
  Q2Qc (Qmake (Z.sqrt (Qnum q * Z.pos (Qden q) * 2 ^ 104)) (Qden q * 2 ^ 52)).

(** [np.std] of an integer array, with the square root above: the root
    of the mean squared deviation from the mean, NaN for an empty array. *)
Definition std (x : list Z) : npfloat :=
  match x with
  | [] => NaN
  | _ :: _ =>
      let n := Q2Qc (inject_Z (Z.of_nat (length x))) in
      let total (l : list Qc) := fold_left Qcplus l 0%Qc in
      let values := map (fun z => Q2Qc (inject_Z z)) x in
      let mean := (total values / n)%Qc in
      Fin (sqrt (total (map (fun v => (v - mean) * (v - mean))%Qc values) / n)%Qc)
  end.

(** [np.nan_to_num(signal, nan=0.0, posinf=0.0, neginf=0.0)] *)
Definition nan_to_num (l : list npfloat) : list Qc :=
  map (fun x => match x with Fin q => q | _ => 0%Qc end) l.

(** [np.sort] *)
Definition sort {A : Type} (leb : A -> A -> bool) (l : list A) : list A :=
  Py.sorted leb l.

(** [np.argsort]: the positions of [l], ordered by the values they hold.
    numpy leaves the order of equal values open; here they keep their
    original order, and what is proved below about the distance condition
    holds for every order that visits all positions. *)
Definition argsort (l : list Qc) : list nat :=
  map fst (sort (fun a b => NpFloat.Qc_leb (snd a) (snd b))
                (combine (seq 0 (length l)) l)).

(** [np.percentile(a, q)] with the default linear interpolation: the
    value at the virtual index [(n - 1) * q / 100] of the sorted array.
    [q] outside [0, 100] raises [ValueError]; with a [q] that is accepted,
    an empty array raises [IndexError] (the sorted array is indexed at
    its last position). *)
Definition percentile (a : list Qc) (q : Qc) : result npfloat :=
  if NpFloat.Qc_ltb q 0%Qc || NpFloat.Qc_ltb (Q2Qc 100) q then Raise ValueError
  else
    match a with
    | [] => Raise IndexError
    | _ :: _ =>
        let sorted := sort NpFloat.Qc_leb a in
        let n := Z.of_nat (length a) in
        let virtual_index := (Q2Qc (inject_Z (n - 1)) * (q / Q2Qc 100))%Qc in
        let previous := Qfloor virtual_index in
        let next := Z.min (previous + 1) (n - 1) in
        let gamma := (virtual_index - Q2Qc (inject_Z previous))%Qc in
        let lo := nth (Z.to_nat previous) sorted 0%Qc in
        let hi := nth (Z.to_nat next) sorted 0%Qc in
        Ok (Fin (lo + (hi - lo) * gamma)%Qc)
    end.

End Np.

(** ** Signal conditioning *)

(** [normalize_data] on an array or a list, with the arithmetic of the
    rationals: [(data - np.min(data)) / np.sum(data - np.min(data))].
    The same method with the rounding of binary64 is
    [F64.normalize_data] below. *)
Definition normalize_data (data : list npfloat) : result (list npfloat) :=
  m <- Np.min data ;;
  let shifted := Np.sub_scalar data m in
  Ok (Np.div_scalar shifted (Np.sum shifted)).

(** ** Reference notions for the normalisation properties *)

Module SignalSpec.

Definition qsum (l : list Qc) : Qc := fold_right Qcplus 0%Qc l.

Definition is_minimum (m : Qc) (l : list Qc) : Prop :=
  In m l /\ forall x, In x l -> (m <= x)%Qc.

(** The signal takes at least two values. *)
Definition nonconstant_signal (l : list Qc) : Prop :=
  exists a b, In a l /\ In b l /\ a <> b.

(** [(x - min(x)) / sum(x - min(x))] for the minimum [m]. *)
Definition normalized (m : Qc) (l : list Qc) : list Qc :=
  let s := qsum (map (fun x => x - m)%Qc l) in
  map (fun x => ((x - m) / s)%Qc) l.

End SignalSpec.

(** ** scipy.signal.find_peaks

    The library routine as the gating code calls it, with the [height]
    and [distance] arguments: local maxima (the midpoint of a flat
    peak), then the height condition, then the distance condition. *)

Module Scipy.

Definition at_ (x : list Qc) (i : nat) : Qc := nth i x 0%Qc.

(** [while i_ahead < i_max and x[i_ahead] == x[i]: i_ahead += 1] *)
Fixpoint plateau_end (x : list Qc) (xi : Qc) (i_max : nat) (fuel i_ahead : nat) : nat :=
  match fuel with
  | O => i_ahead
  | S fuel' =>
      if (i_ahead <? i_max)%nat && NpFloat.Qc_eqb (at_ x i_ahead) xi
      then plateau_end x xi i_max fuel' (S i_ahead)
      else i_ahead
  end.

(** The outer loop of [_local_maxima_1d], from sample [i] on. *)
Fixpoint local_maxima_from (x : list Qc) (i_max : nat) (fuel i : nat) : list nat :=
  match fuel with
  | O => []
  | S fuel' =>
      if (i <? i_max)%nat then
        if NpFloat.Qc_ltb (at_ x (i - 1)) (at_ x i) then
          let i_ahead := plateau_end x (at_ x i) i_max (length x) (i + 1) in
          if NpFloat.Qc_ltb (at_ x i_ahead) (at_ x i) then
            let left_edge := i in
            let right_edge := (i_ahead - 1)%nat in
            ((left_edge + right_edge) / 2)%nat
              :: local_maxima_from x i_max fuel' (i_ahead + 1)
          else local_maxima_from x i_max fuel' (i + 1)
        else local_maxima_from x i_max fuel' (i + 1)
      else []
  end.

(** [_local_maxima_1d]: the first and the last sample are never maxima. *)
Definition local_maxima_1d (x : list Qc) : list nat :=
  local_maxima_from x (length x - 1) (length x) 1.

(** [keep[k] = 0] *)
Fixpoint clear_flag (keep : list bool) (k : nat) : list bool :=
  match keep, k with
  | [], _ => []
  | _ :: r, O => false :: r
  | b :: r, S k' => b :: clear_flag r k'
  end.

(** [k = j - 1; while 0 <= k and peaks[j] - peaks[k] < distance: keep[k] = 0; k -= 1];
    the argument [k1] is [k + 1]. *)
Fixpoint flag_earlier (peaks : list nat) (distance : Z) (pj : nat) (k1 : nat)
    (keep : list bool) : list bool :=
  match k1 with
  | O => keep
  | S k =>
      if (Z.of_nat pj - Z.of_nat (nth k peaks O) <? distance)%Z
      then flag_earlier peaks distance pj k (clear_flag keep k)
      else keep
  end.

(** [k = j + 1; while k < peaks_size and peaks[k] - peaks[j] < distance: keep[k] = 0; k += 1] *)
Fixpoint flag_later (peaks : list nat) (distance : Z) (pj : nat) (fuel k : nat)
    (keep : list bool) : list bool :=
  match fuel with
  | O => keep
  | S fuel' =>
      if (k <? length peaks)%nat
         && (Z.of_nat (nth k peaks O) - Z.of_nat pj <? distance)%Z
      then flag_later peaks distance pj fuel' (S k) (clear_flag keep k)
      else keep
  end.

(** One round of the priority loop, for the peak at position [j]. *)
Definition visit_peak (peaks : list nat) (distance : Z) (keep : list bool) (j : nat)
    : list bool :=
  if nth j keep false then
    let pj := nth j peaks O in
    let keep := flag_earlier peaks distance pj j keep in
    flag_later peaks distance pj (length peaks) (S j) keep
  else keep.

(** [_select_by_peak_distance]: [priority_to_position] is visited from
    its last entry (the highest priority) to its first. *)
Definition select_by_peak_distance (peaks : list nat) (priority_to_position : list nat)
    (distance : Z) : list bool :=
  fold_left (visit_peak peaks distance) (rev priority_to_position)
            (repeat true (length peaks)).

(** [peaks[keep]] *)
Fixpoint mask {A : Type} (l : list A) (keep : list bool) : list A :=
  match l, keep with
  | x :: l', b :: keep' => if b then x :: mask l' keep' else mask l' keep'
  | _, _ => []
  end.

(** [find_peaks(x, distance=distance, height=height)] *)
Definition find_peaks (x : list Qc) (distance : Z) (height : npfloat)
    : result (list nat) :=
  if (distance <? 1)%Z then Raise ValueError
  else
    let peaks := local_maxima_1d x in
    let peaks := filter (fun p => NpFloat.leb height (Fin (at_ x p))) peaks in
    let priority := map (at_ x) peaks in
    let keep := select_by_peak_distance peaks (Np.argsort priority) distance in
    Ok (mask peaks keep).

End Scipy.

(** ** The gating configuration ([config.gating]) *)

(** Modelled from the spec: the configuration object, whose class is not
    among the sources.  These are the entries that smoothing, extrema
    detection and automatic gating read: a window size, a percentile, a
    distance in frames (taken as the integer that [find_peaks] rounds it
    up to), a threshold in frames and a flag. *)
Record config : Type := {
  window_size : Z;
  min_height_percentile : Qc;
  min_distance : Z;
  auto_gating_threshold : Z;
  both_extrema : bool
}.

(** ** Extrema detection *)

(** [identify_extrema]: the sorted union of the maxima and minima
    indices, and the maxima indices. *)
Definition identify_extrema (cfg : config) (signal : list npfloat)
    : result (list Z * list Z) :=
  let signal := Np.nan_to_num signal in
  min_height <- Np.percentile signal (min_height_percentile cfg) ;;
  maxima_indices <- Scipy.find_peaks signal (min_distance cfg) min_height ;;
  minima_indices <- Scipy.find_peaks (map Qcopp signal) (min_distance cfg) min_height ;;
  let extrema_indices := map Z.of_nat (maxima_indices ++ minima_indices) in
  let extrema_indices := Np.sort Z.leb extrema_indices in
  Ok (extrema_indices, map Z.of_nat maxima_indices).

(** ** Signal fusion *)

(** The entry [k] of the full convolution of [signal] with a window of
    [w] equal weights. *)
Definition convolve_at (signal : list npfloat) (w : nat) (weight : npfloat) (k : nat)
    : npfloat :=
  fold_left NpFloat.add
    (map (fun j => NpFloat.mul (nth j signal NpFloat.zero) weight)
         (filter (fun j => (j <=? k)%nat && (k - j <? w)%nat) (seq 0 (length signal))))
    NpFloat.zero.

(** [smooth_curve]:
    [np.convolve(signal, np.ones(window_size) / window_size, mode='same')],
    the middle part of the full convolution, as long as the longer of the
    signal and the window.  An empty signal or window raises [ValueError]. *)
Definition smooth_curve (cfg : config) (signal : list npfloat) : result (list npfloat) :=
  if (window_size cfg <=? 0)%Z then Raise ValueError
  else
    match signal with
    | [] => Raise ValueError
    | _ :: _ =>
        let w := Z.to_nat (window_size cfg) in
        let n := length signal in
        let weight := NpFloat.div NpFloat.one (NpFloat.of_Z (window_size cfg)) in
        let offset := ((Nat.min n w - 1) / 2)%nat in
        Ok (map (fun i => convolve_at signal w weight (i + offset))
                (seq 0 (Nat.max n w)))
    end.

(** [weights = [(var / sum_variability) ** -1 for var in variability]] *)
Definition signal_weights (variability : list npfloat) : list npfloat :=
  let sum_variability := Np.sum variability in
  map (fun var => NpFloat.pow_m1 (NpFloat.div var sum_variability)) variability.

(** [combined += term] on arrays: equal lengths, or a one-element term
    that is broadcast. *)
Definition iadd (combined term : list npfloat) : result (list npfloat) :=
  if (length term =? length combined)%nat then
    Ok (map (fun p => NpFloat.add (fst p) (snd p)) (combine combined term))
  else
    match term with
    | [x] => Ok (Np.add_scalar combined x)
    | _ => Raise ValueError
    end.

(** [for i, signal in enumerate(signals): combined += weights[i] * signal],
    the enumeration starting at [i]. *)
Fixpoint accumulate (weights : list npfloat) (i : nat) (signals : list (list npfloat))
    (combined : list npfloat) : result (list npfloat) :=
  match signals with
  | [] => Ok combined
  | signal :: rest =>
      match nth_error weights i with
      | None => Raise IndexError
      | Some w =>
          combined <- iadd combined (Np.mul_scalar signal w) ;;
          accumulate weights (S i) rest combined
      end
  end.

Section Fusion.

(** [np.std]: its value is not rational in general, so the fusion is
    stated for any function in its place. *)
Variable np_std : list Z -> npfloat.

(** The variability of each signal: the standard deviation of the gaps
    between the extrema of its smoothed curve. *)
Definition signal_variability (cfg : config) (maxima_only : bool)
    (signal_list : list (list npfloat)) : result (list npfloat) :=
  smoothed_signals <- Py.map_result (smooth_curve cfg) signal_list ;;
  extrema_indices <-
    Py.map_result
      (fun signal =>
         found <- identify_extrema cfg signal ;;
         Ok (if maxima_only then snd found else fst found))
      smoothed_signals ;;
  Ok (map (fun extrema => np_std (Np.diff extrema)) extrema_indices).

(** [combined_signal]; [signal_list_nor] is the list of the unfiltered
    counterparts, which the method reads from the object. *)
Definition combined_signal (cfg : config) (signal_list : list (list npfloat))
    (maxima_only : bool) (signal_list_nor : list (list npfloat))
    : result (list npfloat * list npfloat) :=
  variability <- signal_variability cfg maxima_only signal_list ;;
  let weights := signal_weights variability in
  match signal_list with
  | [] => Raise IndexError
  | first :: _ =>
      let zeros := repeat NpFloat.zero (length first) in
      combined_signal <- accumulate weights 0 signal_list zeros ;;
      combined_signal_nor <- accumulate weights 0 signal_list_nor zeros ;;
      Ok (combined_signal, combined_signal_nor)
  end.

End Fusion.

(** ** Scaling of the two composite signals ([plot_data]) *)

Definition scale_composites (signal_maxima signal_extrema : list npfloat)
    : list npfloat * list npfloat :=
  let mean_max_values := Np.mean signal_maxima in
  let mean_extrema_values := Np.mean signal_extrema in
  let factor_diff := NpFloat.div mean_max_values mean_extrema_values in
  if NpFloat.ltb factor_diff NpFloat.one
  then (signal_maxima, Np.mul_scalar signal_extrema factor_diff)
  else (Np.mul_scalar signal_maxima factor_diff, signal_extrema).

(** ** The main window and the gating object's state *)

(** Modelled from the spec: the main window, whose class is not among the
    sources.  Automatic gating reads and writes its two ordered lists of
    gated frames and its per-frame phase labels, taken here as a Python
    list with one label for each frame; the messages passed to the logger
    are recorded with them. *)
Record window : Type := mkWindow {
  gated_frames_dia : list Z;
  gated_frames_sys : list Z;
  phases : list String.string;       (* data['phases'] *)
  log : list String.string           (* messages passed to logger.info *)
}.

(** Modelled from the spec: the per-frame table returned by the report
    routine, which is not among the sources.  A row holds the [frame]
    and its [lumen_area]; the other columns are not read here. *)
Definition report_row : Type := (Z * npfloat)%type.

(** Statements that read and write the window and can raise. *)
Definition M (A : Type) : Type := window -> result A * window.

Definition ret {A : Type} (a : A) : M A := fun w => (Ok a, w).

Definition bindM {A B : Type} (m : M A) (k : A -> M B) : M B :=
  fun w =>
    match m w with
    | (Ok a, w') => k a w'
    | (Raise e, w') => (Raise e, w')
    end.

Notation "x <~ m ;; k" := (bindM m (fun x => k))
  (at level 61, m at next level, right associativity).
Notation "m ;;; k" := (bindM m (fun _ => k))
  (at level 61, right associativity).

Definition lift {A : Type} (r : result A) : M A := fun w => (r, w).

Definition get : M window := fun w => (Ok w, w).

Definition logger_info (msg : String.string) : M unit :=
  fun w => (Ok tt, mkWindow (gated_frames_dia w) (gated_frames_sys w)
                            (phases w) (log w ++ [msg])).

Definition set_gated_frames_dia (frames : list Z) : M unit :=
  fun w => (Ok tt, mkWindow frames (gated_frames_sys w) (phases w) (log w)).

Definition set_gated_frames_sys (frames : list Z) : M unit :=
  fun w => (Ok tt, mkWindow (gated_frames_dia w) frames (phases w) (log w)).

(** [self.main_window.data['phases'][frame] = label] *)
Definition set_phase (frame : Z) (label : String.string) : M unit :=
  fun w =>
    match Py.setitem (phases w) frame label with
    | Ok p => (Ok tt, mkWindow (gated_frames_dia w) (gated_frames_sys w) p (log w))
    | Raise e => (Raise e, w)
    end.

(** [for frame in frames: data['phases'][frame] = label] *)
Fixpoint stamp_phases (label : String.string) (frames : list Z) : M unit :=
  match frames with
  | [] => ret tt
  | frame :: rest => set_phase frame label ;;; stamp_phases label rest
  end.

(** ** Automatic gating *)

(** One round of the matching loop for the peak [maxima]; the state is
    [(gated_indices, extrema_indices)]. *)
Definition match_step (threshold : Z) (state : list Z * list Z) (maxima : Z)
    : result (list Z * list Z) :=
  let (gated_indices, extrema_indices) := state in
  let close_extrema :=
    filter (fun extrema => (Z.abs (maxima - extrema) <=? threshold)%Z) extrema_indices in
  match close_extrema with
  | [] => Ok state
  | closest_extrema :: _ =>
      let gated_indices :=
        gated_indices
          ++ [py_round (Q2Qc (inject_Z (maxima + closest_extrema)) / Q2Qc 2)%Qc] in
      extrema_indices <- Py.list_remove closest_extrema extrema_indices ;;
      Ok (gated_indices, extrema_indices)
  end.

(** [for maxima in maxima_indices: ...] *)
Fixpoint match_peaks (threshold : Z) (maxima_indices : list Z) (state : list Z * list Z)
    : result (list Z * list Z) :=
  match maxima_indices with
  | [] => Ok state
  | maxima :: rest =>
      state <- match_step threshold state maxima ;;
      match_peaks threshold rest state
  end.

(** The peak lists of the two composite signals and the gated indices
    matched from them. *)
Definition gated_indices (cfg : config) (maxima_signal extrema_signal : list npfloat)
    : result (list Z) :=
  from_maxima <- identify_extrema cfg maxima_signal ;;
  from_extrema <- identify_extrema cfg extrema_signal ;;
  let maxima_indices :=
    if both_extrema cfg then fst from_maxima else snd from_maxima in
  let extrema_indices := fst from_extrema in
  state <- match_peaks (auto_gating_threshold cfg) maxima_indices ([], extrema_indices) ;;
  Ok (fst state).

(** [report_data.loc[report_data['frame'] == frame, 'lumen_area'].values[0]] *)
Definition lumen_area_of (report_data : list report_row) (frame : Z) : result npfloat :=
  match filter (fun row => (fst row =? frame)%Z) report_data with
  | [] => Raise IndexError
  | row :: _ => Ok (snd row)
  end.

(** The split into two halves, their labelling by the lumen area sums
    and the stamping of the phase labels. *)
Definition assign_phases (report_data : list report_row) (gated : list Z) : M unit :=
  let first_half := Py.every_second gated in
  let second_half := Py.every_second (skipn 1 gated) in
  areas_first <~ lift (Py.map_result (lumen_area_of report_data) first_half) ;;
  let sum_first_half := py_sum areas_first in
  areas_second <~ lift (Py.map_result (lumen_area_of report_data) second_half) ;;
  let sum_second_half := py_sum areas_second in
  (if NpFloat.gtb sum_first_half sum_second_half
   then set_gated_frames_dia first_half ;;; set_gated_frames_sys second_half
   else set_gated_frames_dia second_half ;;; set_gated_frames_sys first_half) ;;;
  w <~ get ;;
  stamp_phases "D"%string (gated_frames_dia w) ;;;
  w <~ get ;;
  stamp_phases "S"%string (gated_frames_sys w).

Definition automatic_gating (cfg : config) (report_data : list report_row)
    (maxima_signal extrema_signal : list npfloat) : M unit :=
  logger_info (if both_extrema cfg
               then "Extrema peak detection according to config.yaml"%string
               else "Maxima peak detection according to config.yaml"%string) ;;;
  gated <~ lift (gated_indices cfg maxima_signal extrema_signal) ;;
  assign_phases report_data gated.

(** ** [plot_data]

    The two signal groups and their unfiltered counterparts are fields of
    the object and arguments here, and [np_std] stands for [np.std] as in
    the fusion.  The calls that only draw are left out; the ranges
    computed for the dashed overlays are kept for the [ValueError] of
    [np.max] and [np.min] on an empty array. *)
Definition plot_data (np_std : list Z -> npfloat) (cfg : config)
    (report_data : list report_row)
    (signal_list_max signal_list_max_nor : list (list npfloat))
    (signal_list_extrema signal_list_extrema_nor : list (list npfloat))
    : M bool :=
  from_max <~ lift (combined_signal np_std cfg signal_list_max true signal_list_max_nor) ;;
  from_extrema <~
    lift (combined_signal np_std cfg signal_list_extrema false signal_list_extrema_nor) ;;
  let (signal_maxima, signal_maxima_nor) := from_max in
  let (signal_extrema, signal_extrema_nor) := from_extrema in
  let (signal_maxima, signal_extrema) := scale_composites signal_maxima signal_extrema in
  _ <~ lift (Np.max signal_maxima) ;; _ <~ lift (Np.max signal_extrema) ;;
  _ <~ lift (Np.min signal_maxima) ;; _ <~ lift (Np.min signal_extrema) ;;
  _ <~ lift (Np.max signal_maxima_nor) ;; _ <~ lift (Np.max signal_extrema_nor) ;;
  _ <~ lift (Np.min signal_maxima_nor) ;; _ <~ lift (Np.min signal_extrema_nor) ;;
  w <~ get ;;
  (match gated_frames_dia w, gated_frames_sys w with
   | [], [] => automatic_gating cfg report_data signal_maxima signal_extrema
   | _, _ => ret tt
   end) ;;;
  ret true.

(** ** The message that names the missing frames *)

(** [while j < len(nums) - 1 and nums[j + 1] - nums[j] == 1: j += 1] *)
Fixpoint extend_run (nums : list Z) (fuel j : nat) : nat :=
  match fuel with
  | O => j
  | S fuel' =>
      if (j <? length nums - 1)%nat
         && (nth (j + 1) nums 0 - nth j nums 0 =? 1)%Z
      then extend_run nums fuel' (j + 1)
      else j
  end.

(** The outer loop of [connect_consecutive_frames], from position [i] on. *)
Fixpoint connect_from (nums : list Z) (fuel i : nat) : list (list Z) :=
  match fuel with
  | O => []
  | S fuel' =>
      if (i <? length nums)%nat then
        let j := extend_run nums (length nums) i in
        let sublist :=
          if (i =? j)%nat then [nth i nums 0%Z] else Py.slice nums i (j + 1) in
        sublist :: connect_from nums fuel' (j + 1)
      else []
  end.

(** [f'{sublist[0]}-{sublist[-1]}' if len(sublist) > 2 else ", ".join(map(str, sublist))] *)
Definition render_run (sublist : list Z) : string :=
  if (2 <? length sublist)%nat
  then (Py.str (hd 0%Z sublist) ++ "-" ++ Py.str (last sublist 0%Z))%string
  else Py.join ", " (map Py.str sublist).

Definition connect_consecutive_frames (missing : list Z) : string :=
  let nums := Py.sorted Z.leb (Py.set missing) in
  let connected := connect_from nums (length nums) 0 in
  Py.join ", " (map render_run connected).

(** ** Reference notions for the missing-frame message *)

Module FramesSpec.

(** A non-empty list in which every element is its predecessor plus one. *)
Definition consecutive_run (r : list Z) : Prop :=
  r <> [] /\
  forall k, (S k < length r)%nat -> nth (S k) r 0%Z = (nth k r 0 + 1)%Z.

(** Runs that cannot be extended: a run never continues the one before it. *)
Inductive maximal_runs : list (list Z) -> Prop :=
| runs_nil : maximal_runs []
| runs_one r : consecutive_run r -> maximal_runs [r]
| runs_cons r r' rs :
    consecutive_run r ->
    (last r 0 + 1)%Z <> hd 0%Z r' ->
    maximal_runs (r' :: rs) ->
    maximal_runs (r :: r' :: rs).

(** The notation [first-last]. *)
Definition range_notation (r : list Z) : string :=
  (Py.str (hd 0%Z r) ++ "-" ++ Py.str (last r 0%Z))%string.

(** Every run written as [first-last] (a single number for a run of one),
    the runs separated by [", "]. *)
Definition compressed (rs : list (list Z)) : string :=
  Py.join ", "
    (map (fun r => match r with [x] => Py.str x | _ => range_notation r end) rs).

(** Runs of three or more written as [first-last], shorter runs number
    by number. *)
Definition compressed_from_three (rs : list (list Z)) : string :=
  Py.join ", "
    (map (fun r => if (3 <=? length r)%nat then range_notation r
                   else Py.join ", " (map Py.str r)) rs).

End FramesSpec.

(** ** Auxiliary notions used in the proofs *)

(** The smaller of two rationals, as [np.min] picks it. *)
Definition qmin (a b : Qc) : Qc := if NpFloat.Qc_ltb b a then b else a.

(** The sublist that [connect_consecutive_frames] appends for the run
    from position [i] to position [j]. *)
Definition run_between (nums : list Z) (i j : nat) : list Z :=
  if (i =? j)%nat then [nth i nums 0%Z] else Py.slice nums i (j + 1).

(** A flat peak of [x] around the sample [p]: a run of equal samples
    from [l] to [r] that contains [p], with a smaller sample on each side. *)
Definition flat_peak (x : list Qc) (p : nat) : Prop :=
  exists l r : nat,
    (1 <= l <= p)%nat /\ (p <= r)%nat /\
    (forall k, (l <= k <= r)%nat -> Scipy.at_ x k = Scipy.at_ x l) /\
    (Scipy.at_ x (l - 1) < Scipy.at_ x l)%Qc /\
    (Scipy.at_ x (r + 1) < Scipy.at_ x l)%Qc.

(** The samples from [l] to [r] form a flat peak inside the signal: they
    are equal, none of them is the first or the last sample, and the
    sample on each side is smaller. *)
Definition plateau (x : list Qc) (l r : nat) : Prop :=
  (1 <= l <= r)%nat /\ (r + 1 < length x)%nat /\
  (forall k, (l <= k <= r)%nat -> Scipy.at_ x k = Scipy.at_ x l) /\
  (Scipy.at_ x (l - 1) < Scipy.at_ x l)%Qc /\
  (Scipy.at_ x (r + 1) < Scipy.at_ x l)%Qc.

(** The sample [p] is the middle of a flat peak, rounded down as
    [_local_maxima_1d] does. *)
Definition peak_middle (x : list Qc) (p : nat) : Prop :=
  exists l r : nat, plateau x l r /\ p = ((l + r) / 2)%nat.

(** The state of [_select_by_peak_distance] once the positions [visited]
    have had their round: a visited peak that is kept has had every other
    peak closer than [distance] cleared, and a cleared peak is closer than
    [distance] to a visited peak that is kept and whose priority is not
    smaller. *)
Definition selection_state (peaks : list nat) (distance : Z) (priority : nat -> Qc)
    (visited : list nat) (keep : list bool) : Prop :=
  (forall j k : nat, In j visited -> nth j keep false = true ->
     (k < length peaks)%nat -> k <> j ->
     (Z.abs (Z.of_nat (nth k peaks O) - Z.of_nat (nth j peaks O)) < distance)%Z ->
     nth k keep false = false) /\
  (forall k : nat, (k < length peaks)%nat -> nth k keep false = false ->
     exists j : nat, In j visited /\ nth j keep false = true /\
       (Z.abs (Z.of_nat (nth k peaks O) - Z.of_nat (nth j peaks O)) < distance)%Z /\
       (priority k <= priority j)%Qc).

(** Any two entries of [l], the earlier first, are at least [d] apart. *)
Definition separated (d : Z) (l : list Z) : Prop :=
  ForallOrdPairs (fun a b => (d <= b - a)%Z) l.

(** [round(s / 2)] for an integer [s], in integer arithmetic. *)
Definition rounded_half (s : Z) : Z :=
  if Z.even s then (s / 2)%Z
  else if Z.even (s / 2) then (s / 2)%Z else (s / 2 + 1)%Z.

(** ** Reference notions for the peak matching *)

Module MatchingSpec.

Definition within (threshold maxima extrema : Z) : Prop :=
  (Z.abs (maxima - extrema) <= threshold)%Z.

(** [g] is the integer nearest to the average of [m] and [e]; when the
    average lies half-way between two integers, [g] is the even one. *)
Definition rounded_average (m e g : Z) : Prop :=
  (2 * g = m + e)%Z \/ (Z.abs (2 * g - (m + e)) = 1 /\ Z.even g = true)%Z.

(** [greedy_matching threshold maxima extrema pairs remaining]: going
    through [maxima] in order, each one is paired with the first entry
    of the extrema still available that lies within [threshold], and that
    entry is taken out; a maximum with no such entry is passed over.
    [remaining] are the extrema left at the end. *)
Inductive greedy_matching (threshold : Z)
  : list Z -> list Z -> list (Z * Z) -> list Z -> Prop :=
| matching_done extrema :
    greedy_matching threshold [] extrema [] extrema
| matching_skip m maxima extrema pairs remaining :
    (forall e, In e extrema -> ~ within threshold m e) ->
    greedy_matching threshold maxima extrema pairs remaining ->
    greedy_matching threshold (m :: maxima) extrema pairs remaining
| matching_pair m maxima before c after pairs remaining :
    (forall e, In e before -> ~ within threshold m e) ->
    within threshold m c ->
    greedy_matching threshold maxima (before ++ after) pairs remaining ->
    greedy_matching threshold (m :: maxima) (before ++ c :: after)
                    ((m, c) :: pairs) remaining.

End MatchingSpec.

(** ** Reference notions for the lumen areas *)

Module ReportSpec.



End ReportSpec.

(** The label found in slot [i] once [label] has been written for [frames]. *)
Definition stamped (label : string) (frames : list Z) (old : string) (i : nat) : string :=
  if existsb (Z.eqb (Z.of_nat i)) frames then label else old.

(** ** Sample inputs *)

(** A signal with integer samples. *)
Definition signal_of (samples : list Z) : list npfloat := map NpFloat.of_Z samples.

(** A configuration [scipy] and [numpy] accept: a percentile between 0
    and 100 and a peak distance of at least 1. *)
Definition valid_detection (cfg : config) : Prop :=
  (0 <= min_height_percentile cfg)%Qc /\
  (min_height_percentile cfg <= Q2Qc 100)%Qc /\
  (1 <= min_distance cfg)%Z.

Definition sample_config (window percentile distance threshold : Z) (both : bool)
    : config :=
  {| window_size := window;
     min_height_percentile := Q2Qc (inject_Z percentile);
     min_distance := distance;
     auto_gating_threshold := threshold;
     both_extrema := both |}.

(** A report table for the frames 1, 2, ... with the given lumen areas. *)
Definition report_of (areas : list Z) : list report_row :=
  combine (map Z.of_nat (seq 1 (length areas))) (map NpFloat.of_Z areas).

(** A window without gated frames, all [n] frames unlabelled. *)
Definition fresh_window (n : nat) : window :=
  mkWindow [] [] (repeat "-"%string n) [].

(** Two signals of eleven frames: maxima at 1, 3, 5, 7, 9, and maxima at
    1, 5, 7. *)
Definition regular_signal : list npfloat :=
  signal_of [0; 1; 0; 1; 0; 1; 0; 1; 0; 1; 0]%Z.

Definition irregular_signal : list npfloat :=
  signal_of [0; 1; 0; 0; 0; 1; 0; 1; 0; 0; 0]%Z.

(** The pair of curves of a fusion that has returned. *)
Definition curves_of (r : result (list npfloat * list npfloat))
    : list npfloat * list npfloat :=
  match r with
  | Ok curves => curves
  | Raise _ => ([], [])
  end.

(** ** The frames of the chosen range *)

(** An image: its rows of pixels. *)
Definition image : Type := list (list npfloat).

(** [range(a, b)] *)
Definition py_range (a b : Z) : list Z :=
  map (fun k => (a + Z.of_nat k)%Z) (seq 0 (Z.to_nat (b - a))).

(** [l[i:j]] for integers: a negative bound counts from the end, and
    both bounds are cut to the ends of the list. *)
Definition py_slice {A : Type} (l : list A) (i j : Z) : list A :=
  let n := Z.of_nat (length l) in
  let bound k := (if k <? 0 then Z.max (k + n) 0 else Z.min k n)%Z in
  Py.slice l (Z.to_nat (bound i)) (Z.to_nat (bound j)).

(** The frames of the range that have no row in the report:
    [[frame for frame in range(lower_limit + 1, upper_limit + 1)
      if frame not in report_data['frame'].values]] *)
Definition missing_frames (report_data : list report_row) (lower_limit upper_limit : Z)
    : list Z :=
  filter (fun frame => negb (existsb (Z.eqb frame) (map fst report_data)))
         (py_range (lower_limit + 1) (upper_limit + 1)).

(** What [define_intramural_part] leaves behind: [False] with the text
    of the error box, if one was shown, or [True] with the fields
    [frames] and [x] of the gating object. *)
Inductive intramural_part : Type :=
| Rejected (message : option string)
| Accepted (frames : list image) (x : list Z).

(** [define_intramural_part].  The frame range dialog and the report
    routine are not among the sources, and what they return is given:
    [dialog] is the pair of limits the user entered ([None] if the
    dialog was dismissed) and [report] the table computed for two
    limits ([None] where the routine returns [None]).  The rolling mean
    of the elliptic ratio is computed by the method and never read, and
    is left out. *)
Definition define_intramural_part (images : list image) (dialog : option (Z * Z))
    (report : Z -> Z -> option (list report_row)) : intramural_part :=
  match dialog with
  | None => Rejected None
  | Some (lower_limit, upper_limit) =>
      match report lower_limit upper_limit with
      | None =>
          Rejected
            (Some "Please ensure that an input file was read and contours were drawn"%string)
      | Some report_data =>
          if negb (Z.of_nat (length report_data) =? upper_limit - lower_limit)%Z then
            let str_missing :=
              connect_consecutive_frames
                (missing_frames report_data lower_limit upper_limit) in
            Rejected (Some ("Please add contours to frames " ++ str_missing)%string)
          else
            Accepted (py_slice images lower_limit upper_limit) (map fst report_data)
      end
  end.

(** [crop_frames]: [self.frames[:, x1:x2, y1:y2]] *)
Definition crop_frames (frames : list image) (x1 x2 y1 y2 : Z) : list image :=
  map (fun frame => map (fun row => py_slice row y1 y2) (py_slice frame x1 x2)) frames.

(** [frame.ravel()] *)
Definition ravel (frame : image) : list npfloat := concat frame.

Section Correlation.

(** [np.corrcoef(a, b)[0, 1]]: the correlation coefficient involves a
    square root, so the loop is stated for any function in its place. *)
Variable corrcoef : list npfloat -> list npfloat -> npfloat.

(** [calculate_correlation]: the coefficient of each frame with the
    next one, and a final 0. *)
Definition calculate_correlation (frames : list image) : list npfloat :=
  map (fun i => corrcoef (ravel (nth i frames [])) (ravel (nth (i + 1) frames [])))
      (seq 0 (length frames - 1))
  ++ [NpFloat.zero].

End Correlation.

(** The samples of an array without infinities and NaN. *)
Definition finite_values (l : list npfloat) : option (list Qc) :=
  fold_right
    (fun x acc =>
       match x, acc with
       | NpFloat.Fin q, Some r => Some (q :: r)
       | _, _ => None
       end)
    (Some []) l.

(** [np.corrcoef(a, b)[0, 1]] for the examples, with the square root of
    [Np.sqrt]: the covariance of the two arrays divided by their two
    standard deviations, NaN where a deviation is 0. *)
Definition np_corrcoef (a b : list npfloat) : npfloat :=
  match finite_values a, finite_values b with
  | Some a, Some b =>
      let n := Q2Qc (inject_Z (Z.of_nat (length a))) in
      let deviations l :=
        map (fun x => (x - SignalSpec.qsum l / n)%Qc) l in
      let covariance u v :=
        (SignalSpec.qsum (map (fun p => (fst p * snd p)%Qc)
                              (combine (deviations u) (deviations v)))
         / (n - 1))%Qc in
      NpFloat.div
        (NpFloat.div (Fin (covariance a b)) (Fin (Np.sqrt (covariance a a))))
        (Fin (Np.sqrt (covariance b b)))
  | _, _ => NaN
  end.

(** A frame of a single row of pixels. *)
Definition row_frame (pixels : list Z) : image := [signal_of pixels].

(** ** The markers of the plot and the mouse handlers *)

(** The two line styles in use: [self.default_linestyle], which is
    [(0, (1, 3))], and ['dashed']. *)
Inductive linestyle : Type :=
| DefaultLinestyle
| Dashed.

(** The values ['D'] and ['S'] of [current_phase] and [tmp_phase]. *)
Inductive phase : Type :=
| Diastole
| Systole.

(** A vertical line of the plot ([Line2D]): its x position, [None] once
    [set_xdata] was given the position of a pointer outside the axes,
    its colour and its line style. *)
Record line : Type := mkLine {
  line_xdata : option Qc;
  line_color : string;
  line_linestyle : linestyle
}.

(** Modelled from the spec: the slider, the two check boxes and the two
    toggle routines belong to the main window and to [gui.right_half],
    which are not among the sources.  A call to one of them is recorded
    with its arguments; what it does to the window is not modelled. *)
Inductive call : Type :=
| SetSliderValue (value : Z)          (* display_slider.set_value(value, reset_highlights=False) *)
| ToggleDiastolicFrame (flag : bool)  (* toggle_diastolic_frame(main_window, flag, drag=True) *)
| ToggleSystolicFrame (flag : bool)   (* toggle_systolic_frame(main_window, flag, drag=True) *)
| CheckDiastolicBox                   (* diastolic_frame_box.setChecked(True) *)
| CheckSystolicBox.                   (* systolic_frame_box.setChecked(True) *)

(** The fields of the gating object that the handlers read and write.
    The line objects are shared between [vertical_lines] and
    [selected_line]: [lines] holds every line created so far, and a line
    is referred to by its position there. *)
Record markers : Type := mkMarkers {
  lines : list line;
  vertical_lines : list nat;
  selected_line : option nat;
  current_phase : option phase;
  tmp_phase : option phase;
  calls : list call
}.

(** A mouse event of the plotting library, with the shape of the cursor
    at the time ([fig.canvas.cursor().shape()], 0 outside the zooming
    and panning modes), whether the left button is concerned, whether
    the pointer is inside the axes, and its x position in data
    coordinates, which is [None] outside the axes. *)
Record mouse_event : Type := mkEvent {
  cursor_shape : Z;
  left_button : bool;
  inaxes : bool;
  xdata : option Qc
}.

(** The exceptions of the handlers: [TypeError] for arithmetic on
    [None], [ValueError] for [list.remove] of an absent element. *)
Inductive handler_exn : Type :=
| HandlerTypeError
| HandlerValueError.

Inductive handled (A : Type) : Type :=
| Done (a : A)
| Failed (e : handler_exn) (state : markers).
Arguments Done {A} a.
Arguments Failed {A} e state.

Definition get_line (st : markers) (id : nat) : line :=
  nth id (lines st) (mkLine None ""%string DefaultLinestyle).

Definition update_line (st : markers) (id : nat) (f : line -> line) : markers :=
  mkMarkers (Py.replace_nth (lines st) id (f (get_line st id)))
            (vertical_lines st) (selected_line st) (current_phase st) (tmp_phase st)
            (calls st).

Definition set_linestyle (style : linestyle) (l : line) : line :=
  mkLine (line_xdata l) (line_color l) style.

Definition set_color (color : string) (l : line) : line :=
  mkLine (line_xdata l) color (line_linestyle l).

Definition set_xdata (x : option Qc) (l : line) : line :=
  mkLine x (line_color l) (line_linestyle l).

Definition set_selected_line (selected : option nat) (st : markers) : markers :=
  mkMarkers (lines st) (vertical_lines st) selected (current_phase st) (tmp_phase st)
            (calls st).

Definition set_tmp_phase (p : option phase) (st : markers) : markers :=
  mkMarkers (lines st) (vertical_lines st) (selected_line st) (current_phase st) p
            (calls st).

Definition record_call (c : call) (st : markers) : markers :=
  mkMarkers (lines st) (vertical_lines st) (selected_line st) (current_phase st)
            (tmp_phase st) (calls st ++ [c]).

(** [self.vertical_lines.append(plt.axvline(x=x, color=color,
    linestyle=self.default_linestyle))]; the new line is the result. *)
Definition append_line (x : Qc) (color : string) (st : markers) : nat * markers :=
  let id := length (lines st) in
  (id,
   mkMarkers (lines st ++ [mkLine (Some x) color DefaultLinestyle])
             (vertical_lines st ++ [id]) (selected_line st) (current_phase st)
             (tmp_phase st) (calls st)).

(** [if self.selected_line is not None:
       self.selected_line.set_linestyle(self.default_linestyle)
       self.selected_line = None] *)
Definition reset_highlights (st : markers) : markers :=
  match selected_line st with
  | Some id => set_selected_line None (update_line st id (set_linestyle DefaultLinestyle))
  | None => st
  end.

(** [update_color]: [color or self.default_line_color], where an empty
    text counts as no colour. *)
Definition update_color (color : option string) (st : markers) : markers :=
  let color :=
    match color with
    | Some c => if String.eqb c ""%string then "grey"%string else c
    | None => "grey"%string
    end in
  match selected_line st with
  | Some id => update_line st id (set_color color)
  | None => st
  end.

(** [remove_lines]: every line of the list is taken off the axes, which
    is not part of this state, and the list is emptied; [selected_line]
    is not touched. *)
Definition remove_lines (st : markers) : markers :=
  mkMarkers (lines st) [] (selected_line st) (current_phase st) (tmp_phase st) (calls st).

(** [draw_existing_lines]: a line at [frame + 1] for each of the frames
    that is in [self.x - 1]. *)
Definition draw_existing_lines (x : list Z) (frames : list Z) (color : string)
    (st : markers) : markers :=
  let frames :=
    filter (fun frame => existsb (Z.eqb frame) (map (fun v => (v - 1)%Z) x)) frames in
  fold_left
    (fun st frame => snd (append_line (Q2Qc (inject_Z (frame + 1))) color st))
    frames st.

(** [abs(lx - x)] *)
Definition abs_difference (lx x : Qc) : Qc :=
  let d := (lx - x)%Qc in
  if NpFloat.Qc_ltb d 0 then (- d)%Qc else d.

(** [abs(line.get_xdata()[0] - event.xdata)] for each line of the list;
    a position that is [None] raises [TypeError]. *)
Fixpoint distances (st : markers) (ids : list nat) (x : Qc) : option (list Qc) :=
  match ids with
  | [] => Some []
  | id :: rest =>
      match line_xdata (get_line st id), distances st rest x with
      | Some lx, Some ds => Some (abs_difference lx x :: ds)
      | _, _ => None
      end
  end.

(** [min(distances)] and [np.argmin(distances)] of a list with the
    first entry [d]: the smallest entry and the first position that
    holds it. *)
Fixpoint argmin_from (best : Qc) (best_at : nat) (at_ : nat) (ds : list Qc) : Qc * nat :=
  match ds with
  | [] => (best, best_at)
  | d :: rest =>
      if NpFloat.Qc_ltb d best then argmin_from d at_ (S at_) rest
      else argmin_from best best_at (S at_) rest
  end.

(** The line of the list at the smallest distance from [x], if that
    distance is below [len(self.frames) / 100]:
    [if self.vertical_lines: distances = ...;
     if min(distances) < len(self.frames) / 100:
       self.selected_line = self.vertical_lines[np.argmin(distances)]] *)
Definition nearest_line (n_frames : nat) (st : markers) (x : Qc) : handled (option nat) :=
  match distances st (vertical_lines st) x with
  | None => Failed HandlerTypeError st
  | Some [] => Done None                       (* no vertical line yet *)
  | Some (d :: ds) =>
      let (smallest, position) := argmin_from d 0 1 ds in
      if NpFloat.Qc_ltb smallest (Q2Qc (inject_Z (Z.of_nat n_frames)) / Q2Qc 100)%Qc
      then Done (Some (nth position (vertical_lines st) O))
      else Done None
  end.

(** [if new_line: ...]: a new line at [x] in the colour of the current
    phase, with the flags [set_dia] and [set_sys]. *)
Definition new_line_for_phase (diastole_color_plt systole_color_plt : string)
    (x : Qc) (st : markers) : nat * bool * bool * markers :=
  let '(color, set_dia, set_sys) :=
    match current_phase st with
    | Some Diastole => (diastole_color_plt, true, false)
    | Some Systole => (systole_color_plt, false, true)
    | None => ("grey"%string, false, false)
    end in
  let (id, st) := append_line x color st in
  (id, set_dia, set_sys, st).

(** [self.selected_line = line; self.selected_line.set_linestyle('dashed')] *)
Definition select_line (id : nat) (st : markers) : markers :=
  update_line (set_selected_line (Some id) st) id (set_linestyle Dashed).

(** The end of [on_click]: the slider is moved, and a frame that is
    gated, or a phase that is armed, starts a pending toggle. *)
Definition begin_toggle (w : window) (set_slider_to : Z) (set_dia set_sys : bool)
    (st : markers) : markers :=
  let st := record_call (SetSliderValue set_slider_to) st in
  if existsb (Z.eqb set_slider_to) (gated_frames_dia w) || set_dia then
    record_call (ToggleDiastolicFrame false) (set_tmp_phase (Some Diastole) st)
  else if existsb (Z.eqb set_slider_to) (gated_frames_sys w) || set_sys then
    record_call (ToggleSystolicFrame false) (set_tmp_phase (Some Systole) st)
  else st.

(** [on_click].  [n_frames] is [len(self.frames)]; the window gives the
    gated frames, and the two colours are those of the main window.  A
    position of [None] cannot be subtracted or drawn ([TypeError]). *)
Definition on_click (n_frames : nat) (w : window)
    (diastole_color_plt systole_color_plt : string)
    (event : mouse_event) (st : markers) : handled markers :=
  if negb (cursor_shape event =? 0)%Z then Done st
  else if left_button event && inaxes event then
    let st := reset_highlights st in
    match xdata event with
    | None => Failed HandlerTypeError st
    | Some x =>
        match nearest_line n_frames st x with
        | Failed e s => Failed e s
        | Done (Some id) =>
            let set_slider_to := line_xdata (get_line st id) in
            let st := select_line id st in
            match set_slider_to with
            | None => Failed HandlerTypeError st
            | Some position =>
                Done (begin_toggle w (py_round (position - 1)%Qc) false false st)
            end
        | Done None =>
            let '(id, set_dia, set_sys, st) :=
              new_line_for_phase diastole_color_plt systole_color_plt x st in
            let st := select_line id st in
            Done (begin_toggle w (py_round (x - 1)%Qc) set_dia set_sys st)
        end
    end
  else Done st.

(** [on_release] *)
Definition on_release (event : mouse_event) (st : markers) : markers :=
  if negb (cursor_shape event =? 0)%Z then st
  else
    let st :=
      if left_button event && inaxes event then
        match tmp_phase st with
        | Some Diastole =>
            record_call (ToggleDiastolicFrame true) (record_call CheckDiastolicBox st)
        | Some Systole =>
            record_call (ToggleSystolicFrame true) (record_call CheckSystolicBox st)
        | None => st
        end
      else st in
    set_tmp_phase None st.

(** [self.vertical_lines.remove(line)] *)
Fixpoint remove_first (id : nat) (ids : list nat) : option (list nat) :=
  match ids with
  | [] => None
  | i :: rest =>
      if (i =? id)%nat then Some rest
      else match remove_first id rest with
           | Some rest' => Some (i :: rest')
           | None => None
           end
  end.

(** [on_motion] *)
Definition on_motion (event : mouse_event) (st : markers) : handled markers :=
  if negb (cursor_shape event =? 0)%Z then Done st
  else
    match left_button event, selected_line st with
    | true, Some id =>
        let st := update_line st id (set_xdata (xdata event)) in
        match xdata event with
        | Some x => Done (record_call (SetSliderValue (py_round (x - 1)%Qc)) st)
        | None =>
            match remove_first id (vertical_lines st) with
            | None => Failed HandlerValueError st
            | Some rest =>
                Done (mkMarkers (lines st) rest None (current_phase st) None (calls st))
            end
        end
    | _, _ => Done st
    end.

(** What the handlers keep: the selected line is one of the vertical
    lines; each vertical line exists, has a position and is listed
    once; and a dashed vertical line is the selected one. *)
Definition markers_consistent (st : markers) : Prop :=
  (forall id, selected_line st = Some id -> In id (vertical_lines st)) /\
  NoDup (vertical_lines st) /\
  (forall id, In id (vertical_lines st) ->
     (id < length (lines st))%nat /\ line_xdata (get_line st id) <> None) /\
  (forall id, In id (vertical_lines st) ->
     line_linestyle (get_line st id) = Dashed -> selected_line st = Some id).

(** The events the plotting library sends: a position inside the axes,
    none outside. *)
Definition event_consistent (event : mouse_event) : Prop :=
  inaxes event = true <-> xdata event <> None.

(** No marker, nothing selected. *)
Definition no_markers : markers := mkMarkers [] [] None None None [].

(** Markers at 2 and 4: the frames 1 and 3 of a range of five frames. *)
Definition two_markers : markers :=
  draw_existing_lines [1; 2; 3; 4; 5]%Z [1; 3]%Z "blue"%string no_markers.

(** One marker at 2, selected. *)
Definition selected_marker : markers :=
  mkMarkers [mkLine (Some (Q2Qc (inject_Z 2))) "grey"%string Dashed] [O] (Some O)
            None None [].

(** A press or a move of the left button in the normal cursor mode, at
    [x] inside the axes or outside of them. *)
Definition left_at (x : option Qc) : mouse_event :=
  mkEvent 0 true (match x with Some _ => true | None => false end) x.

(** ** The dashed overlays of [plot_data] *)

(** The built-ins [max(a, b)] and [min(a, b)] on two numpy scalars: the
    first argument, unless the second is greater (smaller). *)
Definition py_max (a b : npfloat) : npfloat := if NpFloat.gtb b a then b else a.

Definition py_min (a b : npfloat) : npfloat := if NpFloat.ltb b a then b else a.

(** The block of [plot_data] that prepares the two unfiltered composite
    signals (the [_nor] signals) for drawing, after the two composite
    signals have been scaled: [max_signal_range], [min_signal_range],
    [max_signal_nor] and [min_signal_nor], the [scaling_factor_nor], and
    for each signal the shift by [min_signal_range - np.max(...)].
    [np.max] and [np.min] of an empty array raise [ValueError]. *)
Definition rescale_overlays
    (signal_maxima signal_extrema signal_maxima_nor signal_extrema_nor : list npfloat)
    : result (list npfloat * list npfloat) :=
  max_maxima <- Np.max signal_maxima ;;
  max_extrema <- Np.max signal_extrema ;;
  let max_signal_range := py_max max_maxima max_extrema in
  min_maxima <- Np.min signal_maxima ;;
  min_extrema <- Np.min signal_extrema ;;
  let min_signal_range := py_min min_maxima min_extrema in
  max_maxima_nor <- Np.max signal_maxima_nor ;;
  max_extrema_nor <- Np.max signal_extrema_nor ;;
  let max_signal_nor := py_max max_maxima_nor max_extrema_nor in
  min_maxima_nor <- Np.min signal_maxima_nor ;;
  min_extrema_nor <- Np.min signal_extrema_nor ;;
  let min_signal_nor := py_min min_maxima_nor min_extrema_nor in
  let scaling_factor_nor :=
    NpFloat.div (NpFloat.sub max_signal_range min_signal_range)
                (NpFloat.sub max_signal_nor min_signal_nor) in
  let signal_maxima_nor :=
    Np.mul_scalar (Np.sub_scalar signal_maxima_nor min_signal_nor) scaling_factor_nor in
  let signal_extrema_nor :=
    Np.mul_scalar (Np.sub_scalar signal_extrema_nor min_signal_nor) scaling_factor_nor in
  top <- Np.max signal_maxima_nor ;;
  let shift_amount := NpFloat.sub min_signal_range top in
  let signal_maxima_nor := Np.add_scalar signal_maxima_nor shift_amount in
  top <- Np.max signal_extrema_nor ;;
  let shift_amount := NpFloat.sub min_signal_range top in
  let signal_extrema_nor := Np.add_scalar signal_extrema_nor shift_amount in
  Ok (signal_maxima_nor, signal_extrema_nor).

(** ** IEEE 754 binary64

    Where a property depends on how numpy rounds, the [float64] values
    are the binary64 numbers themselves and the operations are the
    correctly rounded ones (to nearest, ties to even) of the Standard
    Library's [SpecFloat], with 53 bits of precision and the largest
    exponent 1024. *)

Module F64.

Definition prec : Z := 53.
Definition emax : Z := 1024.

Definition t : Type := spec_float.

Definition nan : t := S754_nan.
Definition zero : t := S754_zero false.
Definition inf : t := S754_infinity false.

Definition add : t -> t -> t := SFadd prec emax.
Definition sub : t -> t -> t := SFsub prec emax.
Definition div : t -> t -> t := SFdiv prec emax.

(** [x < y]: false when either is NaN. *)
Definition ltb (x y : t) : bool := SFltb x y.

Definition is_nan (x : t) : bool :=
  match x with S754_nan => true | _ => false end.


(** Neither NaN nor an infinity. *)
Definition is_finite (x : t) : bool :=
  match x with S754_zero _ | S754_finite _ _ _ => true | _ => false end.



(** The float nearest to the integer [z]. *)
Definition of_Z (z : Z) : t := binary_normalize prec emax z 0 false.


(** *** numpy reductions over an array of [float64] *)

(** The step of the [minimum] reduction,
    [io1 = (io1 < in2 || npy_isnan(io1)) ? io1 : in2]: NaN propagates.
    (Of a zero of each sign either may be returned, depending on the
    build; what is shown below does not depend on it.) *)
Definition minimum (io1 in2 : t) : t :=
  if ltb io1 in2 || is_nan io1 then io1 else in2.

(** [np.min] of an array: [ValueError] for an empty one. *)
Definition np_min (data : list t) : result t :=
  match data with
  | [] => Raise ValueError
  | x :: r => Ok (fold_left minimum r x)
  end.

(** [for (...) res += a[i]] *)
Definition add_each (res : t) (a : list t) : t := fold_left add a res.

(** [r[j] += a[i + j]] for the eight accumulators. *)
Definition add_block (r block : list t) : list t :=
  map (fun p => add (fst p) (snd p)) (combine r block).

(** The first [k] blocks of eight elements of [a]. *)
Fixpoint blocks_of_8 (k : nat) (a : list t) : list (list t) :=
  match k with
  | O => []
  | S k' => firstn 8 a :: blocks_of_8 k' (skipn 8 a)
  end.

(** numpy's summation of a block of 8 to 128 elements: eight running
    sums over the complete groups of eight, added up as a tree, and the
    remaining elements added one by one. *)
Definition unrolled_sum (a : list t) : t :=
  let groups := (length a / 8)%nat in
  let r := fold_left add_block (blocks_of_8 (groups - 1) (skipn 8 a)) (firstn 8 a) in
  let res :=
    match r with
    | [r0; r1; r2; r3; r4; r5; r6; r7] =>
        add (add (add r0 r1) (add r2 r3)) (add (add r4 r5) (add r6 r7))
    | _ => zero
    end in
  add_each res (skipn (8 * groups) a).

(** numpy's pairwise summation: fewer than eight elements are added from
    left to right, up to 128 elements by [unrolled_sum], and a longer
    array is cut in two near the middle, at a multiple of eight. *)
Fixpoint pairwise_sum (fuel : nat) (a : list t) : t :=
  let n := length a in
  if (n <? 8)%nat then add_each zero a
  else if (n <=? 128)%nat then unrolled_sum a
  else
    match fuel with
    | O => zero
    | S fuel' =>
        let n2 := (n / 2 - (n / 2) mod 8)%nat in
        add (pairwise_sum fuel' (firstn n2 a)) (pairwise_sum fuel' (skipn n2 a))
    end.

(** [np.sum] of an array: the pairwise sum, added to the initial 0. *)
Definition np_sum (a : list t) : t := add zero (pairwise_sum (length a) a).

(** *** [normalize_data] in binary64 *)

(** [normalize_data] called with an array or a list, as [prepare_data]
    does for the correlation and the blurring:
    [(data - np.min(data)) / np.sum(data - np.min(data))]. *)
Definition normalize_data (data : list t) : result (list t) :=
  m <- np_min data ;;
  let shifted := map (fun x => sub x m) data in
  let total := np_sum shifted in
  Ok (map (fun x => div x total) shifted).

(** [Series.min()] and [Series.sum()] of pandas, to which [np.min] and
    [np.sum] hand over a column of the report: both skip NaN (the
    minimum of no value at all is NaN, NaN counts as 0 in the sum). *)
Definition series_min (data : list t) : t :=
  match filter (fun x => negb (is_nan x)) data with
  | [] => nan
  | x :: r => fold_left minimum r x
  end.

Definition series_sum (data : list t) : t :=
  np_sum (map (fun x => if is_nan x then zero else x) data).

(** [normalize_data] called with a column of the report, as
    [prepare_data] does for the shortest distance, the vector angle and
    the vector length. *)
Definition normalize_series (data : list t) : list t :=
  let m := series_min data in
  let shifted := map (fun x => sub x m) data in
  let total := series_sum shifted in
  map (fun x => div x total) shifted.

(** [data + c] *)
Definition add_scalar (data : list t) (c : t) : list t :=
  map (fun x => add x c) data.

(** The signed mantissa of a finite value at the smallest exponent
    binary64 has: the value in units of [2^emin]. *)
Definition scaled (x : t) : Z :=
  match x with
  | S754_finite s m e =>
      let v := (Z.pos m * 2 ^ (e - emin prec emax))%Z in
      if s then (- v)%Z else v
  | _ => 0%Z
  end.





End F64.

(** * Rational arithmetic helpers *)

Section QcFacts.
Local Open Scope Qc_scope.

Lemma Qc_eqb_eq (a b : Qc) : NpFloat.Qc_eqb a b = true <-> a = b.
Proof.
  unfold NpFloat.Qc_eqb. rewrite Qceq_alt.
  destruct (a ?= b); split; congruence.
Qed.

Lemma Qc_eqb_refl (a : Qc) : NpFloat.Qc_eqb a a = true.
Proof. now apply Qc_eqb_eq. Qed.

Lemma Qc_eqb_neq (a b : Qc) : NpFloat.Qc_eqb a b = false <-> a <> b.
Proof.
  rewrite <- Qc_eqb_eq. destruct (NpFloat.Qc_eqb a b); split; congruence.
Qed.

Lemma Qc_ltb_lt (a b : Qc) : NpFloat.Qc_ltb a b = true <-> a < b.
Proof.
  unfold NpFloat.Qc_ltb. rewrite Qclt_alt.
  destruct (a ?= b); split; congruence.
Qed.

Lemma Qc_ltb_ge (a b : Qc) : NpFloat.Qc_ltb a b = false <-> b <= a.
Proof.
  split; intros H.
  - apply Qcnot_lt_le. intros Hlt. apply Qc_ltb_lt in Hlt. congruence.
  - destruct (NpFloat.Qc_ltb a b) eqn:E; [|reflexivity].
    apply Qc_ltb_lt in E. exfalso. now apply (Qcle_not_lt _ _ H).
Qed.

Lemma Qc_leb_le (a b : Qc) : NpFloat.Qc_leb a b = true <-> a <= b.
Proof.
  unfold NpFloat.Qc_leb. rewrite Qcle_alt.
  destruct (a ?= b); split; congruence.
Qed.

Lemma Qclt_irrefl (a : Qc) : ~ a < a.
Proof. intros H. now apply Qclt_not_eq in H. Qed.

Lemma Qc_sub_nonneg (a m : Qc) : m <= a -> 0 <= a - m.
Proof.
  intros H. apply Qcle_minus_iff in H. exact H.
Qed.

Lemma Qc_sub_pos (a m : Qc) : m < a -> 0 < a - m.
Proof.
  intros H. apply Qclt_minus_iff in H. exact H.
Qed.

Lemma Qcplus_nonneg_pos (a b : Qc) : 0 <= a -> 0 < b -> 0 < a + b.
Proof.
  intros Ha Hb.
  apply Qclt_le_trans with (y := 0 + b).
  - now rewrite Qcplus_0_l.
  - apply Qcplus_le_compat; [exact Ha | apply Qcle_refl].
Qed.

Lemma Qcplus_pos_nonneg (a b : Qc) : 0 < a -> 0 <= b -> 0 < a + b.
Proof. intros. rewrite Qcplus_comm. now apply Qcplus_nonneg_pos. Qed.

Lemma Qcplus_nonneg (a b : Qc) : 0 <= a -> 0 <= b -> 0 <= a + b.
Proof.
  intros Ha Hb. rewrite <- (Qcplus_0_l 0) at 1. now apply Qcplus_le_compat.
Qed.

Lemma Qcopp_lt_reg (a b : Qc) : - a < - b -> b < a.
Proof.
  intros H. apply Qclt_minus_iff in H. apply Qclt_minus_iff.
  replace (a + - b) with (- b + - - a) by ring. exact H.
Qed.

End QcFacts.

(** * Normalisation *)

Section Normalize.
Local Open Scope Qc_scope.
Import SignalSpec.

Lemma fold_min_finite (r : list Qc) (x : Qc) :
  fold_left NpFloat.min (map Fin r) (Fin x) = Fin (fold_left qmin r x).
Proof.
  revert x. induction r as [|y r IH]; intros x; simpl; [reflexivity|].
  unfold qmin at 2. destruct (NpFloat.Qc_ltb y x); apply IH.
Qed.

Lemma fold_qmin_le (r : list Qc) (x : Qc) :
  fold_left qmin r x <= x /\ forall y, In y r -> fold_left qmin r x <= y.
Proof.
  revert x. induction r as [|y r IH]; intros x; simpl.
  - split; [apply Qcle_refl | tauto].
  - destruct (IH (qmin x y)) as [H1 H2].
    assert (Hx : qmin x y <= x /\ qmin x y <= y).
    { unfold qmin. destruct (NpFloat.Qc_ltb y x) eqn:E.
      - apply Qc_ltb_lt in E. split; [now apply Qclt_le_weak | apply Qcle_refl].
      - apply Qc_ltb_ge in E. split; [apply Qcle_refl | exact E]. }
    destruct Hx as [Hx Hy]. split.
    + eapply Qcle_trans; eauto.
    + intros z [<-|Hz]; [eapply Qcle_trans; eauto | now apply H2].
Qed.

Lemma fold_qmin_in (r : list Qc) (x : Qc) : In (fold_left qmin r x) (x :: r).
Proof.
  revert x. induction r as [|y r IH]; intros x; simpl; [now left|].
  destruct (IH (qmin x y)) as [H|H].
  - unfold qmin in H at 1. destruct (NpFloat.Qc_ltb y x); auto.
  - auto.
Qed.

Lemma fold_qmin_minimum (r : list Qc) (x : Qc) :
  is_minimum (fold_left qmin r x) (x :: r).
Proof.
  split; [apply fold_qmin_in|].
  destruct (fold_qmin_le r x) as [H1 H2].
  intros y [<-|Hy]; [exact H1 | now apply H2].
Qed.

Lemma is_minimum_unique (l : list Qc) (m m' : Qc) :
  is_minimum m l -> is_minimum m' l -> m = m'.
Proof.
  intros [H1 H2] [H3 H4]. apply Qcle_antisym; auto.
Qed.

Lemma np_min_finite (l : list Qc) (m : Qc) :
  is_minimum m l -> Np.min (map Fin l) = Ok (Fin m).
Proof.
  destruct l as [|x r]; intros Hm; [destruct Hm as [[] _]|].
  simpl. rewrite fold_min_finite. do 2 f_equal.
  eapply is_minimum_unique; [apply fold_qmin_minimum | exact Hm].
Qed.

Lemma fold_add_finite (l : list Qc) (a : Qc) :
  fold_left NpFloat.add (map Fin l) (Fin a) = Fin (a + qsum l).
Proof.
  revert a. induction l as [|x l IH]; intros a; simpl.
  - now rewrite Qcplus_0_r.
  - rewrite IH. f_equal. ring.
Qed.

Lemma np_sum_finite (l : list Qc) : Np.sum (map Fin l) = Fin (qsum l).
Proof.
  unfold Np.sum, NpFloat.zero. rewrite fold_add_finite. f_equal. ring.
Qed.

Lemma sub_scalar_finite (l : list Qc) (m : Qc) :
  Np.sub_scalar (map Fin l) (Fin m) = map Fin (map (fun x => x - m) l).
Proof.
  unfold Np.sub_scalar. rewrite !map_map. apply map_ext. intros x. reflexivity.
Qed.

Lemma div_scalar_finite (l : list Qc) (s : Qc) :
  s <> 0 ->
  Np.div_scalar (map Fin l) (Fin s) = map Fin (map (fun x => x / s) l).
Proof.
  intros Hs. unfold Np.div_scalar. rewrite !map_map. apply map_ext.
  intros x. simpl. apply Qc_eqb_neq in Hs. now rewrite Hs.
Qed.

Lemma qsum_nonneg (l : list Qc) :
  (forall x, In x l -> 0 <= x) -> 0 <= qsum l.
Proof.
  induction l as [|x l IH]; intros H; simpl.
  - apply Qcle_refl.
  - apply Qcplus_nonneg; [apply H; now left | apply IH; intros; apply H; now right].
Qed.

Lemma qsum_pos (l : list Qc) (y : Qc) :
  (forall x, In x l -> 0 <= x) -> In y l -> 0 < y -> 0 < qsum l.
Proof.
  induction l as [|x l IH]; intros H Hin Hy; simpl; [destruct Hin|].
  destruct Hin as [->|Hin].
  - apply Qcplus_pos_nonneg; [exact Hy|].
    apply qsum_nonneg. intros; apply H; now right.
  - apply Qcplus_nonneg_pos; [apply H; now left|].
    apply IH; auto. intros; apply H; now right.
Qed.

Lemma nonconstant_above_min (l : list Qc) (m : Qc) :
  nonconstant_signal l -> is_minimum m l -> exists x, In x l /\ m < x.
Proof.
  intros (a & b & Ha & Hb & Hne) [Hin Hle].
  destruct (Qcle_lt_or_eq _ _ (Hle a Ha)) as [H|H]; [eauto|].
  destruct (Qcle_lt_or_eq _ _ (Hle b Hb)) as [H'|H']; [eauto|].
  congruence.
Qed.

Lemma shifted_sum_pos (l : list Qc) (m : Qc) :
  nonconstant_signal l -> is_minimum m l ->
  0 < qsum (map (fun x => x - m) l).
Proof.
  intros Hnc Hm. destruct (nonconstant_above_min l m Hnc Hm) as [y [Hy Hlt]].
  apply qsum_pos with (y := y - m).
  - intros x Hx. apply in_map_iff in Hx. destruct Hx as [z [<- Hz]].
    apply Qc_sub_nonneg. now apply Hm.
  - apply in_map_iff. eauto.
  - now apply Qc_sub_pos.
Qed.

Lemma normalize_data_nonconstant (l : list Qc) (m : Qc) :
  nonconstant_signal l -> is_minimum m l ->
  normalize_data (map Fin l) = Ok (map Fin (normalized m l)).
Proof.
  intros Hnc Hm. unfold normalize_data.
  rewrite (np_min_finite l m Hm). simpl.
  rewrite sub_scalar_finite, np_sum_finite.
  rewrite div_scalar_finite.
  - unfold normalized. do 2 f_equal. apply map_map.
  - intros E. pose proof (shifted_sum_pos l m Hnc Hm) as H.
    rewrite E in H. now apply Qclt_irrefl in H.
Qed.

End Normalize.

(** * Sorting integers *)

Section SortZ.

Lemma insert_sorted_perm {A : Type} (leb : A -> A -> bool) (x : A) (l : list A) :
  Permutation (Py.insert_sorted leb x l) (x :: l).
Proof.
  induction l as [|y l IH]; simpl; [reflexivity|].
  destruct (leb x y); [reflexivity|].
  rewrite IH. apply perm_swap.
Qed.

Lemma sorted_perm {A : Type} (leb : A -> A -> bool) (l : list A) :
  Permutation (Py.sorted leb l) l.
Proof.
  induction l as [|x l IH]; simpl; [reflexivity|].
  unfold Py.sorted in IH. rewrite insert_sorted_perm. now constructor.
Qed.

Lemma insert_sorted_le (x : Z) (l : list Z) :
  StronglySorted Z.le l -> StronglySorted Z.le (Py.insert_sorted Z.leb x l).
Proof.
  induction 1 as [|y l Hs IH Hall]; simpl.
  - repeat constructor.
  - destruct (Z.leb x y) eqn:E.
    + apply Z.leb_le in E. constructor; [now constructor|].
      constructor; [exact E|].
      eapply Forall_impl; [|exact Hall]. intros; lia.
    + apply Z.leb_gt in E. constructor; [exact IH|].
      rewrite insert_sorted_perm. constructor; [lia | exact Hall].
Qed.

Lemma sorted_le (l : list Z) : StronglySorted Z.le (Py.sorted Z.leb l).
Proof.
  induction l as [|x l IH]; simpl; [constructor|].
  now apply insert_sorted_le.
Qed.

Lemma sorted_nodup_lt (l : list Z) :
  StronglySorted Z.le l -> NoDup l -> StronglySorted Z.lt l.
Proof.
  induction 1 as [|x l Hs IH Hall]; intros Hnd; [constructor|].
  inversion Hnd as [|? ? Hnin Hnd']; subst.
  constructor; [now apply IH|].
  rewrite Forall_forall in *. intros y Hy.
  specialize (Hall y Hy).
  assert (x <> y) by (intros ->; contradiction). lia.
Qed.

Lemma StronglySorted_NoDup_lt (l : list Z) : StronglySorted Z.lt l -> NoDup l.
Proof.
  induction 1 as [|x l Hs IH Hall]; constructor; [|exact IH].
  intros Hin. rewrite Forall_forall in Hall. specialize (Hall x Hin). lia.
Qed.

Lemma sorted_strict (l : list Z) :
  NoDup l -> StronglySorted Z.lt (Py.sorted Z.leb l).
Proof.
  intros Hnd. apply sorted_nodup_lt; [apply sorted_le|].
  eapply Permutation_NoDup; [symmetry; apply sorted_perm | exact Hnd].
Qed.

(** In a strictly increasing list the entries grow with the position. *)
Lemma strict_nth_lt (l : list Z) (d : Z) :
  StronglySorted Z.lt l ->
  forall i j, (i < j < length l)%nat -> (nth i l d < nth j l d)%Z.
Proof.
  induction 1 as [|x l Hs IH Hall]; intros i j Hij; simpl in *; [lia|].
  destruct j as [|j]; [lia|]. destruct i as [|i].
  - rewrite Forall_forall in Hall. apply Hall. apply nth_In. lia.
  - apply IH. lia.
Qed.

End SortZ.

(** * The missing-frame message *)

Section ConnectFrames.
Import FramesSpec.
Local Open Scope nat_scope.

Variable nums : list Z.

Lemma extend_run_ge (fuel j : nat) : j <= extend_run nums fuel j.
Proof.
  revert j. induction fuel as [|fuel IH]; intros j; simpl; [lia|].
  destruct (_ && _); [|lia]. specialize (IH (j + 1)). lia.
Qed.

Lemma extend_run_lt (fuel j : nat) :
  j < length nums -> extend_run nums fuel j < length nums.
Proof.
  revert j. induction fuel as [|fuel IH]; intros j Hj; simpl; [lia|].
  destruct (j <? length nums - 1) eqn:E; simpl; [|lia].
  destruct (_ =? _)%Z; [|lia].
  apply Nat.ltb_lt in E. apply IH. lia.
Qed.

Lemma extend_run_steps (fuel j k : nat) :
  j <= k < extend_run nums fuel j ->
  (nth (k + 1) nums 0 = nth k nums 0 + 1)%Z.
Proof.
  revert j. induction fuel as [|fuel IH]; intros j Hk; simpl in Hk; [lia|].
  destruct (j <? length nums - 1) eqn:E; simpl in Hk; [|lia].
  destruct (nth (j + 1) nums 0 - nth j nums 0 =? 1)%Z eqn:E'; [|lia].
  apply Z.eqb_eq in E'.
  destruct (Nat.eq_dec k j) as [->|Hne]; [lia|].
  apply (IH (j + 1)). lia.
Qed.

Lemma extend_run_stops (fuel j : nat) :
  length nums - j <= fuel -> j < length nums ->
  let j' := extend_run nums fuel j in
  S j' < length nums -> (nth (j' + 1) nums 0 - nth j' nums 0 <> 1)%Z.
Proof.
  revert j. induction fuel as [|fuel IH]; intros j Hf Hj; simpl; [lia|].
  destruct (j <? length nums - 1) eqn:E; simpl.
  - destruct (nth (j + 1) nums 0 - nth j nums 0 =? 1)%Z eqn:E'.
    + apply Nat.ltb_lt in E. apply IH; lia.
    + intros _. now apply Z.eqb_neq in E'.
  - apply Nat.ltb_ge in E. lia.
Qed.

Lemma slice_length (i j : nat) :
  j <= length nums -> length (Py.slice nums i j) = j - i.
Proof.
  intros Hj. unfold Py.slice. rewrite length_firstn, length_skipn. lia.
Qed.

Lemma slice_nth (i j k : nat) (d : Z) :
  k < j - i -> nth k (Py.slice nums i j) d = nth (i + k) nums d.
Proof.
  intros Hk. unfold Py.slice.
  rewrite nth_firstn. destruct (k <? j - i) eqn:E.
  - now rewrite nth_skipn.
  - apply Nat.ltb_ge in E. lia.
Qed.

Lemma run_between_slice (i j : nat) :
  i <= j < length nums -> run_between nums i j = Py.slice nums i (j + 1).
Proof.
  intros Hij. unfold run_between. destruct (i =? j) eqn:E; [|reflexivity].
  apply Nat.eqb_eq in E. subst j.
  unfold Py.slice. replace (i + 1 - i) with 1 by lia.
  rewrite <- (firstn_skipn i nums) at 1.
  assert (Hlen : length (firstn i nums) = i) by (rewrite length_firstn; lia).
  rewrite app_nth2 by lia. rewrite Hlen, Nat.sub_diag.
  destruct (skipn i nums) as [|x r] eqn:Es; [|reflexivity].
  apply (f_equal (@length Z)) in Es. rewrite length_skipn in Es. simpl in Es. lia.
Qed.

Lemma run_between_length (i j : nat) :
  i <= j < length nums -> length (run_between nums i j) = j + 1 - i.
Proof.
  intros Hij. rewrite run_between_slice by exact Hij. apply slice_length. lia.
Qed.

Lemma run_between_nth (i j k : nat) (d : Z) :
  i <= j < length nums -> k <= j - i ->
  nth k (run_between nums i j) d = nth (i + k) nums d.
Proof.
  intros Hij Hk. rewrite run_between_slice by exact Hij. apply slice_nth. lia.
Qed.

Lemma run_between_hd (i j : nat) :
  i <= j < length nums -> hd 0%Z (run_between nums i j) = nth i nums 0%Z.
Proof.
  intros Hij. pose proof (run_between_nth i j 0 0%Z Hij ltac:(lia)) as H.
  rewrite Nat.add_0_r in H. rewrite <- H.
  destruct (run_between nums i j); reflexivity.
Qed.

Lemma last_nth (l : list Z) (d : Z) : last l d = nth (length l - 1) l d.
Proof.
  induction l as [|x l IH]; [reflexivity|].
  destruct l as [|y l]; [reflexivity|].
  change (last (x :: y :: l) d) with (last (y :: l) d). rewrite IH.
  simpl. now rewrite Nat.sub_0_r.
Qed.

Lemma run_between_last (i j : nat) :
  i <= j < length nums -> last (run_between nums i j) 0%Z = nth j nums 0%Z.
Proof.
  intros Hij. rewrite last_nth, run_between_length by exact Hij.
  rewrite run_between_nth by (try exact Hij; lia). f_equal. lia.
Qed.

Lemma run_between_skipn (i j : nat) :
  i <= j < length nums -> run_between nums i j ++ skipn (j + 1) nums = skipn i nums.
Proof.
  intros Hij. rewrite run_between_slice by exact Hij. unfold Py.slice.
  replace (skipn (j + 1) nums) with (skipn (j + 1 - i) (skipn i nums)).
  - apply firstn_skipn.
  - rewrite skipn_skipn. f_equal. lia.
Qed.

Lemma run_between_consecutive (fuel i : nat) :
  i < length nums ->
  consecutive_run (run_between nums i (extend_run nums fuel i)).
Proof.
  intros Hi.
  pose proof (extend_run_ge fuel i) as Hge.
  pose proof (extend_run_lt fuel i Hi) as Hlt.
  set (j := extend_run nums fuel i) in *.
  split.
  - intros E. apply (f_equal (@length Z)) in E.
    rewrite run_between_length in E by lia. simpl in E. lia.
  - intros k Hk. rewrite run_between_length in Hk by lia.
    rewrite !run_between_nth by lia.
    replace (i + S k) with (i + k + 1) by lia.
    apply (extend_run_steps fuel i). fold j. lia.
Qed.

Lemma connect_from_spec (fuel i : nat) :
  length nums - i <= fuel -> i <= length nums ->
  let connected := connect_from nums fuel i in
  concat connected = skipn i nums /\
  maximal_runs connected /\
  (i < length nums -> hd 0%Z (hd [] connected) = nth i nums 0%Z).
Proof.
  revert i. induction fuel as [|fuel IH]; intros i Hf Hi; simpl.
  - assert (i = length nums) by lia. subst i.
    rewrite skipn_all. split; [reflexivity|]. split; [constructor | lia].
  - destruct (i <? length nums) eqn:E.
    + apply Nat.ltb_lt in E.
      pose proof (extend_run_ge (length nums) i) as Hge.
      pose proof (extend_run_lt (length nums) i E) as Hlt.
      pose proof (extend_run_stops (length nums) i ltac:(lia) E) as Hstop.
      pose proof (run_between_consecutive (length nums) i E) as Hrun.
      set (j := extend_run nums (length nums) i) in *.
      fold (run_between nums i j).
      destruct (IH (j + 1) ltac:(lia) ltac:(lia)) as [Hcat [Hmax Hhd]].
      split; [|split].
      * simpl. rewrite Hcat. apply run_between_skipn. lia.
      * destruct (connect_from nums fuel (j + 1)) as [|r' rs] eqn:Ec.
        -- now constructor.
        -- constructor; [exact Hrun | | exact Hmax].
           rewrite run_between_last by lia.
           destruct (Nat.lt_ge_cases (j + 1) (length nums)) as [Hin|Hout].
           ++ simpl in Hhd. rewrite (Hhd Hin).
              cbv zeta in Hstop. specialize (Hstop ltac:(lia)). lia.
           ++ exfalso. simpl in Hcat.
              rewrite skipn_all2 in Hcat by lia.
              apply (f_equal (@length Z)) in Hcat.
              rewrite length_app in Hcat. simpl in Hcat.
              inversion Hmax as [|? Hr|? ? ? Hr _ _]; subst;
                destruct Hr as [Hr _]; destruct r'; simpl in Hcat; congruence || lia.
      * intros _. simpl. apply run_between_hd. lia.
    + apply Nat.ltb_ge in E. assert (i = length nums) by lia. subst i.
      rewrite skipn_all. split; [reflexivity|]. split; [constructor | lia].
Qed.

End ConnectFrames.

Lemma render_run_from_three (rs : list (list Z)) :
  Py.join ", " (map render_run rs) = FramesSpec.compressed_from_three rs.
Proof.
  unfold FramesSpec.compressed_from_three. apply f_equal. apply map_ext.
  intros r. unfold render_run, FramesSpec.range_notation.
  destruct r as [|a [|b [|c r]]]; reflexivity.
Qed.

(** * Local maxima *)

Section LocalMaxima.
Local Open Scope nat_scope.
Local Arguments Nat.div : simpl never.

Variable x : list Qc.
Variable i_max : nat.

Lemma plateau_end_ge (xi : Qc) (fuel a : nat) :
  a <= Scipy.plateau_end x xi i_max fuel a.
Proof.
  revert a. induction fuel as [|fuel IH]; intros a; simpl; [lia|].
  destruct (_ && _); [|lia]. specialize (IH (S a)). lia.
Qed.

Lemma plateau_end_le (xi : Qc) (fuel a : nat) :
  a <= i_max -> Scipy.plateau_end x xi i_max fuel a <= i_max.
Proof.
  revert a. induction fuel as [|fuel IH]; intros a Ha; simpl; [lia|].
  destruct (a <? i_max) eqn:E; simpl; [|lia].
  destruct (NpFloat.Qc_eqb _ _); [|lia].
  apply Nat.ltb_lt in E. apply IH. lia.
Qed.

Lemma plateau_end_flat (xi : Qc) (fuel a k : nat) :
  a <= k < Scipy.plateau_end x xi i_max fuel a -> Scipy.at_ x k = xi.
Proof.
  revert a. induction fuel as [|fuel IH]; intros a Hk; simpl in Hk; [lia|].
  destruct (a <? i_max) eqn:E; simpl in Hk; [|lia].
  destruct (NpFloat.Qc_eqb (Scipy.at_ x a) xi) eqn:E'; [|lia].
  apply Qc_eqb_eq in E'.
  destruct (Nat.eq_dec k a) as [->|Hne]; [exact E'|].
  apply (IH (S a)). lia.
Qed.

Lemma local_maxima_from_spec (fuel i : nat) :
  1 <= i ->
  let out := Scipy.local_maxima_from x i_max fuel i in
  StronglySorted (fun p p' => p + 2 <= p') out /\
  Forall (fun p => i <= p /\ flat_peak x p) out.
Proof.
  revert i. induction fuel as [|fuel IH]; intros i Hi; simpl.
  - split; constructor.
  - destruct (i <? i_max) eqn:Ei; [|split; constructor].
    apply Nat.ltb_lt in Ei.
    destruct (NpFloat.Qc_ltb (Scipy.at_ x (i - 1)) (Scipy.at_ x i)) eqn:El.
    + pose proof (plateau_end_ge (Scipy.at_ x i) (length x) (i + 1)) as Hge.
      pose proof (plateau_end_le (Scipy.at_ x i) (length x) (i + 1) ltac:(lia)) as Hle.
      pose proof (plateau_end_flat (Scipy.at_ x i) (length x) (i + 1)) as Hfl.
      set (e := Scipy.plateau_end x (Scipy.at_ x i) i_max (length x) (i + 1)) in *.
      clearbody e.
      destruct (NpFloat.Qc_ltb (Scipy.at_ x e) (Scipy.at_ x i)) eqn:Er.
      * destruct (IH (e + 1) ltac:(lia)) as [Hs Hall].
        assert (Hmid : i <= (i + (e - 1)) / 2 <= e - 1).
        { split.
          - apply Nat.div_le_lower_bound; [discriminate | clear - Hge; lia].
          - apply Nat.Div0.div_le_upper_bound. clear - Hge. lia. }
        split.
        -- constructor; [exact Hs|].
           eapply Forall_impl; [|exact Hall]. intros p [Hp _].
           destruct Hmid as [_ Hmid]. clear - Hp Hmid Hge. lia.
        -- constructor.
           ++ split; [apply Hmid|]. exists i, (e - 1).
              split; [lia|]. split; [lia|]. split; [|split].
              ** intros k Hk. destruct (Nat.eq_dec k i) as [->|Hne]; [reflexivity|].
                 apply Hfl. lia.
              ** now apply Qc_ltb_lt.
              ** replace (e - 1 + 1) with e by lia. now apply Qc_ltb_lt.
           ++ eapply Forall_impl; [|exact Hall]. intros p [Hp Hf]. split; [lia|exact Hf].
      * destruct (IH (i + 1) ltac:(lia)) as [Hs Hall]. split; [exact Hs|].
        eapply Forall_impl; [|exact Hall]. intros p [Hp Hf]. split; [lia|exact Hf].
    + destruct (IH (i + 1) ltac:(lia)) as [Hs Hall]. split; [exact Hs|].
      eapply Forall_impl; [|exact Hall]. intros p [Hp Hf]. split; [lia|exact Hf].
Qed.

Lemma plateau_end_exact (xi : Qc) (fuel a e : nat) :
  a <= e -> e - a <= fuel ->
  (forall k, a <= k < e -> k < i_max /\ Scipy.at_ x k = xi) ->
  (e < i_max -> Scipy.at_ x e <> xi) ->
  Scipy.plateau_end x xi i_max fuel a = e.
Proof.
  revert a. induction fuel as [|fuel IH]; intros a Hae Hf Hin Hout; simpl; [lia|].
  destruct (Nat.eq_dec a e) as [->|Hne].
  - destruct (e <? i_max) eqn:E; simpl; [|reflexivity].
    apply Nat.ltb_lt in E.
    destruct (NpFloat.Qc_eqb (Scipy.at_ x e) xi) eqn:E'; [|reflexivity].
    apply Qc_eqb_eq in E'. now elim (Hout E).
  - destruct (Hin a ltac:(lia)) as [Ha Hx].
    apply Nat.ltb_lt in Ha. apply Qc_eqb_eq in Hx. rewrite Ha, Hx. simpl.
    apply IH; [lia | lia | | exact Hout].
    intros k Hk. apply Hin. lia.
Qed.

(** Every reported sample is the middle of a flat peak inside the signal. *)
Lemma local_maxima_from_middle (fuel i : nat) :
  1 <= i -> i_max < length x ->
  Forall (peak_middle x) (Scipy.local_maxima_from x i_max fuel i).
Proof.
  intros Hi Hmax. revert i Hi. induction fuel as [|fuel IH]; intros i Hi; simpl.
  - constructor.
  - destruct (i <? i_max) eqn:Ei; [|constructor].
    apply Nat.ltb_lt in Ei.
    destruct (NpFloat.Qc_ltb (Scipy.at_ x (i - 1)) (Scipy.at_ x i)) eqn:El;
      [|apply IH; lia].
    pose proof (plateau_end_ge (Scipy.at_ x i) (length x) (i + 1)) as Hge.
    pose proof (plateau_end_le (Scipy.at_ x i) (length x) (i + 1) ltac:(lia)) as Hle.
    pose proof (plateau_end_flat (Scipy.at_ x i) (length x) (i + 1)) as Hfl.
    set (e := Scipy.plateau_end x (Scipy.at_ x i) i_max (length x) (i + 1)) in *.
    clearbody e.
    destruct (NpFloat.Qc_ltb (Scipy.at_ x e) (Scipy.at_ x i)) eqn:Er;
      [|apply IH; lia].
    constructor; [|apply IH; lia].
    exists i, (e - 1). split; [|reflexivity].
    split; [lia|]. split; [lia|]. split; [|split].
    + intros k Hk. destruct (Nat.eq_dec k i) as [->|Hne]; [reflexivity|].
      apply Hfl. lia.
    + now apply Qc_ltb_lt.
    + replace (e - 1 + 1) with e by lia. now apply Qc_ltb_lt.
Qed.

(** The middle of every flat peak inside the signal is reported. *)
Lemma local_maxima_from_complete (l r : nat) :
  i_max + 1 = length x -> plateau x l r ->
  forall fuel i, 1 <= i <= l -> l - i < fuel ->
  In ((l + r) / 2) (Scipy.local_maxima_from x i_max fuel i).
Proof.
  intros Him (Hl & Hr & Hflat & Hleft & Hright).
  induction fuel as [|fuel IH]; intros i Hi Hf; [lia|]. simpl.
  assert (Ei : (i <? i_max) = true) by (apply Nat.ltb_lt; lia). rewrite Ei.
  destruct (Nat.eq_dec i l) as [->|Hne].
  - rewrite (proj2 (Qc_ltb_lt _ _) Hleft).
    rewrite (plateau_end_exact (Scipy.at_ x l) (length x) (l + 1) (r + 1)).
    + rewrite (proj2 (Qc_ltb_lt _ _) Hright). left. f_equal. lia.
    + lia.
    + lia.
    + intros k Hk. split; [lia|]. apply Hflat. lia.
    + intros _ E. rewrite E in Hright. now apply Qclt_irrefl in Hright.
  - destruct (NpFloat.Qc_ltb (Scipy.at_ x (i - 1)) (Scipy.at_ x i)) eqn:El;
      [|apply IH; lia].
    pose proof (plateau_end_ge (Scipy.at_ x i) (length x) (i + 1)) as Hge.
    pose proof (plateau_end_flat (Scipy.at_ x i) (length x) (i + 1)) as Hfl.
    set (e := Scipy.plateau_end x (Scipy.at_ x i) i_max (length x) (i + 1)) in *.
    clearbody e.
    destruct (NpFloat.Qc_ltb (Scipy.at_ x e) (Scipy.at_ x i)) eqn:Er;
      [|apply IH; lia].
    assert (He : e < l).
    { destruct (Nat.lt_ge_cases e l) as [H|H]; [exact H | exfalso].
      assert (E1 : Scipy.at_ x (l - 1) = Scipy.at_ x i).
      { destruct (Nat.eq_dec (l - 1) i) as [->|Hne']; [reflexivity|].
        apply Hfl. lia. }
      rewrite E1 in Hleft.
      destruct (Nat.eq_dec e l) as [->|Hne'].
      - apply Qc_ltb_lt in Er.
        exact (Qclt_irrefl _ (Qclt_trans _ _ _ Er Hleft)).
      - rewrite (Hfl l) in Hleft by lia. now apply Qclt_irrefl in Hleft. }
    right. apply IH; lia.
Qed.

End LocalMaxima.

(** Two local maxima are never neighbours: a smaller sample lies between
    them. *)
Lemma local_maxima_1d_gap (x : list Qc) :
  StronglySorted (fun p p' => p + 2 <= p')%nat (Scipy.local_maxima_1d x).
Proof. apply local_maxima_from_spec. lia. Qed.

Lemma StronglySorted_weaken {A : Type} (R R' : A -> A -> Prop) (l : list A) :
  (forall a b, R a b -> R' a b) -> StronglySorted R l -> StronglySorted R' l.
Proof.
  intros HR. induction 1 as [|a l Hs IH Hall]; constructor; [exact IH|].
  eapply Forall_impl; [|exact Hall]. intros b. apply HR.
Qed.

Lemma local_maxima_1d_sorted (x : list Qc) :
  StronglySorted lt (Scipy.local_maxima_1d x).
Proof.
  eapply StronglySorted_weaken; [|apply local_maxima_1d_gap].
  intros a b H. cbv beta in H. unfold lt. lia.
Qed.

Lemma local_maxima_1d_flat_peak (x : list Qc) (p : nat) :
  In p (Scipy.local_maxima_1d x) -> flat_peak x p.
Proof.
  intros Hin.
  destruct (local_maxima_from_spec x (length x - 1) (length x) 1 ltac:(lia)) as [_ H].
  rewrite Forall_forall in H. now apply H.
Qed.

Lemma local_maxima_1d_middle (x : list Qc) (p : nat) :
  In p (Scipy.local_maxima_1d x) -> peak_middle x p.
Proof.
  intros Hin. destruct x as [|a x]; [elim Hin|].
  pose proof (local_maxima_from_middle (a :: x) (length (a :: x) - 1)
                (length (a :: x)) 1 ltac:(lia) ltac:(simpl; lia)) as H.
  rewrite Forall_forall in H. now apply H.
Qed.

Lemma local_maxima_1d_complete (x : list Qc) (l r : nat) :
  plateau x l r -> In ((l + r) / 2)%nat (Scipy.local_maxima_1d x).
Proof.
  intros H. pose proof H as (Hl & Hr & _).
  apply local_maxima_from_complete; [lia | exact H | lia | lia].
Qed.

Lemma plateau_middle (l r : nat) : (l <= r -> l <= (l + r) / 2 <= r)%nat.
Proof.
  intros H. split.
  - apply Nat.div_le_lower_bound; [discriminate | lia].
  - apply Nat.Div0.div_le_upper_bound. lia.
Qed.

Lemma at_opp (x : list Qc) (k : nat) :
  Scipy.at_ (map Qcopp x) k = (- Scipy.at_ x k)%Qc.
Proof.
  unfold Scipy.at_. destruct (Nat.lt_ge_cases k (length x)) as [H|H].
  - rewrite (nth_indep _ 0%Qc (- 0)%Qc) by now rewrite length_map.
    apply map_nth.
  - rewrite !nth_overflow by (try rewrite length_map; lia). ring.
Qed.

(** A sample is never the middle of a flat peak of the signal and of its
    negation. *)
Lemma flat_peak_opp (x : list Qc) (p : nat) :
  flat_peak x p -> flat_peak (map Qcopp x) p -> False.
Proof.
  intros (l & r & Hl & Hr & Hflat & Hleft & _)
         (l' & r' & Hl' & Hr' & Hflat' & Hleft' & _).
  rewrite !at_opp in Hleft'.
  assert (Hlt' : (Scipy.at_ x l' < Scipy.at_ x (l' - 1))%Qc).
  { now apply Qcopp_lt_reg. }
  destruct (Nat.lt_trichotomy l l') as [H|[H|H]].
  - (* l' - 1 and l' both lie on the flat top of x *)
    rewrite (Hflat l') in Hlt' by lia.
    rewrite (Hflat (l' - 1)%nat) in Hlt' by lia.
    now apply Qclt_irrefl in Hlt'.
  - subst l'. apply (Qclt_irrefl (Scipy.at_ x l)).
    eapply Qclt_trans; eauto.
  - assert (E1 := Hflat' l ltac:(lia)). assert (E2 := Hflat' (l - 1)%nat ltac:(lia)).
    rewrite !at_opp in E1, E2.
    assert (E : Scipy.at_ x l = Scipy.at_ x (l - 1)).
    { apply (f_equal Qcopp) in E1, E2. rewrite !Qcopp_involutive in E1, E2. congruence. }
    rewrite E in Hleft. now apply Qclt_irrefl in Hleft.
Qed.

(** * Selection by peak distance *)

Lemma sorted_nth_le (l : list nat) :
  StronglySorted lt l ->
  forall a b, (a <= b < length l -> nth a l 0 <= nth b l 0)%nat.
Proof.
  induction 1 as [|p l Hs IH Hall]; intros a b Hab; simpl in *; [lia|].
  destruct b as [|b]; destruct a as [|a]; try lia.
  - rewrite Forall_forall in Hall.
    assert (Hin : In (nth b l 0%nat) l) by (apply nth_In; lia).
    specialize (Hall _ Hin). lia.
  - apply IH. lia.
Qed.

Section Flags.
Local Open Scope nat_scope.

Lemma clear_flag_length (keep : list bool) (k : nat) :
  length (Scipy.clear_flag keep k) = length keep.
Proof.
  revert k. induction keep as [|b keep IH]; intros [|k]; simpl; auto.
Qed.

Lemma clear_flag_same (keep : list bool) (k : nat) :
  nth k (Scipy.clear_flag keep k) false = false.
Proof.
  revert k. induction keep as [|b keep IH]; intros [|k]; simpl; auto.
Qed.

Lemma clear_flag_other (keep : list bool) (k k' : nat) :
  k' <> k -> nth k' (Scipy.clear_flag keep k) false = nth k' keep false.
Proof.
  revert k k'. induction keep as [|b keep IH]; intros [|k] [|k'] H; simpl; auto;
    try (apply IH; lia); exfalso; lia.
Qed.

Lemma clear_flag_mono (keep : list bool) (k k' : nat) :
  nth k' (Scipy.clear_flag keep k) false = true -> nth k' keep false = true.
Proof.
  destruct (Nat.eq_dec k' k) as [->|Hne].
  - rewrite clear_flag_same. discriminate.
  - now rewrite clear_flag_other.
Qed.

Variable peaks : list nat.
Variable distance : Z.
Hypothesis peaks_sorted : StronglySorted lt peaks.

Lemma peaks_mono (a b : nat) :
  a <= b < length peaks -> nth a peaks 0 <= nth b peaks 0.
Proof. now apply sorted_nth_le. Qed.

Lemma flag_earlier_length (pj k1 : nat) (keep : list bool) :
  length (Scipy.flag_earlier peaks distance pj k1 keep) = length keep.
Proof.
  revert keep. induction k1 as [|k IH]; intros keep; simpl; [reflexivity|].
  destruct (_ <? _)%Z; [|reflexivity]. now rewrite IH, clear_flag_length.
Qed.

Lemma flag_earlier_mono (pj k1 k' : nat) (keep : list bool) :
  nth k' (Scipy.flag_earlier peaks distance pj k1 keep) false = true ->
  nth k' keep false = true.
Proof.
  revert keep. induction k1 as [|k IH]; intros keep; simpl; [auto|].
  destruct (_ <? _)%Z; [|auto].
  intros H. apply IH in H. now apply clear_flag_mono in H.
Qed.

Lemma flag_earlier_above (pj k1 k' : nat) (keep : list bool) :
  k1 <= k' ->
  nth k' (Scipy.flag_earlier peaks distance pj k1 keep) false = nth k' keep false.
Proof.
  revert keep. induction k1 as [|k IH]; intros keep Hk; simpl; [reflexivity|].
  destruct (_ <? _)%Z; [|reflexivity].
  rewrite IH by lia. apply clear_flag_other. lia.
Qed.

Lemma flag_earlier_clears (pj k1 k' : nat) (keep : list bool) :
  k' < k1 <= length peaks ->
  (Z.of_nat pj - Z.of_nat (nth k' peaks O) < distance)%Z ->
  nth k' (Scipy.flag_earlier peaks distance pj k1 keep) false = false.
Proof.
  revert keep. induction k1 as [|k IH]; intros keep Hk Hd; simpl; [lia|].
  destruct (Z.of_nat pj - Z.of_nat (nth k peaks O) <? distance)%Z eqn:E.
  - destruct (Nat.eq_dec k' k) as [->|Hne].
    + rewrite flag_earlier_above by lia. apply clear_flag_same.
    + apply IH; [lia | exact Hd].
  - apply Z.ltb_ge in E.
    pose proof (peaks_mono k' k ltac:(lia)). lia.
Qed.

Lemma flag_later_length (pj fuel k : nat) (keep : list bool) :
  length (Scipy.flag_later peaks distance pj fuel k keep) = length keep.
Proof.
  revert k keep. induction fuel as [|fuel IH]; intros k keep; simpl; [reflexivity|].
  destruct (_ && _); [|reflexivity]. now rewrite IH, clear_flag_length.
Qed.

Lemma flag_later_mono (pj fuel k k' : nat) (keep : list bool) :
  nth k' (Scipy.flag_later peaks distance pj fuel k keep) false = true ->
  nth k' keep false = true.
Proof.
  revert k keep. induction fuel as [|fuel IH]; intros k keep; simpl; [auto|].
  destruct (_ && _); [|auto].
  intros H. apply IH in H. now apply clear_flag_mono in H.
Qed.

Lemma flag_later_below (pj fuel k k' : nat) (keep : list bool) :
  k' < k ->
  nth k' (Scipy.flag_later peaks distance pj fuel k keep) false = nth k' keep false.
Proof.
  revert k keep. induction fuel as [|fuel IH]; intros k keep Hk; simpl; [reflexivity|].
  destruct (_ && _); [|reflexivity].
  rewrite IH by lia. apply clear_flag_other. lia.
Qed.

Lemma flag_later_clears (pj fuel k k' : nat) (keep : list bool) :
  length peaks - k <= fuel -> k <= k' < length peaks ->
  (Z.of_nat (nth k' peaks O) - Z.of_nat pj < distance)%Z ->
  nth k' (Scipy.flag_later peaks distance pj fuel k keep) false = false.
Proof.
  revert k keep. induction fuel as [|fuel IH]; intros k keep Hf Hk Hd; simpl; [lia|].
  destruct (k <? length peaks) eqn:Ek; [|apply Nat.ltb_ge in Ek; lia].
  simpl.
  destruct (Z.of_nat (nth k peaks O) - Z.of_nat pj <? distance)%Z eqn:E.
  - destruct (Nat.eq_dec k' k) as [->|Hne].
    + rewrite flag_later_below by lia. apply clear_flag_same.
    + apply IH; [lia | lia | exact Hd].
  - apply Z.ltb_ge in E.
    pose proof (peaks_mono k k' ltac:(lia)). lia.
Qed.

Lemma visit_peak_length (keep : list bool) (j : nat) :
  length (Scipy.visit_peak peaks distance keep j) = length keep.
Proof.
  unfold Scipy.visit_peak. destruct (nth j keep false); [|reflexivity].
  now rewrite flag_later_length, flag_earlier_length.
Qed.

Lemma visit_peak_mono (keep : list bool) (j k' : nat) :
  nth k' (Scipy.visit_peak peaks distance keep j) false = true ->
  nth k' keep false = true.
Proof.
  unfold Scipy.visit_peak. destruct (nth j keep false); [|auto].
  intros H. apply flag_later_mono in H. now apply flag_earlier_mono in H.
Qed.

(** A visited peak that is still kept clears every other peak closer
    than [distance]. *)
Lemma visit_peak_clears (keep : list bool) (j k' : nat) :
  nth j keep false = true -> j < length peaks -> k' < length peaks -> k' <> j ->
  (Z.abs (Z.of_nat (nth k' peaks O) - Z.of_nat (nth j peaks O)) < distance)%Z ->
  nth k' (Scipy.visit_peak peaks distance keep j) false = false.
Proof.
  intros Hj Hjn Hk Hne Hd. unfold Scipy.visit_peak. rewrite Hj.
  destruct (Nat.lt_ge_cases k' j) as [Hlt|Hge].
  - rewrite flag_later_below by lia.
    apply flag_earlier_clears; [lia | lia].
  - apply flag_later_clears; [lia | lia | lia].
Qed.

Lemma fold_visit_mono (order : list nat) (keep : list bool) (k' : nat) :
  nth k' (fold_left (Scipy.visit_peak peaks distance) order keep) false = true ->
  nth k' keep false = true.
Proof.
  revert keep. induction order as [|j order IH]; intros keep; simpl; [auto|].
  intros H. apply IH in H. now apply visit_peak_mono in H.
Qed.

Lemma fold_visit_length (order : list nat) (keep : list bool) :
  length (fold_left (Scipy.visit_peak peaks distance) order keep) = length keep.
Proof.
  revert keep. induction order as [|j order IH]; intros keep; simpl; [auto|].
  now rewrite IH, visit_peak_length.
Qed.

Lemma select_by_peak_distance_length (order : list nat) :
  length (Scipy.select_by_peak_distance peaks order distance) = length peaks.
Proof.
  unfold Scipy.select_by_peak_distance.
  now rewrite fold_visit_length, repeat_length.
Qed.

(** Two peaks that are both kept at the end are at least [distance] apart. *)
Lemma select_by_peak_distance_apart (order : list nat) (a b : nat) :
  In a order -> a < b < length peaks ->
  let keep := Scipy.select_by_peak_distance peaks order distance in
  nth a keep false = true -> nth b keep false = true ->
  (distance <= Z.of_nat (nth b peaks O) - Z.of_nat (nth a peaks O))%Z.
Proof.
  intros Hin Hab keep Ha Hb.
  destruct (Z.le_gt_cases distance
              (Z.of_nat (nth b peaks O) - Z.of_nat (nth a peaks O))) as [H|H];
    [exact H | exfalso].
  apply in_rev in Hin. apply in_split in Hin. destruct Hin as (o1 & o2 & Ho).
  unfold keep, Scipy.select_by_peak_distance in Ha, Hb.
  rewrite Ho, fold_left_app in Ha, Hb. simpl in Ha, Hb.
  apply fold_visit_mono in Ha, Hb. apply visit_peak_mono in Ha.
  rewrite visit_peak_clears in Hb; [discriminate | exact Ha | lia | lia | lia |].
  pose proof (peaks_mono a b ltac:(lia)). lia.
Qed.

Lemma flag_earlier_only (pj k1 k' : nat) (keep : list bool) :
  nth k' keep false = true ->
  nth k' (Scipy.flag_earlier peaks distance pj k1 keep) false = false ->
  k' < k1 /\ (Z.of_nat pj - Z.of_nat (nth k' peaks O) < distance)%Z.
Proof.
  revert keep. induction k1 as [|k IH]; intros keep Hk Hc; simpl in Hc; [congruence|].
  destruct (Z.of_nat pj - Z.of_nat (nth k peaks O) <? distance)%Z eqn:E; [|congruence].
  destruct (Nat.eq_dec k' k) as [->|Hne].
  - split; [lia | now apply Z.ltb_lt].
  - destruct (IH (Scipy.clear_flag keep k)) as [H1 H2];
      [now rewrite clear_flag_other | exact Hc |].
    split; [lia | exact H2].
Qed.

Lemma flag_later_only (pj fuel k k' : nat) (keep : list bool) :
  nth k' keep false = true ->
  nth k' (Scipy.flag_later peaks distance pj fuel k keep) false = false ->
  k <= k' < length peaks /\ (Z.of_nat (nth k' peaks O) - Z.of_nat pj < distance)%Z.
Proof.
  revert k keep. induction fuel as [|fuel IH]; intros k keep Hk Hc; simpl in Hc;
    [congruence|].
  destruct (k <? length peaks) eqn:Ek; simpl in Hc; [|congruence].
  destruct (Z.of_nat (nth k peaks O) - Z.of_nat pj <? distance)%Z eqn:E; [|congruence].
  apply Nat.ltb_lt in Ek.
  destruct (Nat.eq_dec k' k) as [->|Hne].
  - split; [lia | now apply Z.ltb_lt].
  - destruct (IH (S k) (Scipy.clear_flag keep k)) as [H1 H2];
      [now rewrite clear_flag_other | exact Hc |].
    split; [lia | exact H2].
Qed.

(** A round clears only peaks closer than [distance] to the visited
    peak, and only if that peak is still kept. *)
Lemma visit_peak_only (keep : list bool) (j k' : nat) :
  j < length peaks ->
  nth k' keep false = true ->
  nth k' (Scipy.visit_peak peaks distance keep j) false = false ->
  nth j keep false = true /\ k' <> j /\ k' < length peaks /\
  (Z.abs (Z.of_nat (nth k' peaks O) - Z.of_nat (nth j peaks O)) < distance)%Z.
Proof.
  intros Hj Hk Hc. unfold Scipy.visit_peak in Hc.
  destruct (nth j keep false) eqn:Ej; [|congruence].
  split; [reflexivity|].
  destruct (nth k' (Scipy.flag_earlier peaks distance (nth j peaks 0) j keep) false)
    eqn:Ee.
  - apply flag_later_only in Hc; [|exact Ee]. destruct Hc as [H1 H2].
    pose proof (peaks_mono j k' ltac:(lia)). repeat split; lia.
  - apply flag_earlier_only in Ee; [|exact Hk]. destruct Ee as [H1 H2].
    pose proof (peaks_mono k' j ltac:(lia)). repeat split; lia.
Qed.

Lemma visit_peak_self (keep : list bool) (j : nat) :
  nth j keep false = true ->
  nth j (Scipy.visit_peak peaks distance keep j) false = true.
Proof.
  intros Hj. unfold Scipy.visit_peak. rewrite Hj.
  rewrite flag_later_below by lia. now rewrite flag_earlier_above by lia.
Qed.

Variable priority : nat -> Qc.

Lemma visit_peak_state (visited todo : list nat) (j0 : nat) (keep : list bool) :
  j0 < length peaks ->
  (forall k, k < length peaks -> In k (visited ++ j0 :: todo)) ->
  (forall b, In b todo -> (priority b <= priority j0)%Qc) ->
  selection_state peaks distance priority visited keep ->
  selection_state peaks distance priority (visited ++ [j0])
    (Scipy.visit_peak peaks distance keep j0).
Proof.
  intros Hj0 Hall Hord [Ha Hb]. split.
  - intros j k Hj Hkeep Hk Hne Hd.
    pose proof (visit_peak_mono _ _ _ Hkeep) as Hkeep'.
    apply in_app_iff in Hj. destruct Hj as [Hj | [<- | []]].
    + pose proof (Ha j k Hj Hkeep' Hk Hne Hd) as Hoff.
      destruct (nth k (Scipy.visit_peak peaks distance keep j0) false) eqn:E;
        [|reflexivity].
      apply visit_peak_mono in E. congruence.
    + now apply visit_peak_clears.
  - intros k Hk Hc. destruct (nth k keep false) eqn:Ek.
    + destruct (visit_peak_only keep j0 k Hj0 Ek Hc) as (Hon & Hne & _ & Hd).
      exists j0. split; [apply in_app_iff; right; now left|].
      split; [now apply visit_peak_self|]. split; [exact Hd|].
      specialize (Hall k Hk). apply in_app_iff in Hall.
      destruct Hall as [Hin | [E | Hin]].
      * rewrite (Ha k j0 Hin Ek Hj0) in Hon; [discriminate | congruence | lia].
      * congruence.
      * now apply Hord.
    + destruct (Hb k Hk Ek) as (j & Hin & Hon & Hd & Hp).
      exists j. split; [apply in_app_iff; now left|].
      split; [|split; [exact Hd | exact Hp]].
      destruct (nth j (Scipy.visit_peak peaks distance keep j0) false) eqn:E;
        [reflexivity|].
      destruct (visit_peak_only keep j0 j Hj0 Hon E) as (Hon0 & Hne & _ & Hd').
      rewrite (Ha j j0 Hin Hon Hj0) in Hon0; [discriminate | congruence | lia].
Qed.

Lemma fold_visit_state (todo visited : list nat) (keep : list bool) :
  (forall j, In j todo -> j < length peaks) ->
  (forall k, k < length peaks -> In k (visited ++ todo)) ->
  (forall l1 a l2 b, todo = l1 ++ a :: l2 -> In b l2 ->
     (priority b <= priority a)%Qc) ->
  selection_state peaks distance priority visited keep ->
  selection_state peaks distance priority (visited ++ todo)
    (fold_left (Scipy.visit_peak peaks distance) todo keep).
Proof.
  revert visited keep.
  induction todo as [|j0 todo IH]; intros visited keep Hlt Hall Hord Hst; simpl.
  - now rewrite app_nil_r.
  - replace (visited ++ j0 :: todo) with ((visited ++ [j0]) ++ todo)
      by (now rewrite <- app_assoc).
    apply IH.
    + intros j Hj. apply Hlt. now right.
    + intros k Hk. rewrite <- app_assoc. now apply Hall.
    + intros l1 a l2 b E Hb. apply (Hord (j0 :: l1) a l2 b); [now rewrite E | exact Hb].
    + apply visit_peak_state with (todo := todo); auto.
      * apply Hlt. now left.
      * intros b Hb. now apply (Hord [] j0 todo b).
Qed.

Lemma selection_state_start :
  selection_state peaks distance priority [] (repeat true (length peaks)).
Proof.
  split.
  - intros j k [].
  - intros k Hk Hc. rewrite nth_repeat_lt in Hc by exact Hk. discriminate.
Qed.

End Flags.

(** * Boolean masks *)

Section Mask.
Local Open Scope nat_scope.

Lemma mask_in {A : Type} (d : A) (l : list A) (keep : list bool) (y : A) :
  In y (Scipy.mask l keep) ->
  exists k, k < length l /\ nth k keep false = true /\ nth k l d = y.
Proof.
  revert keep. induction l as [|x l IH]; intros [|b keep]; simpl; try tauto.
  destruct b; simpl.
  - intros [<-|H].
    + exists 0. repeat split; lia.
    + destruct (IH _ H) as (k & Hk & Hb & Hy). exists (S k). repeat split; auto; lia.
  - intros H. destruct (IH _ H) as (k & Hk & Hb & Hy). exists (S k). repeat split; auto; lia.
Qed.

Lemma mask_incl {A : Type} (l : list A) (keep : list bool) (y : A) :
  In y (Scipy.mask l keep) -> In y l.
Proof.
  revert keep. induction l as [|x l IH]; intros [|b keep]; simpl; try tauto.
  destruct b; simpl; [intros [H|H]|intros H]; eauto.
Qed.

Lemma mask_sorted {A : Type} (R : A -> A -> Prop) (l : list A) (keep : list bool) :
  StronglySorted R l -> StronglySorted R (Scipy.mask l keep).
Proof.
  intros Hs. revert keep. induction Hs as [|x l Hs IH Hall]; intros [|b keep]; simpl;
    try constructor.
  destruct b; [|apply IH].
  constructor; [apply IH|].
  rewrite Forall_forall in *. intros y Hy. apply Hall. eapply mask_incl; eauto.
Qed.

Lemma filter_sorted {A : Type} (R : A -> A -> Prop) (f : A -> bool) (l : list A) :
  StronglySorted R l -> StronglySorted R (filter f l).
Proof.
  induction 1 as [|x l Hs IH Hall]; simpl; [constructor|].
  destruct (f x); [|exact IH].
  constructor; [exact IH|].
  rewrite Forall_forall in *. intros y Hy. apply Hall.
  apply filter_In in Hy. tauto.
Qed.

Lemma mask_pairs (R : nat -> nat -> Prop) (l : list nat) (keep : list bool) :
  (forall a b, a < b < length l ->
     nth a keep false = true -> nth b keep false = true ->
     R (nth a l 0) (nth b l 0)) ->
  ForallOrdPairs R (Scipy.mask l keep).
Proof.
  revert keep. induction l as [|x l IH]; intros [|b keep] H; simpl; try constructor.
  assert (Hrest : ForallOrdPairs R (Scipy.mask l keep)).
  { apply IH. intros a c Hac Ha Hc. apply (H (S a) (S c)); simpl; auto; lia. }
  destruct b; [|exact Hrest].
  constructor; [|exact Hrest].
  rewrite Forall_forall. intros y Hy.
  destruct (mask_in 0 _ _ _ Hy) as (k & Hk & Hb & <-).
  apply (H 0 (S k)); simpl; auto; lia.
Qed.

Lemma mask_nth_in {A : Type} (d : A) (l : list A) (keep : list bool) (k : nat) :
  k < length l -> nth k keep false = true -> In (nth k l d) (Scipy.mask l keep).
Proof.
  revert keep k. induction l as [|x l IH]; intros [|b keep] [|k] Hk Hb; simpl in *;
    try lia; try discriminate.
  - subst b. now left.
  - destruct b; [right|]; apply IH; auto; lia.
Qed.

End Mask.

(** * [find_peaks] and [identify_extrema] *)

Section FindPeaks.

Lemma map_fst_combine_seq {B : Type} (l : list B) (s : nat) :
  map fst (combine (seq s (length l)) l) = seq s (length l).
Proof.
  revert s. induction l as [|x l IH]; intros s; simpl; [reflexivity|].
  now rewrite IH.
Qed.

Lemma argsort_perm (l : list Qc) : Permutation (Np.argsort l) (seq 0 (length l)).
Proof.
  unfold Np.argsort, Np.sort.
  rewrite (sorted_perm _ (combine (seq 0 (length l)) l)).
  now rewrite map_fst_combine_seq.
Qed.

Lemma argsort_in (l : list Qc) (j : nat) :
  (j < length l)%nat -> In j (Np.argsort l).
Proof.
  intros Hj. eapply Permutation_in; [symmetry; apply argsort_perm|].
  apply in_seq. lia.
Qed.

Lemma ForallOrdPairs_map {A B : Type} (f : A -> B) (R : B -> B -> Prop) (l : list A) :
  ForallOrdPairs (fun a b => R (f a) (f b)) l -> ForallOrdPairs R (map f l).
Proof.
  induction 1 as [|a l Hall _ IH]; simpl; constructor; [|exact IH].
  rewrite Forall_forall in *. intros y Hy.
  apply in_map_iff in Hy. destruct Hy as (z & <- & Hz). now apply Hall.
Qed.

Lemma strict_of_nat (l : list nat) :
  StronglySorted lt l -> StronglySorted Z.lt (map Z.of_nat l).
Proof.
  induction 1 as [|a l Hs IH Hall]; simpl; constructor; [exact IH|].
  rewrite Forall_forall in *. intros y Hy.
  apply in_map_iff in Hy. destruct Hy as (z & <- & Hz).
  specialize (Hall z Hz). lia.
Qed.

Lemma find_peaks_spec (x : list Qc) (distance : Z) (height : npfloat) (out : list nat) :
  Scipy.find_peaks x distance height = Ok out ->
  StronglySorted (fun p p' => p + 2 <= p')%nat out /\
  StronglySorted lt out /\
  separated distance (map Z.of_nat out) /\
  forall p, In p out ->
    flat_peak x p /\ NpFloat.leb height (Fin (Scipy.at_ x p)) = true.
Proof.
  unfold Scipy.find_peaks. destruct (distance <? 1)%Z; [discriminate|].
  intros H. injection H as <-.
  set (peaks := filter _ (Scipy.local_maxima_1d x)).
  assert (Hsorted : StronglySorted lt peaks).
  { apply filter_sorted, local_maxima_1d_sorted. }
  split; [apply mask_sorted, filter_sorted, local_maxima_1d_gap|].
  split; [now apply mask_sorted|]. split.
  - apply ForallOrdPairs_map, mask_pairs.
    intros a b Hab Ha Hb.
    apply (select_by_peak_distance_apart peaks distance Hsorted
             (Np.argsort (map (Scipy.at_ x) peaks)) a b); auto.
    apply argsort_in. rewrite length_map. lia.
  - intros p Hp. apply mask_incl in Hp. apply filter_In in Hp.
    destruct Hp as [Hp Hh]. split; [|exact Hh].
    now apply local_maxima_1d_flat_peak.
Qed.

Lemma find_peaks_total (x : list Qc) (distance : Z) (height : npfloat) :
  (1 <= distance)%Z -> exists out, Scipy.find_peaks x distance height = Ok out.
Proof.
  intros Hd. unfold Scipy.find_peaks.
  destruct (distance <? 1)%Z eqn:E; [apply Z.ltb_lt in E; lia|]. eauto.
Qed.

Lemma percentile_total (a : list Qc) (q : Qc) :
  (0 <= q)%Qc -> (q <= Q2Qc 100)%Qc -> a <> [] -> exists h, Np.percentile a q = Ok h.
Proof.
  intros H0 H100 Ha. unfold Np.percentile.
  apply Qc_ltb_ge in H0, H100. rewrite H0, H100. simpl.
  destruct a; [now elim Ha | eauto].
Qed.

Lemma percentile_empty (q : Qc) :
  (0 <= q)%Qc -> (q <= Q2Qc 100)%Qc -> Np.percentile [] q = Raise IndexError.
Proof.
  intros H0 H100. unfold Np.percentile.
  apply Qc_ltb_ge in H0, H100. now rewrite H0, H100.
Qed.

Lemma nan_to_num_nonempty (signal : list npfloat) :
  signal <> [] -> Np.nan_to_num signal <> [].
Proof. destruct signal; [intros H; now elim H | discriminate]. Qed.

(** What [identify_extrema] returns: the maxima and the minima are each
    increasing and separated, no sample is both, and the first component
    holds them all in increasing order. *)
Lemma identify_extrema_spec (cfg : config) (signal : list npfloat)
    (extrema maxima : list Z) :
  identify_extrema cfg signal = Ok (extrema, maxima) ->
  exists minima : list Z,
    StronglySorted (fun p p' => p + 2 <= p')%Z maxima /\
    StronglySorted Z.lt maxima /\ StronglySorted Z.lt minima /\
    separated (min_distance cfg) maxima /\ separated (min_distance cfg) minima /\
    (forall i, In i maxima -> In i minima -> False) /\
    Permutation extrema (maxima ++ minima) /\
    StronglySorted Z.lt extrema.
Proof.
  unfold identify_extrema.
  destruct (Np.percentile _ _) as [h|e]; [|discriminate]. simpl.
  destruct (Scipy.find_peaks (Np.nan_to_num signal) _ _) as [mx|e] eqn:Emx;
    [|discriminate]. simpl.
  destruct (Scipy.find_peaks (map Qcopp _) _ _) as [mn|e] eqn:Emn;
    [|discriminate]. simpl.
  intros H. injection H as <- <-.
  apply find_peaks_spec in Emx, Emn.
  destruct Emx as (Hgx & Hsx & Hdx & Hpx). destruct Emn as (_ & Hsn & Hdn & Hpn).
  assert (Hdisj : forall i, In i (map Z.of_nat mx) -> In i (map Z.of_nat mn) -> False).
  { intros i Hx Hn. apply in_map_iff in Hx, Hn.
    destruct Hx as (p & <- & Hp). destruct Hn as (p' & E & Hp').
    apply Nat2Z.inj in E. subst p'.
    apply (flat_peak_opp (Np.nan_to_num signal) p); [apply Hpx | apply Hpn]; auto. }
  exists (map Z.of_nat mn).
  split.
  { clear - Hgx. induction Hgx as [|a l Hs IH Hall]; simpl; constructor; [exact IH|].
    rewrite Forall_forall in *. intros y Hy.
    apply in_map_iff in Hy. destruct Hy as (z & <- & Hz).
    specialize (Hall z Hz). lia. }
  split; [now apply strict_of_nat|]. split; [now apply strict_of_nat|].
  split; [exact Hdx|]. split; [exact Hdn|]. split; [exact Hdisj|].
  rewrite map_app. split; [apply sorted_perm|].
  apply sorted_strict. apply NoDup_app; repeat split.
  - eapply StronglySorted_NoDup_lt. now apply strict_of_nat.
  - eapply StronglySorted_NoDup_lt. now apply strict_of_nat.
  - intros i Hx Hn. eapply Hdisj; eauto.
Qed.

Lemma identify_extrema_total (cfg : config) (signal : list npfloat) :
  (0 <= min_height_percentile cfg)%Qc -> (min_height_percentile cfg <= Q2Qc 100)%Qc ->
  (1 <= min_distance cfg)%Z -> signal <> [] ->
  exists r, identify_extrema cfg signal = Ok r.
Proof.
  intros H0 H100 Hd Hne. unfold identify_extrema.
  destruct (percentile_total (Np.nan_to_num signal) _ H0 H100
              (nan_to_num_nonempty signal Hne)) as [h ->]. simpl.
  destruct (find_peaks_total (Np.nan_to_num signal) _ h Hd) as [mx ->]. simpl.
  destruct (find_peaks_total (map Qcopp (Np.nan_to_num signal)) _ h Hd) as [mn ->].
  simpl. eauto.
Qed.

Lemma identify_extrema_empty (cfg : config) :
  (0 <= min_height_percentile cfg)%Qc -> (min_height_percentile cfg <= Q2Qc 100)%Qc ->
  identify_extrema cfg [] = Raise IndexError.
Proof.
  intros H0 H100. unfold identify_extrema. simpl.
  now rewrite (percentile_empty _ H0 H100).
Qed.

(** ** Every peak is reported or has a higher neighbour *)

Lemma insert_sorted_by (l : list (nat * Qc)) (u : nat * Qc) :
  let leb a b := NpFloat.Qc_leb (snd a) (snd b) in
  let R a b := (snd a <= snd b)%Qc in
  StronglySorted R l -> StronglySorted R (Py.insert_sorted leb u l).
Proof.
  intros leb R. induction 1 as [|y l Hs IH Hall]; simpl.
  - repeat constructor.
  - unfold leb at 1. destruct (NpFloat.Qc_leb (snd u) (snd y)) eqn:E.
    + apply Qc_leb_le in E. constructor; [now constructor|].
      constructor; [exact E|].
      eapply Forall_impl; [|exact Hall]. intros b Hb. unfold R in *.
      eapply Qcle_trans; eauto.
    + constructor; [exact IH|].
      rewrite insert_sorted_perm. constructor; [|exact Hall].
      unfold R. apply Qclt_le_weak. apply Qcnot_le_lt. intros Hle.
      apply Qc_leb_le in Hle. congruence.
Qed.

Lemma sorted_by (l : list (nat * Qc)) :
  StronglySorted (fun a b => (snd a <= snd b)%Qc)
    (Py.sorted (fun a b => NpFloat.Qc_leb (snd a) (snd b)) l).
Proof.
  induction l as [|u l IH]; simpl; [constructor|].
  now apply insert_sorted_by.
Qed.

Lemma StronglySorted_before {A : Type} (R : A -> A -> Prop) (l1 l2 : list A) (a b : A) :
  StronglySorted R (l1 ++ a :: l2) -> In b l1 -> R b a.
Proof.
  induction l1 as [|c l1 IH]; intros Hs Hb; [elim Hb|].
  simpl in Hs. inversion Hs as [|? ? Hs' Hall]; subst.
  destruct Hb as [->|Hb]; [|now apply IH].
  rewrite Forall_forall in Hall. apply Hall. apply in_app_iff. right. now left.
Qed.

Lemma in_combine_seq (l : list Qc) (s i : nat) (v : Qc) :
  In (i, v) (combine (seq s (length l)) l) -> v = nth (i - s) l 0%Qc /\ (s <= i)%nat.
Proof.
  revert s. induction l as [|y l IH]; intros s; simpl; [tauto|].
  intros [E|H].
  - injection E as <- <-. rewrite Nat.sub_diag. split; [reflexivity | lia].
  - destruct (IH _ H) as [-> Hs]. split; [|lia].
    replace (i - s)%nat with (S (i - S s)) by lia. reflexivity.
Qed.

(** [np.argsort] lists the positions by increasing value. *)
Lemma argsort_before (l : list Qc) (l1 l2 : list nat) (a b : nat) :
  Np.argsort l = l1 ++ a :: l2 -> In b l1 -> (nth b l 0 <= nth a l 0)%Qc.
Proof.
  unfold Np.argsort, Np.sort. intros E Hb.
  set (leb := fun a b : nat * Qc => NpFloat.Qc_leb (snd a) (snd b)) in *.
  set (pairs := combine (seq 0 (length l)) l) in *.
  apply map_eq_app in E. destruct E as (s1 & s2' & Es & E1 & E2).
  apply map_eq_cons in E2. destruct E2 as (u & s2 & -> & Ea & E2).
  subst l1. apply in_map_iff in Hb. destruct Hb as (v & Eb & Hv).
  assert (Hin : forall w, In w (Py.sorted leb pairs) -> snd w = nth (fst w) l 0%Qc).
  { intros [i w] Hw. eapply Permutation_in in Hw; [|apply sorted_perm].
    apply in_combine_seq in Hw. destruct Hw as [-> _]. simpl. now rewrite Nat.sub_0_r. }
  pose proof (sorted_by pairs) as Hs. fold leb in Hs. rewrite Es in Hs.
  pose proof (StronglySorted_before _ _ _ _ _ Hs Hv) as Hle. cbv beta in Hle.
  rewrite (Hin v), (Hin u) in Hle.
  - now rewrite Eb, Ea in Hle.
  - rewrite Es. apply in_app_iff. right. now left.
  - rewrite Es. apply in_app_iff. now left.
Qed.

(** A peak that [_select_by_peak_distance] drops is closer than
    [distance] to a peak that it keeps and that is at least as high. *)
Lemma select_by_peak_distance_complete (peaks : list nat) (distance : Z)
    (priority : list Qc) (k : nat) :
  StronglySorted lt peaks -> length priority = length peaks ->
  (k < length peaks)%nat ->
  let keep := Scipy.select_by_peak_distance peaks (Np.argsort priority) distance in
  nth k keep false = false ->
  exists j : nat, (j < length peaks)%nat /\ nth j keep false = true /\
    (Z.abs (Z.of_nat (nth k peaks O) - Z.of_nat (nth j peaks O)) < distance)%Z /\
    (nth k priority 0 <= nth j priority 0)%Qc.
Proof.
  intros Hsorted Hlen Hk keep Hc.
  assert (Hrange : forall j, In j (rev (Np.argsort priority)) -> (j < length peaks)%nat).
  { intros j Hj. apply in_rev in Hj.
    eapply Permutation_in in Hj; [|apply argsort_perm].
    apply in_seq in Hj. lia. }
  pose proof (fold_visit_state peaks distance Hsorted (fun i => nth i priority 0%Qc)
                (rev (Np.argsort priority)) [] (repeat true (length peaks))) as H.
  destruct H as [_ Hb].
  - exact Hrange.
  - intros i Hi. simpl. apply in_rev. rewrite rev_involutive.
    apply argsort_in. lia.
  - intros l1 a l2 b E Hb. cbv beta.
    apply (f_equal (@rev nat)) in E. rewrite rev_involutive in E.
    rewrite rev_app_distr in E. simpl in E. rewrite <- app_assoc in E. simpl in E.
    apply (argsort_before priority (rev l2) (rev l1) a b E). now apply in_rev in Hb.
  - apply selection_state_start.
  - destruct (Hb k Hk Hc) as (j & Hj & Hon & Hd & Hp).
    exists j. split; [now apply Hrange|]. split; [exact Hon|]. split; assumption.
Qed.

(** What [find_peaks] reports, and what it leaves out: every reported
    sample is the middle of a flat peak of at least the height; and every
    flat peak of at least the height has a reported sample closer than
    [distance] to its middle (the middle itself if it was kept) that is at
    least as high. *)
Lemma find_peaks_complete (x : list Qc) (distance : Z) (height : npfloat)
    (out : list nat) :
  Scipy.find_peaks x distance height = Ok out ->
  (forall p, In p out -> peak_middle x p) /\
  (forall l r, plateau x l r ->
     NpFloat.leb height (Fin (Scipy.at_ x l)) = true ->
     exists p, In p out /\
       (Z.abs (Z.of_nat p - Z.of_nat ((l + r) / 2)) < distance)%Z /\
       (Scipy.at_ x l <= Scipy.at_ x p)%Qc).
Proof.
  unfold Scipy.find_peaks. destruct (distance <? 1)%Z eqn:Ed; [discriminate|].
  apply Z.ltb_ge in Ed. intros H. injection H as <-.
  set (peaks := filter _ (Scipy.local_maxima_1d x)).
  assert (Hsorted : StronglySorted lt peaks).
  { apply filter_sorted, local_maxima_1d_sorted. }
  split.
  - intros p Hp. apply mask_incl in Hp. apply filter_In in Hp.
    now apply local_maxima_1d_middle.
  - intros l r Hpl Hh. pose proof Hpl as (Hl & Hr & Hflat & _).
    pose proof (plateau_middle l r ltac:(lia)) as Hmid.
    assert (Em : Scipy.at_ x ((l + r) / 2) = Scipy.at_ x l) by (apply Hflat; lia).
    assert (Hin : In ((l + r) / 2)%nat peaks).
    { apply filter_In. split; [now apply local_maxima_1d_complete|]. now rewrite Em. }
    apply (In_nth _ _ O) in Hin. destruct Hin as (k & Hk & Ek).
    set (keep := Scipy.select_by_peak_distance peaks
                   (Np.argsort (map (Scipy.at_ x) peaks)) distance).
    destruct (nth k keep false) eqn:Ekeep.
    + exists ((l + r) / 2)%nat. split; [|split].
      * rewrite <- Ek. now apply mask_nth_in.
      * rewrite Z.sub_diag. simpl. lia.
      * rewrite Em. apply Qcle_refl.
    + destruct (select_by_peak_distance_complete peaks distance
                  (map (Scipy.at_ x) peaks) k Hsorted (length_map _ _) Hk Ekeep)
        as (j & Hj & Hon & Hd & Hp).
      exists (nth j peaks O). split; [|split].
      * now apply mask_nth_in.
      * rewrite Ek in Hd. lia.
      * rewrite <- Em, <- Ek.
        assert (E : forall i, (i < length peaks)%nat ->
                  nth i (map (Scipy.at_ x) peaks) 0%Qc = Scipy.at_ x (nth i peaks O)).
        { intros i Hi. rewrite (nth_indep _ 0%Qc (Scipy.at_ x O))
            by (now rewrite length_map).
          apply map_nth. }
        now rewrite !E in Hp.
Qed.

End FindPeaks.

(** * Rounding the average of two indices *)

Section Rounding.
Local Open Scope Z_scope.

Lemma half_of_even (k : Z) :
  (Q2Qc (inject_Z (2 * k)) / Q2Qc 2)%Qc = Q2Qc (inject_Z k).
Proof.
  apply Qc_is_canon. unfold Qcdiv, Qcmult, Qcinv. cbn [this Q2Qc].
  rewrite !Qred_correct. unfold Qeq, inject_Z. cbn -[Z.mul]. lia.
Qed.

Lemma half_of_odd (k : Z) :
  (Q2Qc (inject_Z (2 * k + 1)) / Q2Qc 2)%Qc
  = (Q2Qc (inject_Z k) + Q2Qc (1 # 2))%Qc.
Proof.
  apply Qc_is_canon. unfold Qcdiv, Qcmult, Qcinv, Qcplus. cbn [this Q2Qc].
  rewrite !Qred_correct. unfold Qeq, inject_Z. cbn -[Z.mul Z.add]. lia.
Qed.

Lemma floor_of_Z (k : Z) : Qfloor (Q2Qc (inject_Z k)) = k.
Proof.
  cbn [this Q2Qc]. rewrite Qred_correct. apply Qfloor_Z.
Qed.

Lemma floor_of_half (k : Z) :
  Qfloor (Q2Qc (inject_Z k) + Q2Qc (1 # 2))%Qc = k.
Proof.
  unfold Qcplus. cbn [this Q2Qc]. rewrite !Qred_correct.
  unfold Qfloor, Qplus, inject_Z. cbn -[Z.mul Z.add Z.div].
  symmetry. apply (Z.div_unique _ _ _ 1); lia.
Qed.

Lemma py_round_half (s : Z) :
  py_round (Q2Qc (inject_Z s) / Q2Qc 2)%Qc = rounded_half s.
Proof.
  unfold py_round, rounded_half.
  destruct (Z.even s) eqn:E.
  - apply Z.even_spec in E. destruct E as [k ->].
    rewrite half_of_even, floor_of_Z.
    replace (Q2Qc (inject_Z k) - Q2Qc (inject_Z k))%Qc with 0%Qc by ring.
    replace (2 * k / 2) with k by (apply Z.div_unique_exact; lia).
    reflexivity.
  - assert (Ho : Z.odd s = true) by (rewrite <- Z.negb_even, E; reflexivity).
    apply Z.odd_spec in Ho. destruct Ho as [k ->].
    rewrite half_of_odd, floor_of_half.
    replace (Q2Qc (inject_Z k) + Q2Qc (1 # 2) - Q2Qc (inject_Z k))%Qc
      with (Q2Qc (1 # 2)) by ring.
    replace ((2 * k + 1) / 2) with k by (apply (Z.div_unique _ _ _ 1); lia).
    reflexivity.
Qed.

Lemma rounded_half_cases (s : Z) :
  exists k,
    (s = 2 * k /\ rounded_half s = k) \/
    (s = 4 * k + 1 /\ rounded_half s = 2 * k) \/
    (s = 4 * k + 3 /\ rounded_half s = 2 * k + 2).
Proof.
  unfold rounded_half. destruct (Z.even s) eqn:E.
  - apply Z.even_spec in E. destruct E as [k ->]. exists k. left.
    split; [reflexivity|]. symmetry. apply Z.div_unique_exact; lia.
  - assert (Ho : Z.odd s = true) by (rewrite <- Z.negb_even, E; reflexivity).
    apply Z.odd_spec in Ho. destruct Ho as [k ->].
    replace ((2 * k + 1) / 2) with k by (apply (Z.div_unique _ _ _ 1); lia).
    destruct (Z.even k) eqn:Ek.
    + apply Z.even_spec in Ek. destruct Ek as [j ->]. exists j. right. left. lia.
    + assert (Ho : Z.odd k = true) by (rewrite <- Z.negb_even, Ek; reflexivity).
      apply Z.odd_spec in Ho. destruct Ho as [j ->]. exists j. right. right. lia.
Qed.

Lemma rounded_half_mono (s t : Z) : s <= t -> rounded_half s <= rounded_half t.
Proof.
  intros H.
  destruct (rounded_half_cases s) as [k Hs], (rounded_half_cases t) as [j Ht].
  lia.
Qed.

(** Sums that differ by three or more round to different indices; sums
    that differ by two need not, as 3/2 and 5/2 both round to 2. *)
Lemma rounded_half_lt (s t : Z) : s + 3 <= t -> rounded_half s < rounded_half t.
Proof.
  intros H.
  destruct (rounded_half_cases s) as [k Hs], (rounded_half_cases t) as [j Ht].
  lia.
Qed.

Lemma rounded_half_average (m e : Z) :
  MatchingSpec.rounded_average m e (rounded_half (m + e)).
Proof.
  unfold MatchingSpec.rounded_average.
  destruct (rounded_half_cases (m + e)) as [k [[Hs ->]|[[Hs ->]|[Hs ->]]]].
  - left. lia.
  - right. split; [lia|]. rewrite Z.even_mul. reflexivity.
  - right. split; [lia|].
    replace (2 * k + 2) with (2 * (k + 1)) by lia. rewrite Z.even_mul. reflexivity.
Qed.

End Rounding.

(** * The matching loop *)

Section Matching.
Local Open Scope Z_scope.
Import MatchingSpec.

Variable threshold : Z.

Let close (m e : Z) : bool := Z.abs (m - e) <=? threshold.

Lemma close_within (m e : Z) : close m e = true <-> within threshold m e.
Proof. unfold close, within. apply Z.leb_le. Qed.

Lemma filter_first {A : Type} (f : A -> bool) (l : list A) (c : A) (rest : list A) :
  filter f l = c :: rest ->
  exists before after,
    l = before ++ c :: after /\ f c = true /\ forall e, In e before -> f e = false.
Proof.
  induction l as [|x l IH]; simpl; [discriminate|].
  destruct (f x) eqn:E.
  - intros H. injection H as -> _. exists [], l. repeat split; auto.
    intros e [].
  - intros H. destruct (IH H) as (before & after & -> & Hc & Hb).
    exists (x :: before), after. repeat split; auto.
    intros e [<-|He]; auto.
Qed.

Lemma filter_none {A : Type} (f : A -> bool) (l : list A) :
  filter f l = [] -> forall e, In e l -> f e = false.
Proof.
  induction l as [|x l IH]; simpl; [tauto|].
  destruct (f x) eqn:E; [discriminate|].
  intros H e [<-|He]; auto.
Qed.

Lemma list_remove_first (c : Z) (before after : list Z) :
  ~ In c before ->
  Py.list_remove c (before ++ c :: after) = Ok (before ++ after).
Proof.
  induction before as [|x before IH]; intros Hn; simpl.
  - now rewrite Z.eqb_refl.
  - destruct (Z.eqb_spec x c) as [->|Hne]; [exfalso; apply Hn; now left|].
    rewrite IH; [reflexivity|]. intros H. apply Hn. now right.
Qed.

(** One round of the loop either leaves the state alone, when no entry
    is within the threshold, or pairs the peak with the first such entry. *)
Lemma match_step_cases (gated extrema : list Z) (m : Z) :
  (match_step threshold (gated, extrema) m = Ok (gated, extrema) /\
   forall e, In e extrema -> ~ within threshold m e)
  \/
  (exists before c after,
     extrema = before ++ c :: after /\
     (forall e, In e before -> ~ within threshold m e) /\
     within threshold m c /\
     match_step threshold (gated, extrema) m
     = Ok (gated ++ [rounded_half (m + c)], before ++ after)).
Proof.
  unfold match_step. fold (close m).
  destruct (filter (close m) extrema) as [|c rest] eqn:E.
  - left. split; [reflexivity|]. intros e He Hw.
    apply close_within in Hw. now rewrite (filter_none _ _ E e He) in Hw.
  - right. destruct (filter_first _ _ _ _ E) as (before & after & -> & Hc & Hb).
    exists before, c, after. split; [reflexivity|].
    assert (Hfar : forall e, In e before -> ~ within threshold m e).
    { intros e He Hw. apply close_within in Hw. now rewrite (Hb e He) in Hw. }
    split; [exact Hfar|]. split; [now apply close_within|].
    rewrite list_remove_first, py_round_half; [reflexivity|].
    intros Hin. apply (Hfar c Hin). now apply close_within.
Qed.

(** The loop never raises, and what it computes is the greedy matching. *)
Lemma match_peaks_matching (maxima gated extrema : list Z) :
  exists pairs remaining,
    greedy_matching threshold maxima extrema pairs remaining /\
    match_peaks threshold maxima (gated, extrema)
    = Ok (gated ++ map (fun p => rounded_half (fst p + snd p)) pairs, remaining).
Proof.
  revert gated extrema. induction maxima as [|m maxima IH]; intros gated extrema.
  - exists [], extrema. split; [constructor|]. simpl. now rewrite app_nil_r.
  - destruct (match_step_cases gated extrema m)
      as [[Hstep Hfar]|(before & c & after & -> & Hfar & Hc & Hstep)].
    + destruct (IH gated extrema) as (pairs & remaining & Hm & Hrun).
      exists pairs, remaining. split; [now constructor|].
      cbn [match_peaks]. rewrite Hstep. exact Hrun.
    + destruct (IH (gated ++ [rounded_half (m + c)]) (before ++ after))
        as (pairs & remaining & Hm & Hrun).
      exists ((m, c) :: pairs), remaining. split; [now constructor|].
      cbn [match_peaks]. rewrite Hstep. cbn [bind]. rewrite Hrun.
      simpl. now rewrite <- app_assoc.
Qed.

(** In a greedy matching every extremum is used at most once and every
    pair keeps the order of the maxima. *)
Lemma greedy_matching_perm (maxima extrema : list Z) (pairs : list (Z * Z))
    (remaining : list Z) :
  greedy_matching threshold maxima extrema pairs remaining ->
  Permutation (map snd pairs ++ remaining) extrema.
Proof.
  induction 1 as [extrema | m maxima extrema pairs remaining _ _ IH
                  | m maxima before c after pairs remaining _ _ _ IH]; simpl.
  - reflexivity.
  - exact IH.
  - rewrite IH. apply Permutation_middle.
Qed.

Lemma greedy_matching_length (maxima extrema : list Z) (pairs : list (Z * Z))
    (remaining : list Z) :
  greedy_matching threshold maxima extrema pairs remaining ->
  (length pairs <= length maxima)%nat /\
  (length pairs + length remaining = length extrema)%nat.
Proof.
  induction 1 as [extrema | m maxima extrema pairs remaining _ _ IH
                  | m maxima before c after pairs remaining _ _ _ IH]; simpl.
  - lia.
  - lia.
  - rewrite length_app in *. simpl. lia.
Qed.

Lemma greedy_matching_members (maxima extrema : list Z)
    (pairs : list (Z * Z)) (remaining : list Z) :
  greedy_matching threshold maxima extrema pairs remaining ->
  forall p, In p pairs -> In (fst p) maxima /\ In (snd p) extrema.
Proof.
  induction 1 as [extrema | m maxima extrema pairs remaining _ _ IH
                  | m maxima before c after pairs remaining _ _ _ IH];
    intros p Hp; simpl in *.
  - destruct Hp.
  - destruct (IH p Hp). auto.
  - destruct Hp as [<-|Hp]; simpl.
    + split; [now left | apply in_elt].
    + destruct (IH p Hp) as [H1 H2]. split; [now right|].
      apply in_app_or in H2. apply in_or_app. simpl. tauto.
Qed.

Lemma greedy_matching_within (maxima extrema : list Z) (pairs : list (Z * Z))
    (remaining : list Z) :
  greedy_matching threshold maxima extrema pairs remaining ->
  forall p, In p pairs -> within threshold (fst p) (snd p).
Proof.
  induction 1 as [extrema | m maxima extrema pairs remaining _ _ IH
                  | m maxima before c after pairs remaining _ Hc _ IH];
    intros p Hp; simpl in *.
  - destruct Hp.
  - now apply IH.
  - destruct Hp as [<-|Hp]; [exact Hc | now apply IH].
Qed.

Lemma strict_app_inv (before after : list Z) (c : Z) :
  StronglySorted Z.lt (before ++ c :: after) ->
  StronglySorted Z.lt (before ++ after) /\
  (forall e, In e before -> e < c) /\ (forall e, In e after -> c < e).
Proof.
  induction before as [|x before IH]; simpl; intros H.
  - inversion H as [|? ? Hs Hall]; subst. rewrite Forall_forall in Hall.
    repeat split; auto. intros e [].
  - inversion H as [|? ? Hs Hall]; subst.
    destruct (IH Hs) as (Hs' & Hb & Ha). rewrite Forall_forall in Hall.
    repeat split.
    + constructor; [exact Hs'|]. rewrite Forall_forall. intros e He.
      apply Hall. apply in_app_or in He. apply in_or_app. simpl. tauto.
    + intros e [<-|He]; [|now apply Hb]. apply Hall. apply in_elt.
    + exact Ha.
Qed.

(** With increasing maxima and increasing extrema, the pairs of a greedy
    matching increase in both components: an extremum passed over by one
    maximum is too far below every later maximum. *)
Lemma greedy_matching_ordered (delta : Z) (maxima extrema : list Z)
    (pairs : list (Z * Z)) (remaining : list Z) :
  0 < delta ->
  greedy_matching threshold maxima extrema pairs remaining ->
  StronglySorted (fun a b => a + delta <= b) maxima ->
  StronglySorted Z.lt extrema ->
  StronglySorted (fun p q => fst p + delta <= fst q /\ snd p + 1 <= snd q) pairs.
Proof.
  intros Hdelta.
  induction 1 as [extrema | m maxima extrema pairs remaining _ _ IH
                  | m maxima before c after pairs remaining Hfar Hc Hm IH];
    intros HM HE.
  - constructor.
  - inversion HM; subst. now apply IH.
  - inversion HM as [|? ? HM' Hall]; subst.
    destruct (strict_app_inv _ _ _ HE) as (HE' & Hbefore & Hafter).
    constructor; [now apply IH|].
    rewrite Forall_forall in *. intros q Hq.
    destruct (greedy_matching_members _ _ _ _ Hm q Hq) as [Hq1 Hq2].
    pose proof (greedy_matching_within _ _ _ _ Hm q Hq) as Hw.
    specialize (Hall _ Hq1). simpl. split; [exact Hall|].
    apply in_app_or in Hq2. destruct Hq2 as [Hb|Ha].
    + exfalso. specialize (Hfar _ Hb). specialize (Hbefore _ Hb).
      unfold within in *. lia.
    + specialize (Hafter _ Ha). lia.
Qed.

(** When the maxima are at least two apart, the gated indices increase
    strictly. *)
Lemma gated_increasing (maxima extrema : list Z) (pairs : list (Z * Z))
    (remaining : list Z) :
  greedy_matching threshold maxima extrema pairs remaining ->
  StronglySorted (fun a b => a + 2 <= b) maxima ->
  StronglySorted Z.lt extrema ->
  StronglySorted Z.lt (map (fun p => rounded_half (fst p + snd p)) pairs).
Proof.
  intros Hm HM HE.
  pose proof (greedy_matching_ordered 2 _ _ _ _ ltac:(lia) Hm HM HE) as H.
  clear Hm HM HE.
  induction H as [|p pairs Hs IH Hall]; simpl; constructor.
  - exact IH.
  - rewrite Forall_forall in *. intros g Hg.
    apply in_map_iff in Hg. destruct Hg as (q & <- & Hq).
    apply rounded_half_lt. specialize (Hall q Hq). lia.
Qed.

End Matching.

(** * Comparison of numpy scalars *)


(** * Slices with step two *)

Section EverySecond.
Context {A : Type}.

Lemma every_second_nth (l : list A) (k : nat) :
  nth_error (Py.every_second l) k = nth_error l (2 * k).
Proof.
  revert l. induction k as [|k IH]; intros l.
  - destruct l; reflexivity.
  - replace (2 * S k)%nat with (S (S (2 * k))) by lia.
    destruct l as [|x [|y l]]; cbn [Py.every_second nth_error].
    + reflexivity.
    + now destruct k.
    + apply IH.
Qed.

Lemma every_second_tail_nth (l : list A) (k : nat) :
  nth_error (Py.every_second (skipn 1 l)) k = nth_error l (2 * k + 1).
Proof.
  rewrite every_second_nth. replace (2 * k + 1)%nat with (S (2 * k)) by lia.
  destruct l as [|x l]; cbn [skipn nth_error]; [|reflexivity].
  now destruct (2 * k)%nat.
Qed.

Lemma every_second_split (l : list A) (x : A) :
  In x l <-> In x (Py.every_second l) \/ In x (Py.every_second (skipn 1 l)).
Proof.
  enough (H : forall n (l : list A), (length l <= n)%nat ->
            (In x l <-> In x (Py.every_second l) \/ In x (Py.every_second (skipn 1 l))))
    by (apply (H (length l)); lia).
  clear l. induction n as [|n IH]; intros l Hl.
  - destruct l; simpl in *; [tauto | lia].
  - destruct l as [|a [|b l]]; simpl in *; try tauto.
    specialize (IH l ltac:(lia)).
    destruct l as [|c l']; simpl in *; tauto.
Qed.

End EverySecond.

(** * Writing phase labels *)

Section Stamping.
Local Open Scope Z_scope.

Lemma replace_nth_length {A : Type} (l : list A) (n : nat) (v : A) :
  length (Py.replace_nth l n v) = length l.
Proof.
  revert n. induction l as [|x l IH]; intros [|n]; simpl; auto.
Qed.

Lemma replace_nth_nth {A : Type} (l : list A) (n i : nat) (v d : A) :
  (n < length l)%nat ->
  nth i (Py.replace_nth l n v) d = if (i =? n)%nat then v else nth i l d.
Proof.
  revert n i. induction l as [|x l IH]; intros [|n] [|i] H; simpl in *;
    try lia; auto.
  apply IH. lia.
Qed.

Lemma setitem_nonneg {A : Type} (l l' : list A) (f : Z) (v : A) :
  0 <= f -> Py.setitem l f v = Ok l' ->
  f < Z.of_nat (length l) /\ l' = Py.replace_nth l (Z.to_nat f) v.
Proof.
  intros Hf. unfold Py.setitem.
  destruct (f <? 0) eqn:E; [apply Z.ltb_lt in E; lia|].
  destruct (0 <=? f); simpl; [|discriminate].
  destruct (f <? Z.of_nat (length l)) eqn:E'; [|discriminate].
  apply Z.ltb_lt in E'. intros H. injection H as <-. auto.
Qed.

Lemma stamp_phases_spec (label : string) (frames : list Z) (w w' : window) :
  Forall (fun f => 0 <= f) frames ->
  stamp_phases label frames w = (Ok tt, w') ->
  gated_frames_dia w' = gated_frames_dia w /\
  gated_frames_sys w' = gated_frames_sys w /\
  log w' = log w /\
  length (phases w') = length (phases w) /\
  Forall (fun f => f < Z.of_nat (length (phases w))) frames /\
  forall i, (i < length (phases w))%nat ->
    nth i (phases w') ""%string = stamped label frames (nth i (phases w) ""%string) i.
Proof.
  intros Hpos. revert w. induction Hpos as [|f frames Hf _ IH]; intros w; simpl.
  - unfold ret. intros H. injection H as <-. repeat split; auto.
  - unfold bindM, set_phase.
    destruct (Py.setitem (phases w) f label) as [p|e] eqn:E; [|discriminate].
    intros H. apply IH in H. simpl in H.
    destruct (setitem_nonneg _ _ _ _ Hf E) as [Hlt ->].
    rewrite replace_nth_length in H.
    destruct H as (Hd & Hs & Hl & Hlen & Hall & Hnth).
    repeat split; auto.
    intros i Hi. rewrite (Hnth i Hi). unfold stamped. simpl.
    rewrite replace_nth_nth by lia.
    destruct (Z.eqb_spec (Z.of_nat i) f) as [<-|Hne]; simpl.
    + rewrite Nat2Z.id, Nat.eqb_refl. now destruct (existsb _ frames).
    + destruct (Nat.eqb_spec i (Z.to_nat f)) as [->|_]; [lia | reflexivity].
Qed.


End Stamping.

(** * Gated indices are frame positions *)

Section GatedNonneg.
Local Open Scope Z_scope.
Import MatchingSpec.

Lemma rounded_half_nonneg (s : Z) : 0 <= s -> 0 <= rounded_half s.
Proof.
  intros H. destruct (rounded_half_cases s) as [k Hk]. lia.
Qed.

Lemma identify_extrema_nonneg (cfg : config) (signal : list npfloat)
    (extrema maxima : list Z) :
  identify_extrema cfg signal = Ok (extrema, maxima) ->
  (forall i, In i extrema -> 0 <= i) /\ (forall i, In i maxima -> 0 <= i).
Proof.
  unfold identify_extrema.
  destruct (Np.percentile _ _) as [h|e]; [|discriminate]. simpl.
  destruct (Scipy.find_peaks (Np.nan_to_num signal) _ _) as [mx|e]; [|discriminate].
  simpl.
  destruct (Scipy.find_peaks (map Qcopp _) _ _) as [mn|e]; [|discriminate]. simpl.
  intros H. injection H as <- <-. split; intros i Hi.
  - apply (Permutation_in _ (sorted_perm _ _)) in Hi.
    apply in_map_iff in Hi. destruct Hi as (n & <- & _). lia.
  - apply in_map_iff in Hi. destruct Hi as (n & <- & _). lia.
Qed.

Lemma gated_indices_nonneg (cfg : config) (maxima_signal extrema_signal : list npfloat)
    (gated : list Z) :
  gated_indices cfg maxima_signal extrema_signal = Ok gated ->
  Forall (fun f => 0 <= f) gated.
Proof.
  unfold gated_indices.
  destruct (identify_extrema cfg maxima_signal) as [[ext1 mx1]|e] eqn:E1; [|discriminate].
  destruct (identify_extrema cfg extrema_signal) as [[ext2 mx2]|e] eqn:E2; [|discriminate].
  cbn [bind fst snd].
  apply identify_extrema_nonneg in E1, E2.
  set (maxima := if both_extrema cfg then ext1 else mx1).
  assert (Hmax : forall i, In i maxima -> 0 <= i).
  { unfold maxima. destruct (both_extrema cfg); tauto. }
  destruct (match_peaks_matching (auto_gating_threshold cfg) maxima [] ext2)
    as (pairs & remaining & Hm & ->).
  cbn [bind fst app]. intros H. injection H as <-.
  rewrite Forall_forall. intros g Hg.
  apply in_map_iff in Hg. destruct Hg as (p & <- & Hp).
  destruct (greedy_matching_members _ _ _ _ _ Hm p Hp) as [H1 H2].
  apply rounded_half_nonneg.
  specialize (Hmax _ H1). destruct E2 as [E2 _]. specialize (E2 _ H2). lia.
Qed.

End GatedNonneg.

(** * The phase assignment *)

Section AssignPhases.
Local Open Scope Z_scope.




Lemma every_second_nonneg (l : list Z) :
  Forall (fun f => 0 <= f) l ->
  Forall (fun f => 0 <= f) (Py.every_second l) /\
  Forall (fun f => 0 <= f) (Py.every_second (skipn 1 l)).
Proof.
  intros H. rewrite !Forall_forall in *.
  split; intros f Hf; apply H; apply every_second_split; auto.
Qed.

Lemma assign_phases_spec (report_data : list report_row) (gated : list Z)
    (w w' : window) :
  Forall (fun f => 0 <= f) gated ->
  assign_phases report_data gated w = (Ok tt, w') ->
  let first_half := Py.every_second gated in
  let second_half := Py.every_second (skipn 1 gated) in
  exists areas_first areas_second,
    Py.map_result (lumen_area_of report_data) first_half = Ok areas_first /\
    Py.map_result (lumen_area_of report_data) second_half = Ok areas_second /\
    (gated_frames_dia w', gated_frames_sys w')
    = (if NpFloat.gtb (py_sum areas_first) (py_sum areas_second)
       then (first_half, second_half) else (second_half, first_half)) /\
    log w' = log w /\
    length (phases w') = length (phases w) /\
    Forall (fun f => f < Z.of_nat (length (phases w))) gated /\
    forall i, (i < length (phases w))%nat ->
      nth i (phases w') ""%string
      = stamped "S" (gated_frames_sys w')
          (stamped "D" (gated_frames_dia w') (nth i (phases w) ""%string) i) i.
Proof.
  intros Hpos. cbv zeta. unfold assign_phases.
  destruct (every_second_nonneg gated Hpos) as [Hp1 Hp2].
  set (first_half := Py.every_second gated) in *.
  set (second_half := Py.every_second (skipn 1 gated)) in *.
  unfold bindM at 1. unfold lift at 1.
  destruct (Py.map_result (lumen_area_of report_data) first_half) as [a1|e];
    [|discriminate].
  unfold bindM at 1. unfold lift at 1.
  destruct (Py.map_result (lumen_area_of report_data) second_half) as [a2|e];
    [|discriminate].
  intros H. exists a1, a2. split; [reflexivity|]. split; [reflexivity|].
  assert (Hgen : forall dia sys,
    Forall (fun f => 0 <= f) dia -> Forall (fun f => 0 <= f) sys ->
    (w1 <~ get ;; stamp_phases "D" (gated_frames_dia w1) ;;;
     w2 <~ get ;; stamp_phases "S" (gated_frames_sys w2))
      (mkWindow dia sys (phases w) (log w)) = (Ok tt, w') ->
    (gated_frames_dia w', gated_frames_sys w') = (dia, sys) /\
    log w' = log w /\ length (phases w') = length (phases w) /\
    Forall (fun f => f < Z.of_nat (length (phases w))) dia /\
    Forall (fun f => f < Z.of_nat (length (phases w))) sys /\
    forall i, (i < length (phases w))%nat ->
      nth i (phases w') ""%string
      = stamped "S" sys (stamped "D" dia (nth i (phases w) ""%string) i) i).
  { intros dia sys Hd Hs. unfold bindM at 1, get at 1. cbn [gated_frames_dia].
    unfold bindM at 1.
    destruct (stamp_phases "D" dia _) as [[[]|e] w1] eqn:E1; [|discriminate].
    apply stamp_phases_spec in E1; [|exact Hd]. cbn in E1.
    destruct E1 as (Hd1 & Hs1 & Hl1 & Hlen1 & Hall1 & Hn1).
    unfold bindM at 1, get at 1. rewrite Hs1.
    intros E2. apply stamp_phases_spec in E2; [|exact Hs].
    destruct E2 as (Hd2 & Hs2 & Hl2 & Hlen2 & Hall2 & Hn2).
    rewrite Hd2, Hs2, Hd1, Hs1, Hl2, Hl1, Hlen2, Hlen1.
    rewrite Hlen1 in Hall2, Hn2.
    repeat split; auto.
    intros i Hi. rewrite (Hn2 i Hi), (Hn1 i Hi). reflexivity. }
  assert (Hcover : forall P : Z -> Prop,
            Forall P first_half -> Forall P second_half -> Forall P gated).
  { intros P H1 H2. rewrite Forall_forall in *. intros f Hf.
    apply every_second_split in Hf. destruct Hf; auto. }
  destruct (NpFloat.gtb (py_sum a1) (py_sum a2)).
  - unfold bindM at 1 2 in H. cbn in H.
    apply Hgen in H; auto.
    destruct H as (E & Hl & Hlen & H1 & H2 & Hn). injection E as Ed Es.
    rewrite Ed, Es. repeat split; auto.
  - unfold bindM at 1 2 in H. cbn in H.
    apply Hgen in H; auto.
    destruct H as (E & Hl & Hlen & H1 & H2 & Hn). injection E as Ed Es.
    rewrite Ed, Es. repeat split; auto.
Qed.

Lemma automatic_gating_run (cfg : config) (report_data : list report_row)
    (maxima_signal extrema_signal : list npfloat) (w : window) :
  let message :=
    (if both_extrema cfg
     then "Extrema peak detection according to config.yaml"
     else "Maxima peak detection according to config.yaml")%string in
  let logged :=
    mkWindow (gated_frames_dia w) (gated_frames_sys w) (phases w) (log w ++ [message]) in
  automatic_gating cfg report_data maxima_signal extrema_signal w
  = match gated_indices cfg maxima_signal extrema_signal with
    | Ok gated => assign_phases report_data gated logged
    | Raise e => (Raise e, logged)
    end.
Proof.
  cbv zeta. unfold automatic_gating, bindM, logger_info, lift.
  destruct (gated_indices cfg maxima_signal extrema_signal); reflexivity.
Qed.

End AssignPhases.

(** * The log and the guard of [plot_data] *)

Section PlotData.

Lemma stamp_phases_log (label : string) (frames : list Z) (w : window) :
  log (snd (stamp_phases label frames w)) = log w.
Proof.
  revert w. induction frames as [|f frames IH]; intros w; simpl; [reflexivity|].
  unfold bindM, set_phase.
  destruct (Py.setitem (phases w) f label); [|reflexivity].
  rewrite IH. reflexivity.
Qed.

Lemma bindM_log {A B : Type} (m : M A) (k : A -> M B) (w : window) (l : list string) :
  log (snd (m w)) = l ->
  (forall a w1, log w1 = l -> log (snd (k a w1)) = l) ->
  log (snd (bindM m k w)) = l.
Proof.
  intros Hm Hk. unfold bindM. destruct (m w) as [[a|e] w1]; simpl in *; auto.
Qed.

Lemma assign_phases_log (report_data : list report_row) (gated : list Z) (w : window) :
  log (snd (assign_phases report_data gated w)) = log w.
Proof.
  unfold assign_phases.
  apply bindM_log; [reflexivity|]. intros a1 w1 H1.
  apply bindM_log; [exact H1|]. intros a2 w2 H2.
  apply bindM_log.
  { destruct (NpFloat.gtb _ _); (apply bindM_log; [exact H2|]);
      intros; simpl; congruence. }
  intros _ w3 H3. apply bindM_log; [exact H3|]. intros w4 w4' H4.
  apply bindM_log; [now rewrite stamp_phases_log|]. intros _ w5 H5.
  apply bindM_log; [exact H5|]. intros w6 w6' H6.
  now rewrite stamp_phases_log.
Qed.

(** Every call of [automatic_gating] leaves one more message in the log,
    whether it returns or raises. *)
Lemma automatic_gating_log (cfg : config) (report_data : list report_row)
    (maxima_signal extrema_signal : list npfloat) (w : window) :
  exists message,
    log (snd (automatic_gating cfg report_data maxima_signal extrema_signal w))
    = log w ++ [message].
Proof.
  rewrite automatic_gating_run. eexists.
  destruct (gated_indices cfg maxima_signal extrema_signal) as [gated|e];
    [|reflexivity].
  rewrite assign_phases_log. reflexivity.
Qed.

Lemma scale_composites_length (signal_maxima signal_extrema : list npfloat) :
  length (fst (scale_composites signal_maxima signal_extrema)) = length signal_maxima /\
  length (snd (scale_composites signal_maxima signal_extrema)) = length signal_extrema.
Proof.
  unfold scale_composites. destruct (NpFloat.ltb _ _); simpl;
    unfold Np.mul_scalar; rewrite length_map; auto.
Qed.

Lemma np_max_nonempty (l : list npfloat) : l <> [] -> exists v, Np.max l = Ok v.
Proof. destruct l; [congruence|]. simpl. eauto. Qed.

Lemma np_min_nonempty (l : list npfloat) : l <> [] -> exists v, Np.min l = Ok v.
Proof. destruct l; [congruence|]. simpl. eauto. Qed.

Lemma length_nonempty {A : Type} (l l' : list A) :
  length l = length l' -> l' <> [] -> l <> [].
Proof. destruct l, l'; simpl; congruence. Qed.

Lemma iadd_length (combined term out : list npfloat) :
  iadd combined term = Ok out -> length out = length combined.
Proof.
  unfold iadd. destruct (length term =? length combined)%nat eqn:E.
  - apply Nat.eqb_eq in E. intros H. injection H as <-.
    rewrite length_map, length_combine. lia.
  - destruct term as [|x [|? ?]]; try discriminate.
    intros H. injection H as <-. unfold Np.add_scalar. apply length_map.
Qed.

Lemma accumulate_length (weights : list npfloat) (signals : list (list npfloat))
    (i : nat) (combined out : list npfloat) :
  accumulate weights i signals combined = Ok out -> length out = length combined.
Proof.
  revert i combined. induction signals as [|s signals IH]; intros i combined; simpl.
  - intros H. now injection H as <-.
  - destruct (nth_error weights i) as [w|]; [|discriminate].
    destruct (iadd combined (Np.mul_scalar s w)) as [c|e] eqn:E; [|discriminate].
    simpl. intros H. apply IH in H. apply iadd_length in E. congruence.
Qed.

(** The two curves that [combined_signal] returns are never empty: an
    empty signal makes the smoothing raise. *)
Lemma combined_signal_nonempty (np_std : list Z -> npfloat) (cfg : config)
    (signal_list signal_list_nor : list (list npfloat)) (maxima_only : bool)
    (combined combined_nor : list npfloat) :
  combined_signal np_std cfg signal_list maxima_only signal_list_nor
  = Ok (combined, combined_nor) ->
  combined <> [] /\ combined_nor <> [].
Proof.
  unfold combined_signal, signal_variability.
  destruct signal_list as [|first rest].
  { simpl. discriminate. }
  cbn [Py.map_result].
  destruct (smooth_curve cfg first) as [sm|e] eqn:Es; [|discriminate].
  assert (Hfirst : (0 < length first)%nat).
  { unfold smooth_curve in Es. destruct (window_size cfg <=? 0)%Z; [discriminate|].
    destruct first; [discriminate | simpl; lia]. }
  cbn [bind].
  destruct (Py.map_result (smooth_curve cfg) rest) as [sms|e]; [|discriminate].
  cbn [bind].
  destruct (Py.map_result _ (sm :: sms)) as [ext|e]; [|discriminate].
  cbn [bind].
  destruct (accumulate _ 0 (first :: rest) _) as [c|e] eqn:E1; [|discriminate].
  cbn [bind].
  destruct (accumulate _ 0 signal_list_nor _) as [c'|e] eqn:E2; [|discriminate].
  cbn [bind]. intros H. injection H as <- <-.
  apply accumulate_length in E1, E2. rewrite repeat_length in E1, E2.
  split; intros ->; simpl in *; lia.
Qed.

(** The rest of [plot_data] once the two curves [from_max] and
    [from_extrema] are there. *)
Lemma plot_data_run (np_std : list Z -> npfloat) (cfg : config)
    (report_data : list report_row)
    (signal_list_max signal_list_max_nor : list (list npfloat))
    (signal_list_extrema signal_list_extrema_nor : list (list npfloat))
    (signal_maxima signal_maxima_nor signal_extrema signal_extrema_nor : list npfloat)
    (w : window) :
  combined_signal np_std cfg signal_list_max true signal_list_max_nor
  = Ok (signal_maxima, signal_maxima_nor) ->
  combined_signal np_std cfg signal_list_extrema false signal_list_extrema_nor
  = Ok (signal_extrema, signal_extrema_nor) ->
  plot_data np_std cfg report_data signal_list_max signal_list_max_nor
            signal_list_extrema signal_list_extrema_nor w
  = match gated_frames_dia w, gated_frames_sys w with
    | [], [] =>
        let scaled := scale_composites signal_maxima signal_extrema in
        match automatic_gating cfg report_data (fst scaled) (snd scaled) w with
        | (Ok _, w') => (Ok true, w')
        | (Raise e, w') => (Raise e, w')
        end
    | _, _ => (Ok true, w)
    end.
Proof.
  intros Hmax Hext. unfold plot_data. rewrite Hmax, Hext.
  destruct (combined_signal_nonempty _ _ _ _ _ _ _ Hmax) as [H1 H2].
  destruct (combined_signal_nonempty _ _ _ _ _ _ _ Hext) as [H3 H4].
  unfold bindM at 1. unfold lift at 1. unfold bindM at 1. unfold lift at 1.
  destruct (scale_composites_length signal_maxima signal_extrema) as [L1 L2].
  destruct (scale_composites signal_maxima signal_extrema) as [sm se].
  simpl in L1, L2.
  destruct (np_max_nonempty sm (length_nonempty _ _ L1 H1)) as [v1 E1].
  destruct (np_max_nonempty se (length_nonempty _ _ L2 H3)) as [v2 E2].
  destruct (np_min_nonempty sm (length_nonempty _ _ L1 H1)) as [v3 E3].
  destruct (np_min_nonempty se (length_nonempty _ _ L2 H3)) as [v4 E4].
  destruct (np_max_nonempty _ H2) as [v5 E5].
  destruct (np_max_nonempty _ H4) as [v6 E6].
  destruct (np_min_nonempty _ H2) as [v7 E7].
  destruct (np_min_nonempty _ H4) as [v8 E8].
  rewrite E1, E2, E3, E4, E5, E6, E7, E8.
  unfold bindM, lift, get, ret. cbn [fst snd].
  destruct (gated_frames_dia w), (gated_frames_sys w); reflexivity.
Qed.

End PlotData.

(** * Maxima-only detection keeps the two sets apart *)

Section MaximaOnly.
Local Open Scope Z_scope.

Lemma every_second_disjoint {A : Type} (l : list A) (x : A) :
  NoDup l -> In x (Py.every_second l) -> In x (Py.every_second (skipn 1 l)) -> False.
Proof.
  intros Hnd H1 H2.
  apply In_nth_error in H1, H2. destruct H1 as [k Hk], H2 as [k' Hk'].
  rewrite every_second_nth in Hk. rewrite every_second_tail_nth in Hk'.
  assert (Hlt : (2 * k < length l)%nat).
  { apply nth_error_Some. congruence. }
  pose proof (proj1 (NoDup_nth_error l) Hnd (2 * k)%nat (2 * k' + 1)%nat Hlt) as H.
  rewrite Hk, Hk' in H. specialize (H eq_refl). lia.
Qed.

Lemma gated_indices_maxima_only (cfg : config) (maxima_signal extrema_signal : list npfloat)
    (gated : list Z) :
  both_extrema cfg = false ->
  gated_indices cfg maxima_signal extrema_signal = Ok gated ->
  StronglySorted Z.lt gated.
Proof.
  intros Hmode. unfold gated_indices. rewrite Hmode.
  destruct (identify_extrema cfg maxima_signal) as [[ext1 mx1]|e] eqn:E1; [|discriminate].
  destruct (identify_extrema cfg extrema_signal) as [[ext2 mx2]|e] eqn:E2; [|discriminate].
  cbn [bind fst snd].
  apply identify_extrema_spec in E1, E2.
  destruct E1 as (_ & Hgap & _). destruct E2 as (_ & _ & _ & _ & _ & _ & _ & _ & Hext).
  destruct (match_peaks_matching (auto_gating_threshold cfg) mx1 [] ext2)
    as (pairs & remaining & Hm & ->).
  cbn [bind fst app]. intros H. injection H as <-.
  eapply gated_increasing; eauto.
Qed.

(** With maxima-only peak detection no frame is in both sets. *)
Lemma automatic_gating_maxima_only_disjoint (cfg : config)
    (report_data : list report_row) (maxima_signal extrema_signal : list npfloat)
    (w w' : window) :
  both_extrema cfg = false ->
  automatic_gating cfg report_data maxima_signal extrema_signal w = (Ok tt, w') ->
  forall f, In f (gated_frames_dia w') -> In f (gated_frames_sys w') -> False.
Proof.
  intros Hmode. rewrite automatic_gating_run. cbv zeta.
  destruct (gated_indices cfg maxima_signal extrema_signal) as [gated|e] eqn:Eg;
    [|discriminate].
  intros Hrun f Hd Hs.
  pose proof (gated_indices_nonneg _ _ _ _ Eg) as Hpos.
  pose proof (gated_indices_maxima_only _ _ _ _ Hmode Eg) as Hinc.
  apply StronglySorted_NoDup_lt in Hinc.
  destruct (assign_phases_spec _ _ _ _ Hpos Hrun) as (a1 & a2 & _ & _ & Esets & _).
  destruct (NpFloat.gtb (py_sum a1) (py_sum a2));
    injection Esets as Ed Es; rewrite Ed in Hd; rewrite Es in Hs;
    eapply every_second_disjoint; eauto.
Qed.

End MaximaOnly.

(** * The variability of each signal *)

Section Variability.

Lemma map_result_length {A B : Type} (f : A -> result B) (l : list A) (ys : list B) :
  Py.map_result f l = Ok ys -> length ys = length l.
Proof.
  revert ys. induction l as [|x l IH]; intros ys; simpl.
  - intros H. now injection H as <-.
  - destruct (f x) as [y|e]; [|discriminate]. simpl.
    destruct (Py.map_result f l) as [ys'|e]; [|discriminate]. simpl.
    intros H. injection H as <-. simpl. f_equal. now apply IH.
Qed.

Lemma signal_variability_length (np_std : list Z -> npfloat) (cfg : config)
    (maxima_only : bool) (signal_list : list (list npfloat))
    (variability : list npfloat) :
  signal_variability np_std cfg maxima_only signal_list = Ok variability ->
  length variability = length signal_list.
Proof.
  unfold signal_variability.
  destruct (Py.map_result (smooth_curve cfg) signal_list) as [sm|e] eqn:E1;
    [|discriminate].
  cbn [bind].
  destruct (Py.map_result _ sm) as [ext|e] eqn:E2; [|discriminate].
  cbn [bind]. intros H. injection H as <-.
  rewrite length_map.
  apply map_result_length in E1, E2. congruence.
Qed.

End Variability.

(** * Binary64 arithmetic *)

Section Shifts.
Local Open Scope Z_scope.














End Shifts.

Section Rounding.
Local Open Scope Z_scope.

Local Abbreviation emin := (emin F64.prec F64.emax).
Local Abbreviation fexp := (fexp F64.prec F64.emax).














End Rounding.

Section Exactness.
Local Open Scope Z_scope.

Local Abbreviation emin := (emin F64.prec F64.emax).
Local Abbreviation fexp := (fexp F64.prec F64.emax).











End Exactness.

Section Order.
Local Open Scope Z_scope.

Local Abbreviation emin := (emin F64.prec F64.emax).













End Order.

Section Minimum.
Local Open Scope Z_scope.

Local Abbreviation emin := (emin F64.prec F64.emax).



Lemma minimum_nan_l (b : F64.t) : F64.minimum F64.nan b = F64.nan.
Proof. unfold F64.minimum. now rewrite orb_true_r. Qed.

Lemma fold_minimum_nan_acc (r : list F64.t) : fold_left F64.minimum r F64.nan = F64.nan.
Proof. induction r as [|a r IH]; [reflexivity|]. cbn [fold_left]. now rewrite minimum_nan_l. Qed.

Lemma ltb_nan_r (a : F64.t) : F64.ltb a F64.nan = false.
Proof. destruct a; reflexivity. Qed.

(** NaN propagates through the minimum. *)
Lemma fold_minimum_nan (r : list F64.t) (x : F64.t) :
  In F64.nan (x :: r) -> fold_left F64.minimum r x = F64.nan.
Proof.
  revert x. induction r as [|a r IH]; intros x Hin.
  - destruct Hin as [-> | []]. reflexivity.
  - cbn [fold_left]. destruct Hin as [-> | Hin].
    + rewrite minimum_nan_l. apply fold_minimum_nan_acc.
    + apply IH. destruct Hin as [-> | Hin]; [|now right].
      left. unfold F64.minimum. rewrite ltb_nan_r.
      destruct x; reflexivity.
Qed.

End Minimum.

Section Signs.
Local Open Scope Z_scope.

Local Abbreviation emin := (emin F64.prec F64.emax).






Lemma float_sub_nan_r (x : F64.t) : F64.sub x F64.nan = F64.nan.
Proof. destruct x; reflexivity. Qed.






End Signs.

Section Summation.
Local Open Scope nat_scope.

















End Summation.

Section Normalize64.
Local Open Scope Z_scope.


Lemma normalize_data_run (x : F64.t) (r : list F64.t) :
  let m := fold_left F64.minimum r x in
  let shifted := map (fun y => F64.sub y m) (x :: r) in
  F64.np_min (x :: r) = Ok m /\
  F64.normalize_data (x :: r)
  = Ok (map (fun d => F64.div d (F64.np_sum shifted)) shifted).
Proof. cbv zeta. split; reflexivity. Qed.








(** An array with a NaN sample: everything is NaN. *)
Lemma normalize_data_nan (x : F64.t) (r : list F64.t) :
  In F64.nan (x :: r) ->
  F64.normalize_data (x :: r) = Ok (map (fun _ => F64.nan) (x :: r)).
Proof.
  intros Hin. destruct (normalize_data_run x r) as [_ E]. rewrite E.
  rewrite (fold_minimum_nan r x Hin). rewrite map_map. f_equal.
  apply map_ext. intros y. now rewrite float_sub_nan_r.
Qed.




End Normalize64.

Section Integers.
Local Open Scope Z_scope.

Local Abbreviation emin := (emin F64.prec F64.emax).











End Integers.

(** * Main results *)

(** Equalities between concrete values: evaluate both sides, then compare
    rationals by their canonical forms. *)
Ltac np_compute :=
  vm_compute;
  repeat first [ reflexivity | apply Qc_is_canon; reflexivity | f_equal ].

Ltac qc_discriminate :=
  let E := fresh in
  intros E; apply (f_equal this) in E; vm_compute in E; discriminate E.

(** C1. The matching loop of [automatic_gating] never raises and computes
    the greedy matching: the maxima are taken in order; each is paired with
    the first of the extrema still available that lies within the
    threshold, whether or not a later one is nearer; the gated index is the
    rounded average of the pair; the paired extremum is taken out, so the
    paired extrema together with those left over are exactly the extrema
    given; a maximum with no extremum within the threshold adds nothing. *)
Theorem match_peaks_greedy (threshold : Z) (maxima_indices extrema_indices : list Z) :
  exists (pairs : list (Z * Z)) (gated remaining : list Z),
    match_peaks threshold maxima_indices ([], extrema_indices) = Ok (gated, remaining) /\
    MatchingSpec.greedy_matching threshold maxima_indices extrema_indices pairs remaining /\
    Forall2 (fun p g => MatchingSpec.rounded_average (fst p) (snd p) g) pairs gated /\
    Permutation (map snd pairs ++ remaining) extrema_indices /\
    (length gated <= length maxima_indices)%nat.
Proof.
  destruct (match_peaks_matching threshold maxima_indices [] extrema_indices)
    as (pairs & remaining & Hm & Hrun).
  exists pairs, (map (fun p => rounded_half (fst p + snd p)) pairs), remaining.
  split; [exact Hrun|]. split; [exact Hm|]. split; [|split].
  - clear. induction pairs as [|p pairs IH]; simpl; constructor; auto.
    apply rounded_half_average.
  - eapply greedy_matching_perm; eauto.
  - rewrite length_map. eapply greedy_matching_length; eauto.
Qed.

(** The first extremum within the threshold wins over a nearer one. *)
Example match_peaks_first_not_nearest :
  match_peaks 5 [10]%Z ([], [6; 10]%Z) = Ok ([8]%Z, [10]%Z).
Proof. reflexivity. Qed.



(** C3, on inputs where the code breaks it.  The pairs (1, 2) and (2, 3)
    have the averages 1.5 and 2.5, which both round to 2, so frame 2 is
    gated twice and lands in the diastole set and in the systole set; its
    label is "S". *)
Theorem automatic_gating_shared_frame :
  (gated_indices (sample_config 3 50 10 5 true)
     (signal_of [0; 1; -1; 0; 0]%Z) (signal_of [0; 0; 1; -1; 0]%Z) = Ok [2; 2]%Z /\
   automatic_gating (sample_config 3 50 10 5 true)
     (report_of [5; 6; 7; 8; 9]%Z)
     (signal_of [0; 1; -1; 0; 0]%Z) (signal_of [0; 0; 1; -1; 0]%Z)
     (fresh_window 5)
   = (Ok tt,
      mkWindow [2]%Z [2]%Z ["-"; "-"; "S"; "-"; "-"]%string
        ["Extrema peak detection according to config.yaml"%string])) /\
  (gated_indices (sample_config 3 50 1 1 true)
     (signal_of [0; 1; -1; 0; 0; 1; 0]%Z)
     (signal_of [0; 0; 1; -1; 0; 0; 1; 0]%Z) = Ok [2; 2; 6]%Z /\
   automatic_gating (sample_config 3 50 1 1 true)
     (report_of [5; 6; 7; 8; 9; 10; 11; 12]%Z)
     (signal_of [0; 1; -1; 0; 0; 1; 0]%Z)
     (signal_of [0; 0; 1; -1; 0; 0; 1; 0]%Z)
     (fresh_window 8)
   = (Ok tt,
      mkWindow [2; 6]%Z [2]%Z
        ["-"; "-"; "S"; "-"; "-"; "-"; "D"; "-"]%string
        ["Extrema peak detection according to config.yaml"%string])).
Proof.
  repeat split; vm_compute; reflexivity.
Qed.

(** C4, as the code has it.  With a percentile and a distance that the
    libraries accept, [identify_extrema] raises [IndexError] on an empty
    signal and returns on every other.  The maxima are the peaks that
    [find_peaks] reports for the signal and the minima those it reports
    for the negated signal, with the same percentile of the signal as the
    height for both.  Every maximum is the middle of a flat peak of the
    signal of at least that height, and every flat peak of at least that
    height has a maximum closer than the minimum distance to its middle
    (the middle itself unless a peak at least as high took its place)
    that is at least as high; the same holds for the minima and the
    negated signal.  The second component holds the maxima; the first
    holds the maxima and the minima and is strictly increasing.  Any two
    maxima are at least the minimum distance apart, and so are any two
    minima. *)
Theorem identify_extrema_increasing (cfg : config) (signal : list npfloat) :
  valid_detection cfg ->
  (signal = [] -> identify_extrema cfg signal = Raise IndexError) /\
  (signal <> [] ->
   exists (min_height : npfloat) (maxima_indices minima_indices : list nat)
          (extrema : list Z),
     let x := Np.nan_to_num signal in
     let maxima := map Z.of_nat maxima_indices in
     let minima := map Z.of_nat minima_indices in
     Np.percentile x (min_height_percentile cfg) = Ok min_height /\
     Scipy.find_peaks x (min_distance cfg) min_height = Ok maxima_indices /\
     Scipy.find_peaks (map Qcopp x) (min_distance cfg) min_height = Ok minima_indices /\
     identify_extrema cfg signal = Ok (extrema, maxima) /\
     StronglySorted Z.lt extrema /\
     Permutation extrema (maxima ++ minima) /\
     (forall p, In p maxima_indices ->
        peak_middle x p /\ NpFloat.leb min_height (Fin (Scipy.at_ x p)) = true) /\
     (forall l r, plateau x l r ->
        NpFloat.leb min_height (Fin (Scipy.at_ x l)) = true ->
        exists p, In p maxima_indices /\
          (Z.abs (Z.of_nat p - Z.of_nat ((l + r) / 2)) < min_distance cfg)%Z /\
          (Scipy.at_ x l <= Scipy.at_ x p)%Qc) /\
     (forall p, In p minima_indices ->
        peak_middle (map Qcopp x) p /\
        NpFloat.leb min_height (Fin (- Scipy.at_ x p)) = true) /\
     (forall l r, plateau (map Qcopp x) l r ->
        NpFloat.leb min_height (Fin (- Scipy.at_ x l)) = true ->
        exists p, In p minima_indices /\
          (Z.abs (Z.of_nat p - Z.of_nat ((l + r) / 2)) < min_distance cfg)%Z /\
          (Scipy.at_ x p <= Scipy.at_ x l)%Qc) /\
     (forall p, In p maxima_indices -> ~ In p minima_indices) /\
     separated (min_distance cfg) maxima /\
     separated (min_distance cfg) minima).
Proof.
  intros (H0 & H100 & Hd). split.
  - intros ->. now apply identify_extrema_empty.
  - intros Hne.
    destruct (identify_extrema_total cfg signal H0 H100 Hd Hne) as [[extrema maxima] E].
    destruct (identify_extrema_spec cfg signal extrema maxima E)
      as (minima & _ & _ & _ & Hdx & Hdn & _ & Hperm & Hs).
    pose proof E as E'. unfold identify_extrema in E'.
    destruct (Np.percentile _ _) as [h|e] eqn:Eh; [|discriminate]. cbn [bind] in E'.
    destruct (Scipy.find_peaks (Np.nan_to_num signal) _ _) as [mx|e] eqn:Emx;
      [|discriminate]. cbn [bind] in E'.
    destruct (Scipy.find_peaks (map Qcopp _) _ _) as [mn|e] eqn:Emn;
      [|discriminate]. cbn [bind] in E'.
    injection E' as <- <-.
    pose proof (find_peaks_spec _ _ _ _ Emx) as (_ & _ & Hsx & Hpx).
    pose proof (find_peaks_spec _ _ _ _ Emn) as (_ & _ & Hsn & Hpn).
    pose proof (find_peaks_complete _ _ _ _ Emx) as (Hmx & Hcx).
    pose proof (find_peaks_complete _ _ _ _ Emn) as (Hmn & Hcn).
    exists h, mx, mn, (Np.sort Z.leb (map Z.of_nat (mx ++ mn))). cbv zeta.
    split; [exact Eh|]. split; [exact Emx|]. split; [exact Emn|].
    split; [exact E|]. split; [exact Hs|].
    split; [rewrite <- map_app; apply sorted_perm|].
    split; [|split; [exact Hcx|]].
    { intros p Hp. split; [now apply Hmx | now apply Hpx]. }
    split; [|split; [|split; [|split; [exact Hsx | exact Hsn]]]].
    + intros p Hp. split; [now apply Hmn|].
      destruct (Hpn p Hp) as [_ Hh]. now rewrite <- at_opp.
    + intros l r Hpl Hh. rewrite <- at_opp in Hh.
      destruct (Hcn l r Hpl Hh) as (p & Hp & Hnear & Hle).
      exists p. split; [exact Hp|]. split; [exact Hnear|].
      rewrite !at_opp in Hle. now apply Qcopp_le_compat in Hle;
        rewrite !Qcopp_involutive in Hle.
    + intros p Hx Hn.
      apply (flat_peak_opp (Np.nan_to_num signal) p); [apply Hpx | apply Hpn]; auto.
Qed.

Lemma identify_extrema_increasing_witness :
  exists (min_height : npfloat) (maxima_indices minima_indices : list nat)
         (extrema : list Z),
    let x := Np.nan_to_num (signal_of [0; 1; -1; 0]%Z) in
    let maxima := map Z.of_nat maxima_indices in
    let minima := map Z.of_nat minima_indices in
    Np.percentile x (Q2Qc (inject_Z 50)) = Ok min_height /\
    Scipy.find_peaks x 3 min_height = Ok maxima_indices /\
    Scipy.find_peaks (map Qcopp x) 3 min_height = Ok minima_indices /\
    identify_extrema (sample_config 3 50 3 5 true) (signal_of [0; 1; -1; 0]%Z)
    = Ok (extrema, maxima) /\
    StronglySorted Z.lt extrema /\
    Permutation extrema (maxima ++ minima) /\
    (forall p, In p maxima_indices ->
       peak_middle x p /\ NpFloat.leb min_height (Fin (Scipy.at_ x p)) = true) /\
    (forall l r, plateau x l r ->
       NpFloat.leb min_height (Fin (Scipy.at_ x l)) = true ->
       exists p, In p maxima_indices /\
         (Z.abs (Z.of_nat p - Z.of_nat ((l + r) / 2)) < 3)%Z /\
         (Scipy.at_ x l <= Scipy.at_ x p)%Qc) /\
    (forall p, In p minima_indices ->
       peak_middle (map Qcopp x) p /\
       NpFloat.leb min_height (Fin (- Scipy.at_ x p)) = true) /\
    (forall l r, plateau (map Qcopp x) l r ->
       NpFloat.leb min_height (Fin (- Scipy.at_ x l)) = true ->
       exists p, In p minima_indices /\
         (Z.abs (Z.of_nat p - Z.of_nat ((l + r) / 2)) < 3)%Z /\
         (Scipy.at_ x p <= Scipy.at_ x l)%Qc) /\
    (forall p, In p maxima_indices -> ~ In p minima_indices) /\
    separated 3 maxima /\
    separated 3 minima.
Proof.
  apply (identify_extrema_increasing (sample_config 3 50 3 5 true)
           (signal_of [0; 1; -1; 0]%Z)).
  - repeat split.
    + apply Qc_leb_le. reflexivity.
    + apply Qc_leb_le. reflexivity.
    + simpl. lia.
  - discriminate.
Defined.

(** C4, as stated, fails: a maximum and a minimum may be closer to each
    other than the minimum distance. *)
Lemma identify_extrema_union_not_separated :
  identify_extrema (sample_config 3 50 3 5 true) (signal_of [0; 1; -1; 0]%Z)
  = Ok ([1; 2]%Z, [1]%Z) /\
  ~ separated 3 [1; 2]%Z.
Proof.
  split; [reflexivity|].
  intros H. inversion H as [|a l Hall _]; subst.
  inversion Hall as [|b l' Hab _]; subst. lia.
Qed.

(** C5, on the input of the scenario.  For composite signals with the
    means 10 and 5 the ratio is 2, and it is the maxima signal (the one
    with the larger mean) that is multiplied by 2; the extrema signal is
    left as it is, so the means are 20 and 5 afterwards. *)
Theorem scale_composites_means_10_5 :
  Np.mean (signal_of [8; 12]%Z) = NpFloat.of_Z 10 /\
  Np.mean (signal_of [4; 6]%Z) = NpFloat.of_Z 5 /\
  NpFloat.div (NpFloat.of_Z 10) (NpFloat.of_Z 5) = NpFloat.of_Z 2 /\
  scale_composites (signal_of [8; 12]%Z) (signal_of [4; 6]%Z)
  = (signal_of [16; 24]%Z, signal_of [4; 6]%Z) /\
  Np.mean (signal_of [16; 24]%Z) = NpFloat.of_Z 20.
Proof.
  repeat split; np_compute.
Qed.

(** With the means the other way round the extrema signal is scaled down
    to the mean of the maxima signal. *)
Example scale_composites_means_5_10 :
  scale_composites (signal_of [4; 6]%Z) (signal_of [8; 12]%Z)
  = (signal_of [4; 6]%Z, signal_of [4; 6]%Z).
Proof. np_compute. Qed.

(** C6, as the code has it.  The distinct missing numbers, in increasing
    order, are cut into maximal runs of consecutive numbers; a run of three
    or more is written [first-last], a shorter run number by number, and
    everything is separated by [", "].  So 13, 14, 16 gives "13, 14, 16"
    and 12, 13, 14, 15, 20 gives "12-15, 20". *)
Theorem connect_consecutive_frames_runs (missing : list Z) :
  exists runs : list (list Z),
    concat runs = Py.sorted Z.leb (Py.set missing) /\
    StronglySorted Z.lt (concat runs) /\
    (forall n, In n (concat runs) <-> In n missing) /\
    FramesSpec.maximal_runs runs /\
    connect_consecutive_frames missing = FramesSpec.compressed_from_three runs /\
    connect_consecutive_frames [13; 14; 16]%Z = "13, 14, 16"%string /\
    connect_consecutive_frames [12; 13; 14; 15; 20]%Z = "12-15, 20"%string.
Proof.
  set (nums := Py.sorted Z.leb (Py.set missing)).
  destruct (connect_from_spec nums (length nums) 0 ltac:(lia) ltac:(lia))
    as (Hcat & Hmax & _).
  exists (connect_from nums (length nums) 0).
  simpl in Hcat. rewrite Hcat.
  split; [reflexivity|]. split; [|split; [|split]].
  - apply sorted_strict. apply NoDup_nodup.
  - intros n. unfold nums. split; intros H.
    + apply (Permutation_in _ (sorted_perm _ _)) in H. now apply nodup_In in H.
    + apply (Permutation_in _ (Permutation_sym (sorted_perm _ _))).
      now apply nodup_In.
  - exact Hmax.
  - split; [|split; reflexivity].
    unfold connect_consecutive_frames. fold nums. apply render_run_from_three.
Qed.

(** C6, as stated, fails: the run 13, 14 is not written [13-14]. *)
Lemma connect_consecutive_frames_pair_listed :
  connect_consecutive_frames [13; 14; 16]%Z = "13, 14, 16"%string /\
  connect_consecutive_frames [13; 14; 16]%Z <> "13-14, 16"%string /\
  FramesSpec.compressed [[13; 14]; [16]]%Z = "13-14, 16"%string.
Proof.
  split; [reflexivity|]. split; [|reflexivity].
  vm_compute. discriminate.
Qed.

(** A run of three or more is compressed. *)
Example connect_consecutive_frames_range :
  connect_consecutive_frames [20; 13; 12; 14; 15; 12]%Z = "12-15, 20"%string.
Proof. reflexivity. Qed.




(** C8, on inputs where the code breaks it.  The first signal has its
    maxima two frames apart throughout, so its variability is 0; the
    second has the gaps 4 and 2 and the variability 1.  Nothing stands in
    for the division by zero: the weights are [+Inf] and 1, and the
    composite signal is NaN where the first signal is 0 and [+Inf] where
    it is 1.  With two signals of variability 0 the variabilities sum to
    0, both weights are NaN and so is every sample of the composite. *)
Theorem combined_signal_regular_spacing :
  (signal_variability Np.std (sample_config 1 50 1 5 true) true
     [regular_signal; irregular_signal] = Ok [NpFloat.zero; NpFloat.one] /\
   signal_weights [NpFloat.zero; NpFloat.one] = [PInf; NpFloat.one] /\
   combined_signal Np.std (sample_config 1 50 1 5 true)
     [regular_signal; irregular_signal] true [regular_signal; irregular_signal]
   = Ok ([NaN; PInf; NaN; PInf; NaN; PInf; NaN; PInf; NaN; PInf; NaN],
         [NaN; PInf; NaN; PInf; NaN; PInf; NaN; PInf; NaN; PInf; NaN])) /\
  (signal_variability Np.std (sample_config 1 50 1 5 true) true
     [regular_signal; regular_signal] = Ok [NpFloat.zero; NpFloat.zero] /\
   signal_weights [NpFloat.zero; NpFloat.zero] = [NaN; NaN] /\
   combined_signal Np.std (sample_config 1 50 1 5 true)
     [regular_signal; regular_signal] true [regular_signal; regular_signal]
   = Ok (repeat NaN 11, repeat NaN 11)).
Proof.
  repeat split; np_compute.
Qed.

(** C9.  [plot_data] runs [automatic_gating] (which leaves a message in
    the log) only if the diastole set and the systole set are both empty.
    When the two fusions have returned their curves, it runs it if and
    only if both sets are empty: in that case it does exactly what
    [automatic_gating] does on the scaled curves, and otherwise it returns
    [True] and leaves the sets and the phase labels as they were. *)
Theorem plot_data_gating_guard (np_std : list Z -> npfloat) (cfg : config)
    (report_data : list report_row)
    (signal_list_max signal_list_max_nor : list (list npfloat))
    (signal_list_extrema signal_list_extrema_nor : list (list npfloat))
    (w : window) :
  let run := plot_data np_std cfg report_data signal_list_max signal_list_max_nor
                       signal_list_extrema signal_list_extrema_nor w in
  (log (snd run) <> log w ->
   gated_frames_dia w = [] /\ gated_frames_sys w = []) /\
  (forall signal_maxima signal_maxima_nor signal_extrema signal_extrema_nor,
     combined_signal np_std cfg signal_list_max true signal_list_max_nor
     = Ok (signal_maxima, signal_maxima_nor) ->
     combined_signal np_std cfg signal_list_extrema false signal_list_extrema_nor
     = Ok (signal_extrema, signal_extrema_nor) ->
     let scaled := scale_composites signal_maxima signal_extrema in
     (gated_frames_dia w = [] /\ gated_frames_sys w = [] ->
      log (snd run) <> log w /\
      snd run = snd (automatic_gating cfg report_data (fst scaled) (snd scaled) w)) /\
     (~ (gated_frames_dia w = [] /\ gated_frames_sys w = []) ->
      run = (Ok true, w))).
Proof.
  cbv zeta.
  assert (Hrun : forall sm smn se sen,
    combined_signal np_std cfg signal_list_max true signal_list_max_nor = Ok (sm, smn) ->
    combined_signal np_std cfg signal_list_extrema false signal_list_extrema_nor
    = Ok (se, sen) ->
    (log (snd (plot_data np_std cfg report_data signal_list_max signal_list_max_nor
                 signal_list_extrema signal_list_extrema_nor w)) <> log w ->
     gated_frames_dia w = [] /\ gated_frames_sys w = []) /\
    (gated_frames_dia w = [] /\ gated_frames_sys w = [] ->
     log (snd (plot_data np_std cfg report_data signal_list_max signal_list_max_nor
                 signal_list_extrema signal_list_extrema_nor w)) <> log w /\
     snd (plot_data np_std cfg report_data signal_list_max signal_list_max_nor
            signal_list_extrema signal_list_extrema_nor w)
     = snd (automatic_gating cfg report_data
              (fst (scale_composites sm se)) (snd (scale_composites sm se)) w)) /\
    (~ (gated_frames_dia w = [] /\ gated_frames_sys w = []) ->
     plot_data np_std cfg report_data signal_list_max signal_list_max_nor
       signal_list_extrema signal_list_extrema_nor w = (Ok true, w))).
  { intros sm smn se sen E1 E2.
    rewrite (plot_data_run _ _ _ _ _ _ _ _ _ _ _ w E1 E2). cbv zeta.
    destruct (automatic_gating_log cfg report_data
                (fst (scale_composites sm se)) (snd (scale_composites sm se)) w)
      as [message Hlog].
    assert (Hgrow : forall l : list string, l ++ [message] <> l).
    { intros l E. apply (f_equal (@length string)) in E.
      rewrite length_app in E. simpl in E. lia. }
    destruct (gated_frames_dia w) as [|d dia] eqn:Ed;
      [destruct (gated_frames_sys w) as [|s sys] eqn:Es|].
    - destruct (automatic_gating _ _ _ _ w) as [[[]|e] w']; simpl in *;
        rewrite Hlog; (split; [|split]); auto; tauto.
    - simpl. split; [|split].
      + intros H. now elim H.
      + intros [_ ?]; discriminate.
      + reflexivity.
    - simpl. split; [|split].
      + intros H. now elim H.
      + intros [? _]; discriminate.
      + reflexivity. }
  destruct (combined_signal np_std cfg signal_list_max true signal_list_max_nor)
    as [[sm smn]|e] eqn:E1.
  - destruct (combined_signal np_std cfg signal_list_extrema false signal_list_extrema_nor)
      as [[se sen]|e] eqn:E2.
    + destruct (Hrun sm smn se sen eq_refl eq_refl) as (H1 & H2 & H3).
      split; [exact H1|].
      intros sm' smn' se' sen' E1' E2'. injection E1' as <- <-. injection E2' as <- <-.
      split; assumption.
    + split; [|discriminate].
      unfold plot_data. rewrite E1, E2. unfold bindM, lift. simpl. tauto.
  - split; [|discriminate].
    unfold plot_data. rewrite E1. unfold bindM, lift. simpl. tauto.
Qed.

Lemma plot_data_gating_guard_witness :
  let cfg := sample_config 1 50 1 2 true in
  let report_data := report_of [0; 1; 4; 9; 16; 25; 36; 49; 64; 81; 100]%Z in
  let group_max := [irregular_signal; irregular_signal] in
  let group_extrema := [irregular_signal; irregular_signal; irregular_signal] in
  let w := fresh_window 11 in
  let from_max := curves_of (combined_signal Np.std cfg group_max true group_max) in
  let from_extrema :=
    curves_of (combined_signal Np.std cfg group_extrema false group_extrema) in
  let run := plot_data Np.std cfg report_data group_max group_max
                       group_extrema group_extrema w in
  let scaled := scale_composites (fst from_max) (fst from_extrema) in
  (gated_frames_dia w = [] /\ gated_frames_sys w = []) /\
  (gated_frames_dia w = [] /\ gated_frames_sys w = [] ->
   log (snd run) <> log w /\
   snd run = snd (automatic_gating cfg report_data (fst scaled) (snd scaled) w)) /\
  (~ (gated_frames_dia w = [] /\ gated_frames_sys w = []) ->
   run = (Ok true, w)).
Proof.
  intros cfg report_data group_max group_extrema w from_max from_extrema.
  destruct (plot_data_gating_guard Np.std cfg report_data group_max group_max
              group_extrema group_extrema w) as [Honly Hguard].
  split.
  - apply Honly. vm_compute. discriminate.
  - apply (Hguard (fst from_max) (snd from_max) (fst from_extrema) (snd from_extrema));
      vm_compute; reflexivity.
Defined.




(** * Further properties of the signal conditioning *)

Section NormalizeMore.
Local Open Scope Qc_scope.
Import SignalSpec.

Lemma min_nan_r (x : npfloat) : NpFloat.min x NaN = NaN.
Proof. now destruct x. Qed.

Lemma fold_min_nan (r : list npfloat) : fold_left NpFloat.min r NaN = NaN.
Proof. induction r as [|a r IH]; simpl; auto. Qed.

Lemma fold_min_in_nan (r : list npfloat) (x : npfloat) :
  In NaN r -> fold_left NpFloat.min r x = NaN.
Proof.
  revert x. induction r as [|a r IH]; intros x Hin; [contradiction|].
  simpl. destruct Hin as [-> | Hin].
  - rewrite min_nan_r. apply fold_min_nan.
  - now apply IH.
Qed.

Lemma np_min_nan (data : list npfloat) : In NaN data -> Np.min data = Ok NaN.
Proof.
  destruct data as [|x r]; [contradiction|]. intros [-> | Hin]; simpl.
  - now rewrite fold_min_nan.
  - now rewrite fold_min_in_nan.
Qed.

Lemma sub_nan_r (x : npfloat) : NpFloat.sub x NaN = NaN.
Proof. now destruct x. Qed.

(** X1. A NaN sample, in binary64.  In an array or a list a single NaN
    is enough: the minimum is then NaN, and [normalize_data] returns an
    array of NaN of the same length.  In a column of the report the
    minimum and the sum skip NaN: the result has the length of the
    column and is NaN at the sample that is NaN, and the other samples
    are normalised among themselves, as 1, NaN, 3 shows. *)
Theorem normalize_data_nan_sample (data : list F64.t) :
  In F64.nan data ->
  F64.normalize_data data = Ok (map (fun _ => F64.nan) data) /\
  length (F64.normalize_series data) = length data /\
  (forall i, (i < length data)%nat -> nth i data F64.zero = F64.nan ->
     nth i (F64.normalize_series data) F64.zero = F64.nan) /\
  F64.normalize_series [F64.of_Z 1; F64.nan; F64.of_Z 3]
  = [F64.zero; F64.nan; F64.of_Z 1].
Proof.
  intros Hin. split; [|split; [|split]].
  - destruct data as [|x r]; [contradiction|]. now apply normalize_data_nan.
  - unfold F64.normalize_series. now rewrite !length_map.
  - intros i Hi Ei. unfold F64.normalize_series.
    set (m := F64.series_min data).
    set (total := F64.series_sum (map (fun x => F64.sub x m) data)).
    rewrite (nth_indep _ F64.zero (F64.div (F64.sub F64.zero m) total))
      by (now rewrite !length_map).
    rewrite (map_nth (fun d => F64.div d total)).
    rewrite (map_nth (fun y => F64.sub y m)). now rewrite Ei.
  - vm_compute. reflexivity.
Qed.

Lemma normalize_data_nan_sample_witness :
  F64.normalize_data [F64.of_Z 1; F64.nan; F64.inf] = Ok [F64.nan; F64.nan; F64.nan] /\
  length (F64.normalize_series [F64.of_Z 1; F64.nan; F64.inf]) = 3%nat /\
  (forall i, (i < 3)%nat -> nth i [F64.of_Z 1; F64.nan; F64.inf] F64.zero = F64.nan ->
     nth i (F64.normalize_series [F64.of_Z 1; F64.nan; F64.inf]) F64.zero = F64.nan) /\
  F64.normalize_series [F64.of_Z 1; F64.nan; F64.of_Z 3]
  = [F64.zero; F64.nan; F64.of_Z 1].
Proof.
  apply (normalize_data_nan_sample [F64.of_Z 1; F64.nan; F64.inf]).
  right. now left.
Defined.

Lemma Qc_pos_neq (s : Qc) : 0 < s -> s <> 0.
Proof. intros Hs E. rewrite E in Hs. now apply Qclt_irrefl in Hs. Qed.

Lemma qsum_sub_zero (l : list Qc) : map (fun x => x - 0) l = l.
Proof.
  rewrite <- (map_id l) at 2. apply map_ext. intros x. ring.
Qed.

End NormalizeMore.

(** * Properties of the smoothing *)

Section Smoothing.
Local Open Scope nat_scope.
Local Arguments Nat.div : simpl never.
Import SignalSpec.

(** The positions of [seq s n] that lie in the interval from [a] to [b]. *)
Lemma filter_interval (a b s n : nat) :
  filter (fun j => (a <=? j) && (j <? b)) (seq s n)
  = seq (Nat.max a s) (Nat.min b (s + n) - Nat.max a s).
Proof.
  revert s. induction n as [|n IH]; intros s.
  - simpl. replace (Nat.min b (s + 0) - Nat.max a s) with 0 by lia. reflexivity.
  - cbn [seq filter]. rewrite IH.
    destruct (Nat.leb_spec a s) as [Ea | Ea]; destruct (Nat.ltb_spec s b) as [Eb | Eb];
      cbn [andb].
    + replace (Nat.max a s) with s by lia.
      replace (Nat.min b (s + S n) - s) with (S (Nat.min b (S s + n) - S s)) by lia.
      replace (Nat.max a (S s)) with (S s) by lia. reflexivity.
    + replace (Nat.min b (S s + n) - Nat.max a (S s)) with 0 by lia.
      replace (Nat.min b (s + S n) - Nat.max a s) with 0 by lia. reflexivity.
    + replace (Nat.max a (S s)) with (Nat.max a s) by lia.
      replace (Nat.min b (S s + n)) with (Nat.min b (s + S n)) by lia. reflexivity.
    + replace (Nat.min b (S s + n) - Nat.max a (S s)) with 0 by lia.
      replace (Nat.min b (s + S n) - Nat.max a s) with 0 by lia. reflexivity.
Qed.

Lemma map_nth_seq {A : Type} (l : list A) (d : A) (a m : nat) :
  a + m <= length l ->
  map (fun j => nth j l d) (seq a m) = firstn m (skipn a l).
Proof.
  revert a l. induction m as [|m IH]; intros a l Hlen; [reflexivity|].
  cbn [seq map]. 
  assert (Ha : a < length l) by lia.
  assert (E : skipn a l = nth a l d :: skipn (S a) l).
  { clear -Ha. revert a Ha. induction l as [|x l IHl]; intros a Ha; [simpl in Ha; lia|].
    destruct a as [|a]; [reflexivity|]. simpl in Ha.
    cbn [skipn nth]. rewrite IHl by lia. reflexivity. }
  rewrite E. cbn [firstn]. f_equal. apply IH. lia.
Qed.

(** X5. [smooth_curve] raises [ValueError] exactly when the window size is
    not positive or the signal is empty; otherwise the result is as long
    as the longer of the signal and the window, so a window wider than
    the signal lengthens it. *)
Theorem smooth_curve_shape (cfg : config) (signal : list npfloat) :
  match smooth_curve cfg signal with
  | Ok out =>
      (0 < window_size cfg)%Z /\ signal <> [] /\
      length out = Nat.max (length signal) (Z.to_nat (window_size cfg))
  | Raise e =>
      e = ValueError /\ ((window_size cfg <= 0)%Z \/ signal = [])
  end.
Proof.
  unfold smooth_curve. destruct (window_size cfg <=? 0)%Z eqn:Ew.
  - apply Z.leb_le in Ew. auto.
  - apply Z.leb_gt in Ew. destruct signal as [|x r]; [auto|].
    split; [exact Ew|]. split; [discriminate|].
    now rewrite length_map, length_seq.
Qed.

Lemma unit_weight : NpFloat.div NpFloat.one (NpFloat.of_Z 1) = Fin 1%Qc.
Proof. np_compute. Qed.

Lemma mul_unit_weight (x : npfloat) :
  NpFloat.add NpFloat.zero (NpFloat.mul x (Fin 1%Qc)) = x.
Proof.
  destruct x as [a| | |]; try reflexivity.
  simpl. f_equal. ring.
Qed.

(** X7. With a window of one sample smoothing changes nothing, whatever
    the samples are (infinities and NaN included). *)
Theorem smooth_curve_window_one (cfg : config) (signal : list npfloat) :
  window_size cfg = 1%Z -> signal <> [] -> smooth_curve cfg signal = Ok signal.
Proof.
  intros Hw Hs. unfold smooth_curve. rewrite Hw. cbn [Z.leb Z.compare].
  destruct signal as [|x r]; [contradiction|].
  set (signal := x :: r). f_equal.
  change (Z.to_nat 1) with 1.
  replace (Nat.max (length signal) 1) with (length signal) by (simpl; lia).
  replace ((Nat.min (length signal) 1 - 1) / 2) with 0
    by (replace (Nat.min (length signal) 1) with 1 by (simpl; lia); reflexivity).
  transitivity (map (fun j => nth j signal NpFloat.zero) (seq 0 (length signal))).
  2:{ rewrite map_nth_seq by lia. cbn [skipn]. apply firstn_all. }
  apply map_ext_in. intros i Hi. apply in_seq in Hi.
  unfold convolve_at. rewrite Nat.add_0_r.
  rewrite (filter_ext _ (fun j => (i <=? j) && (j <? i + 1))).
  2:{ intros j.
      destruct (Nat.leb_spec j i); destruct (Nat.ltb_spec (i - j) 1);
        destruct (Nat.leb_spec i j); destruct (Nat.ltb_spec j (i + 1));
        try reflexivity; lia. }
  rewrite filter_interval.
  replace (Nat.max i 0) with i by lia.
  replace (Nat.min (i + 1) (0 + length signal) - i) with 1 by lia.
  cbn [seq map fold_left]. rewrite unit_weight. apply mul_unit_weight.
Qed.

Lemma smooth_curve_window_one_witness :
  smooth_curve (sample_config 1 50 1 1 true) [Fin 1%Qc; NaN; PInf]
  = Ok [Fin 1%Qc; NaN; PInf].
Proof.
  apply (smooth_curve_window_one (sample_config 1 50 1 1 true) [Fin 1%Qc; NaN; PInf]).
  - reflexivity.
  - discriminate.
Defined.

End Smoothing.

(** * Further properties of the extrema detection *)

Section PeakBounds.
Local Open Scope nat_scope.
Local Arguments Nat.div : simpl never.

Lemma local_maxima_from_below (x : list Qc) (i_max fuel i : nat) :
  Forall (fun p => p < i_max) (Scipy.local_maxima_from x i_max fuel i).
Proof.
  revert i. induction fuel as [|fuel IH]; intros i; simpl; [constructor|].
  destruct (i <? i_max) eqn:Ei; [|constructor]. apply Nat.ltb_lt in Ei.
  destruct (NpFloat.Qc_ltb (Scipy.at_ x (i - 1)) (Scipy.at_ x i)); [|apply IH].
  pose proof (plateau_end_ge x i_max (Scipy.at_ x i) (length x) (i + 1)) as Hge.
  pose proof (plateau_end_le x i_max (Scipy.at_ x i) (length x) (i + 1) ltac:(lia)) as Hle.
  set (e := Scipy.plateau_end x (Scipy.at_ x i) i_max (length x) (i + 1)) in *.
  clearbody e.
  destruct (NpFloat.Qc_ltb (Scipy.at_ x e) (Scipy.at_ x i)); [|apply IH].
  constructor; [|apply IH].
  apply Nat.Div0.div_lt_upper_bound. lia.
Qed.

Lemma local_maxima_1d_interior (x : list Qc) (p : nat) :
  In p (Scipy.local_maxima_1d x) -> 1 <= p /\ p + 2 <= length x.
Proof.
  intros Hp. unfold Scipy.local_maxima_1d in Hp. split.
  - destruct (local_maxima_from_spec x (length x - 1) (length x) 1 (le_n 1)) as [_ Hall].
    rewrite Forall_forall in Hall. now apply Hall.
  - pose proof (local_maxima_from_below x (length x - 1) (length x) 1) as Hall.
    rewrite Forall_forall in Hall. specialize (Hall p Hp). lia.
Qed.

Lemma find_peaks_members (x : list Qc) (distance : Z) (height : npfloat)
    (out : list nat) (p : nat) :
  Scipy.find_peaks x distance height = Ok out -> In p out ->
  In p (Scipy.local_maxima_1d x) /\ NpFloat.leb height (Fin (Scipy.at_ x p)) = true.
Proof.
  unfold Scipy.find_peaks. destruct (distance <? 1)%Z; [discriminate|].
  intros H Hp. injection H as <-. apply mask_incl in Hp.
  now apply filter_In in Hp.
Qed.

(** What [identify_extrema] has computed when it returns. *)
Lemma identify_extrema_inv (cfg : config) (signal : list npfloat)
    (extrema maxima : list Z) :
  identify_extrema cfg signal = Ok (extrema, maxima) ->
  exists (h : npfloat) (mx mn : list nat),
    Np.percentile (Np.nan_to_num signal) (min_height_percentile cfg) = Ok h /\
    Scipy.find_peaks (Np.nan_to_num signal) (min_distance cfg) h = Ok mx /\
    Scipy.find_peaks (map Qcopp (Np.nan_to_num signal)) (min_distance cfg) h = Ok mn /\
    maxima = map Z.of_nat mx /\
    extrema = Np.sort Z.leb (map Z.of_nat (mx ++ mn)).
Proof.
  unfold identify_extrema.
  destruct (Np.percentile _ _) as [h|e]; [|discriminate]. simpl.
  destruct (Scipy.find_peaks (Np.nan_to_num signal) _ _) as [mx|e] eqn:Emx;
    [|discriminate]. simpl.
  destruct (Scipy.find_peaks (map Qcopp _) _ _) as [mn|e] eqn:Emn;
    [|discriminate]. simpl.
  intros H. injection H as <- <-. exists h, mx, mn. auto.
Qed.

Lemma identify_extrema_members (cfg : config) (signal : list npfloat)
    (extrema maxima : list Z) :
  identify_extrema cfg signal = Ok (extrema, maxima) ->
  (forall i, In i maxima -> In i extrema) /\
  (forall i, In i extrema ->
     (1 <= i)%Z /\ (i + 2 <= Z.of_nat (length signal))%Z).
Proof.
  intros H. destruct (identify_extrema_inv _ _ _ _ H) as (h & mx & mn & _ & Emx & Emn & -> & ->).
  split.
  - intros i Hi. unfold Np.sort.
    apply (Permutation_in _ (Permutation_sym (sorted_perm Z.leb _))).
    rewrite map_app. apply in_or_app. now left.
  - intros i Hi. unfold Np.sort in Hi.
    apply (Permutation_in _ (sorted_perm Z.leb _)) in Hi.
    apply in_map_iff in Hi. destruct Hi as (p & <- & Hp).
    assert (Hb : 1 <= p /\ p + 2 <= length (Np.nan_to_num signal)).
    { apply in_app_or in Hp. destruct Hp as [Hp | Hp].
      - apply local_maxima_1d_interior.
        now apply (find_peaks_members _ _ _ _ _ Emx).
      - apply (find_peaks_members _ _ _ _ _ Emn) in Hp. destruct Hp as [Hp _].
        apply local_maxima_1d_interior in Hp. now rewrite length_map in Hp. }
    unfold Np.nan_to_num in Hb. rewrite length_map in Hb. lia.
Qed.

(** X8. The indices that [identify_extrema] returns are never the first
    or the last sample: each lies between 1 and [len(signal) - 2]; and
    every index of the second component (the maxima) is also in the first
    (the extrema). *)
Theorem identify_extrema_interior (cfg : config) (signal : list npfloat)
    (extrema maxima : list Z) :
  identify_extrema cfg signal = Ok (extrema, maxima) ->
  Forall (fun i => (1 <= i)%Z /\ (i + 2 <= Z.of_nat (length signal))%Z) extrema /\
  incl maxima extrema.
Proof.
  intros H. destruct (identify_extrema_members _ _ _ _ H) as [Hsub Hb].
  split; [now apply Forall_forall | exact Hsub].
Qed.

Lemma identify_extrema_interior_witness :
  Forall (fun i => (1 <= i)%Z /\
                   (i + 2 <= Z.of_nat (length (signal_of [0; 1; -1; 0]%Z)))%Z)
         [1; 2]%Z /\
  incl [1]%Z [1; 2]%Z.
Proof.
  apply (identify_extrema_interior (sample_config 3 50 3 5 true)
           (signal_of [0; 1; -1; 0]%Z) [1; 2]%Z [1]%Z).
  vm_compute. reflexivity.
Defined.

End PeakBounds.

Section PeakHeights.
Local Open Scope Qc_scope.

(** X9. The height condition as [identify_extrema] applies it: the same
    percentile [h] of the signal is the threshold for the maxima and, on
    the negated signal, for the minima.  So a maximum is reported only at
    a sample of at least [h], and a minimum only at a sample of at most
    [-h]. *)
Theorem identify_extrema_heights (cfg : config) (signal : list npfloat)
    (extrema maxima : list Z) (h : Qc) :
  identify_extrema cfg signal = Ok (extrema, maxima) ->
  Np.percentile (Np.nan_to_num signal) (min_height_percentile cfg) = Ok (Fin h) ->
  let sample i := Scipy.at_ (Np.nan_to_num signal) (Z.to_nat i) in
  (forall i, In i maxima -> h <= sample i) /\
  (forall i, In i extrema -> ~ In i maxima -> sample i <= - h).
Proof.
  intros H Hh sample.
  destruct (identify_extrema_inv _ _ _ _ H) as (h' & mx & mn & Eh & Emx & Emn & -> & ->).
  rewrite Hh in Eh. injection Eh as <-. split.
  - intros i Hi. apply in_map_iff in Hi. destruct Hi as (p & <- & Hp).
    apply (find_peaks_members _ _ _ _ _ Emx) in Hp. destruct Hp as [_ Hp].
    unfold sample. rewrite Nat2Z.id. now apply Qc_leb_le.
  - intros i Hi Hnot. unfold Np.sort in Hi.
    apply (Permutation_in _ (sorted_perm Z.leb _)) in Hi.
    apply in_map_iff in Hi. destruct Hi as (p & <- & Hp).
    apply in_app_or in Hp. destruct Hp as [Hp | Hp].
    + exfalso. apply Hnot. now apply in_map.
    + apply (find_peaks_members _ _ _ _ _ Emn) in Hp. destruct Hp as [_ Hp].
      unfold sample. rewrite Nat2Z.id. simpl in Hp. apply Qc_leb_le in Hp.
      rewrite at_opp in Hp. apply Qcopp_le_compat in Hp.
      now rewrite Qcopp_involutive in Hp.
Qed.

Lemma identify_extrema_heights_witness :
  let sample i :=
    Scipy.at_ (Np.nan_to_num (signal_of [0; 3; -1; 0; 0]%Z)) (Z.to_nat i) in
  (forall i, In i [1]%Z -> 0 <= sample i) /\
  (forall i, In i [1; 2]%Z -> ~ In i [1]%Z -> sample i <= - 0).
Proof.
  apply (identify_extrema_heights (sample_config 3 50 1 5 true)
           (signal_of [0; 3; -1; 0; 0]%Z) [1; 2]%Z [1]%Z 0).
  - vm_compute. reflexivity.
  - np_compute.
Defined.

End PeakHeights.

Section Monotone.
Local Open Scope nat_scope.

Lemma local_maxima_from_nondecreasing (x : list Qc) (i_max fuel i : nat) :
  i_max < length x ->
  (forall a b, a <= b < length x -> (Scipy.at_ x a <= Scipy.at_ x b)%Qc) ->
  Scipy.local_maxima_from x i_max fuel i = [].
Proof.
  intros Hmax Hmono. revert i.
  induction fuel as [|fuel IH]; intros i; simpl; [reflexivity|].
  destruct (i <? i_max) eqn:Ei; [|reflexivity]. apply Nat.ltb_lt in Ei.
  destruct (NpFloat.Qc_ltb (Scipy.at_ x (i - 1)) (Scipy.at_ x i)); [|apply IH].
  pose proof (plateau_end_ge x i_max (Scipy.at_ x i) (length x) (i + 1)) as Hge.
  pose proof (plateau_end_le x i_max (Scipy.at_ x i) (length x) (i + 1) ltac:(lia)) as Hle.
  set (e := Scipy.plateau_end x (Scipy.at_ x i) i_max (length x) (i + 1)) in *.
  clearbody e.
  destruct (NpFloat.Qc_ltb (Scipy.at_ x e) (Scipy.at_ x i)) eqn:Er; [|apply IH].
  apply Qc_ltb_lt in Er. exfalso.
  apply (Qclt_not_le _ _ Er). apply Hmono. lia.
Qed.

Lemma local_maxima_from_nonincreasing (x : list Qc) (i_max fuel i : nat) :
  1 <= i -> i_max < length x ->
  (forall a b, a <= b < length x -> (Scipy.at_ x b <= Scipy.at_ x a)%Qc) ->
  Scipy.local_maxima_from x i_max fuel i = [].
Proof.
  intros Hi Hmax Hmono. revert i Hi.
  induction fuel as [|fuel IH]; intros i Hi; simpl; [reflexivity|].
  destruct (i <? i_max) eqn:Ei; [|reflexivity]. apply Nat.ltb_lt in Ei.
  destruct (NpFloat.Qc_ltb (Scipy.at_ x (i - 1)) (Scipy.at_ x i)) eqn:El;
    [|apply IH; lia].
  apply Qc_ltb_lt in El. exfalso.
  apply (Qclt_not_le _ _ El). apply Hmono. lia.
Qed.

Lemma local_maxima_1d_monotone (x : list Qc) :
  (forall a b, a <= b < length x -> (Scipy.at_ x a <= Scipy.at_ x b)%Qc) \/
  (forall a b, a <= b < length x -> (Scipy.at_ x b <= Scipy.at_ x a)%Qc) ->
  Scipy.local_maxima_1d x = [].
Proof.
  intros Hmono. unfold Scipy.local_maxima_1d.
  destruct x as [|v r]; [reflexivity|].
  destruct Hmono as [Hmono | Hmono].
  - apply local_maxima_from_nondecreasing; [simpl; lia | exact Hmono].
  - apply local_maxima_from_nonincreasing; [lia | simpl; lia | exact Hmono].
Qed.

Lemma find_peaks_no_maxima (x : list Qc) (distance : Z) (height : npfloat) :
  (1 <= distance)%Z -> Scipy.local_maxima_1d x = [] ->
  Scipy.find_peaks x distance height = Ok [].
Proof.
  intros Hd E. unfold Scipy.find_peaks.
  destruct (distance <? 1)%Z eqn:Ed; [apply Z.ltb_lt in Ed; lia|].
  rewrite E. reflexivity.
Qed.

(** X10. A signal that is not empty and never decreases, or never
    increases (a constant signal is both), has no extrema:
    [identify_extrema] returns two empty arrays.  Infinities and NaN
    count as 0, as [np.nan_to_num] makes them. *)
Theorem identify_extrema_monotone (cfg : config) (signal : list npfloat) :
  valid_detection cfg -> signal <> [] ->
  (forall a b, a <= b < length signal ->
     (Scipy.at_ (Np.nan_to_num signal) a <= Scipy.at_ (Np.nan_to_num signal) b)%Qc) \/
  (forall a b, a <= b < length signal ->
     (Scipy.at_ (Np.nan_to_num signal) b <= Scipy.at_ (Np.nan_to_num signal) a)%Qc) ->
  identify_extrema cfg signal = Ok ([], []).
Proof.
  intros (H0 & H100 & Hd) Hne Hmono. unfold identify_extrema.
  destruct (percentile_total (Np.nan_to_num signal) _ H0 H100
              (nan_to_num_nonempty signal Hne)) as [h ->]. cbn [bind].
  set (x := Np.nan_to_num signal) in *.
  assert (Hlen : length x = length signal) by apply length_map.
  rewrite (find_peaks_no_maxima x _ h Hd).
  2:{ apply local_maxima_1d_monotone. rewrite Hlen. exact Hmono. }
  cbn [bind].
  rewrite (find_peaks_no_maxima (map Qcopp x) _ h Hd).
  2:{ apply local_maxima_1d_monotone. rewrite length_map, Hlen.
      destruct Hmono as [Hmono | Hmono]; [right | left];
        intros a b Hab; rewrite !at_opp; apply Qcopp_le_compat; now apply Hmono. }
  reflexivity.
Qed.

Lemma identify_extrema_monotone_witness :
  identify_extrema (sample_config 3 50 1 5 true) (signal_of [1; 2; 2; 5]%Z) = Ok ([], []).
Proof.
  apply (identify_extrema_monotone (sample_config 3 50 1 5 true)
           (signal_of [1; 2; 2; 5]%Z)).
  - split; [|split]; vm_compute; discriminate.
  - discriminate.
  - left. intros a b [Hab Hb]. simpl in Hb.
    destruct b as [|[|[|[|b]]]]; [| | | |lia];
      destruct a as [|[|[|[|a]]]]; try lia; vm_compute; discriminate.
Defined.

Lemma percentile_cases (a : list Qc) (q : Qc) :
  match Np.percentile a q with
  | Ok _ => ((0 <= q)%Qc /\ (q <= Q2Qc 100)%Qc) /\ a <> []
  | Raise IndexError => ((0 <= q)%Qc /\ (q <= Q2Qc 100)%Qc) /\ a = []
  | Raise ValueError => ~ ((0 <= q)%Qc /\ (q <= Q2Qc 100)%Qc)
  end.
Proof.
  unfold Np.percentile.
  destruct (NpFloat.Qc_ltb q 0) eqn:E0.
  { apply Qc_ltb_lt in E0. cbn [orb]. intros [H _]. now apply (Qclt_not_le _ _ E0). }
  destruct (NpFloat.Qc_ltb (Q2Qc 100) q) eqn:E100.
  { apply Qc_ltb_lt in E100. cbn [orb]. intros [_ H]. now apply (Qclt_not_le _ _ E100). }
  apply Qc_ltb_ge in E0, E100. cbn [orb]. destruct a; repeat split; auto; discriminate.
Qed.

Lemma find_peaks_cases (x : list Qc) (distance : Z) (height : npfloat) :
  match Scipy.find_peaks x distance height with
  | Ok _ => (1 <= distance)%Z
  | Raise e => e = ValueError /\ (distance < 1)%Z
  end.
Proof.
  unfold Scipy.find_peaks.
  destruct (distance <? 1)%Z eqn:Ed.
  - apply Z.ltb_lt in Ed. auto.
  - apply Z.ltb_ge in Ed. exact Ed.
Qed.

Lemma identify_extrema_valid (cfg : config) (signal : list npfloat)
    (r : list Z * list Z) :
  identify_extrema cfg signal = Ok r -> valid_detection cfg.
Proof.
  intros E. unfold identify_extrema in E.
  pose proof (percentile_cases (Np.nan_to_num signal) (min_height_percentile cfg)) as Hp.
  destruct (Np.percentile _ _) as [h|e]; [|discriminate]. cbn [bind] in E.
  pose proof (find_peaks_cases (Np.nan_to_num signal) (min_distance cfg) h) as Hf.
  destruct (Scipy.find_peaks _ _ _) as [mx|e]; [|discriminate].
  destruct Hp as [[H0 H100] _]. now repeat split.
Qed.

Lemma nan_to_num_empty (signal : list npfloat) :
  Np.nan_to_num signal = [] <-> signal = [].
Proof. destruct signal; simpl; split; auto; discriminate. Qed.

(** X11. When [identify_extrema] returns and when it raises.  It returns
    exactly for a signal that is not empty, with a percentile in
    [0, 100] and a peak distance of at least 1.  A percentile outside
    [0, 100] is refused with [ValueError] whatever the signal is; with a
    percentile that is accepted, an empty signal raises [IndexError]
    (the percentile of no sample at all) whatever the distance is, and a
    signal that is not empty raises [ValueError] for a peak distance
    below 1. *)
Theorem identify_extrema_raises (cfg : config) (signal : list npfloat) :
  let percentile_accepted :=
    (0 <= min_height_percentile cfg)%Qc /\ (min_height_percentile cfg <= Q2Qc 100)%Qc in
  match identify_extrema cfg signal with
  | Ok _ => valid_detection cfg /\ signal <> []
  | Raise IndexError => percentile_accepted /\ signal = []
  | Raise ValueError =>
      ~ percentile_accepted \/
      (percentile_accepted /\ signal <> [] /\ (min_distance cfg < 1)%Z)
  end.
Proof.
  cbv zeta. unfold identify_extrema.
  pose proof (percentile_cases (Np.nan_to_num signal) (min_height_percentile cfg)) as Hp.
  destruct (Np.percentile _ _) as [h|[|]]; cbn [bind].
  - destruct Hp as [Hq Hne]. rewrite nan_to_num_empty in Hne.
    pose proof (find_peaks_cases (Np.nan_to_num signal) (min_distance cfg) h) as Hf.
    destruct (Scipy.find_peaks (Np.nan_to_num signal) _ _) as [mx|e]; cbn [bind].
    + pose proof (find_peaks_cases (map Qcopp (Np.nan_to_num signal))
                    (min_distance cfg) h) as Hf'.
      destruct (Scipy.find_peaks (map Qcopp _) _ _) as [mn|e]; cbn [bind].
      * unfold valid_detection. tauto.
      * destruct Hf' as [-> Hd]. lia.
    + destruct Hf as [-> Hd]. right. tauto.
  - now left.
  - destruct Hp as [Hq He]. rewrite nan_to_num_empty in He. tauto.
Qed.

End Monotone.

(** * Further properties of the automatic gating *)

Section GatedRange.
Local Open Scope Z_scope.
Import MatchingSpec.

Lemma rounded_half_between (m e : Z) :
  Z.min m e <= rounded_half (m + e) <= Z.max m e.
Proof. destruct (rounded_half_cases (m + e)) as [k Hk]. lia. Qed.

(** What [gated_indices] has computed when it returns. *)
Lemma gated_indices_pairs (cfg : config) (maxima_signal extrema_signal : list npfloat)
    (gated : list Z) :
  gated_indices cfg maxima_signal extrema_signal = Ok gated ->
  exists (ext1 mx1 ext2 mx2 : list Z) (pairs : list (Z * Z)) (remaining : list Z),
    identify_extrema cfg maxima_signal = Ok (ext1, mx1) /\
    identify_extrema cfg extrema_signal = Ok (ext2, mx2) /\
    greedy_matching (auto_gating_threshold cfg)
      (if both_extrema cfg then ext1 else mx1) ext2 pairs remaining /\
    gated = map (fun p => rounded_half (fst p + snd p)) pairs.
Proof.
  unfold gated_indices.
  destruct (identify_extrema cfg maxima_signal) as [[ext1 mx1]|e] eqn:E1; [|discriminate].
  destruct (identify_extrema cfg extrema_signal) as [[ext2 mx2]|e] eqn:E2; [|discriminate].
  cbn [bind fst snd].
  destruct (match_peaks_matching (auto_gating_threshold cfg)
              (if both_extrema cfg then ext1 else mx1) [] ext2)
    as (pairs & remaining & Hm & ->).
  cbn [bind fst app]. intros H. injection H as <-.
  exists ext1, mx1, ext2, mx2, pairs, remaining. auto.
Qed.

(** X12. Every gated index lies between a peak of the first signal and a
    peak of the second that are no further apart than the threshold. *)
Theorem gated_indices_between_peaks (cfg : config)
    (maxima_signal extrema_signal : list npfloat) (gated : list Z) :
  gated_indices cfg maxima_signal extrema_signal = Ok gated ->
  exists (ext1 mx1 ext2 mx2 : list Z),
    identify_extrema cfg maxima_signal = Ok (ext1, mx1) /\
    identify_extrema cfg extrema_signal = Ok (ext2, mx2) /\
    forall g, In g gated ->
      exists m e,
        In m (if both_extrema cfg then ext1 else mx1) /\ In e ext2 /\
        Z.abs (m - e) <= auto_gating_threshold cfg /\
        Z.min m e <= g <= Z.max m e.
Proof.
  intros H.
  destruct (gated_indices_pairs _ _ _ _ H)
    as (ext1 & mx1 & ext2 & mx2 & pairs & remaining & E1 & E2 & Hm & ->).
  exists ext1, mx1, ext2, mx2. split; [exact E1|]. split; [exact E2|].
  intros g Hg. apply in_map_iff in Hg. destruct Hg as ([m e] & <- & Hp).
  destruct (greedy_matching_members _ _ _ _ _ Hm _ Hp) as [H1 H2].
  pose proof (greedy_matching_within _ _ _ _ _ Hm _ Hp) as Hw.
  exists m, e. cbn [fst snd] in *. split; [exact H1|]. split; [exact H2|].
  split; [exact Hw | apply rounded_half_between].
Qed.

Lemma gated_indices_bounds (cfg : config)
    (maxima_signal extrema_signal : list npfloat) (gated : list Z) (g : Z) :
  gated_indices cfg maxima_signal extrema_signal = Ok gated -> In g gated ->
  1 <= g /\
  g + 2 <= Z.max (Z.of_nat (length maxima_signal)) (Z.of_nat (length extrema_signal)).
Proof.
  intros H Hg.
  destruct (gated_indices_pairs _ _ _ _ H)
    as (ext1 & mx1 & ext2 & mx2 & pairs & remaining & E1 & E2 & Hm & ->).
  destruct (identify_extrema_members _ _ _ _ E1) as [Hsub1 Hb1].
  destruct (identify_extrema_members _ _ _ _ E2) as [_ Hb2].
  apply in_map_iff in Hg. destruct Hg as ([m e] & <- & Hp).
  destruct (greedy_matching_members _ _ _ _ _ Hm _ Hp) as [H1 H2].
  cbn [fst snd] in *.
  assert (Hm1 : In m ext1) by (destruct (both_extrema cfg); auto).
  specialize (Hb1 _ Hm1). specialize (Hb2 _ H2).
  pose proof (rounded_half_between m e). lia.
Qed.

(** X13. A gated index is never the first or the last frame: it lies
    between 1 and [n - 2], where [n] is the length of the longer signal. *)
Theorem gated_indices_interior (cfg : config)
    (maxima_signal extrema_signal : list npfloat) (gated : list Z) :
  gated_indices cfg maxima_signal extrema_signal = Ok gated ->
  Forall (fun g =>
            1 <= g /\
            g + 2 <= Z.max (Z.of_nat (length maxima_signal))
                           (Z.of_nat (length extrema_signal)))
         gated.
Proof.
  intros H. apply Forall_forall. intros g Hg.
  now apply (gated_indices_bounds cfg maxima_signal extrema_signal gated g).
Qed.

End GatedRange.

Section GatedRangeWitnesses.
Local Open Scope Z_scope.

Lemma gated_indices_between_peaks_witness :
  exists (ext1 mx1 ext2 mx2 : list Z),
    identify_extrema (sample_config 3 50 2 2 true)
      (signal_of [0; 3; 0; -3; 0; 3; 0; -3; 0; 3; 0]) = Ok (ext1, mx1) /\
    identify_extrema (sample_config 3 50 2 2 true)
      (signal_of [0; 3; 0; -3; 0; 3; 0; -3; 0; 3; 0]) = Ok (ext2, mx2) /\
    forall g, In g [1; 3; 5; 7; 9] ->
      exists m e,
        In m ext1 /\ In e ext2 /\ Z.abs (m - e) <= 2 /\ Z.min m e <= g <= Z.max m e.
Proof.
  apply (gated_indices_between_peaks (sample_config 3 50 2 2 true)
           (signal_of [0; 3; 0; -3; 0; 3; 0; -3; 0; 3; 0])
           (signal_of [0; 3; 0; -3; 0; 3; 0; -3; 0; 3; 0]) [1; 3; 5; 7; 9]).
  vm_compute. reflexivity.
Defined.

Lemma gated_indices_interior_witness :
  Forall (fun g => 1 <= g /\ g + 2 <= Z.max 11 11) [1; 3; 5; 7; 9].
Proof.
  apply (gated_indices_interior (sample_config 3 50 2 2 true)
           (signal_of [0; 3; 0; -3; 0; 3; 0; -3; 0; 3; 0])
           (signal_of [0; 3; 0; -3; 0; 3; 0; -3; 0; 3; 0]) [1; 3; 5; 7; 9]).
  vm_compute. reflexivity.
Defined.

End GatedRangeWitnesses.

Section Halves.
Context {A : Type}.

Lemma every_second_cons (x : A) (l : list A) :
  Py.every_second (x :: l) = x :: Py.every_second (skipn 1 l).
Proof. destruct l; reflexivity. Qed.

Lemma every_second_perm (l : list A) :
  Permutation (Py.every_second l ++ Py.every_second (skipn 1 l)) l.
Proof.
  induction l as [|x l IH]; [constructor|].
  rewrite every_second_cons. change (skipn 1 (x :: l)) with l. cbn [app]. constructor.
  eapply Permutation_trans; [apply Permutation_app_comm | exact IH].
Qed.

Lemma every_second_lengths (l : list A) :
  (length (Py.every_second (skipn 1 l)) <= length (Py.every_second l)
   <= length (Py.every_second (skipn 1 l)) + 1)%nat.
Proof.
  induction l as [|x l IH]; [simpl; lia|].
  rewrite every_second_cons. change (skipn 1 (x :: l)) with l. cbn [length]. lia.
Qed.

End Halves.

Section Lookups.
Local Open Scope Z_scope.

Lemma lumen_area_of_cases (report_data : list report_row) (frame : Z) :
  match lumen_area_of report_data frame with
  | Ok area => In (frame, area) report_data
  | Raise e => e = IndexError /\ ~ In frame (map fst report_data)
  end.
Proof.
  unfold lumen_area_of.
  destruct (filter (fun row => fst row =? frame) report_data) as [|row rest] eqn:E.
  - split; [reflexivity|]. intros Hin. apply in_map_iff in Hin.
    destruct Hin as (row & <- & Hrow).
    assert (Hf : In row (filter (fun r => fst r =? fst row) report_data)).
    { apply filter_In. split; [exact Hrow | apply Z.eqb_refl]. }
    rewrite E in Hf. contradiction.
  - assert (Hf : In row (filter (fun r => fst r =? frame) report_data))
      by (rewrite E; now left).
    apply filter_In in Hf. destruct Hf as [Hin Heq]. apply Z.eqb_eq in Heq.
    subst frame. now destruct row.
Qed.

Lemma lumen_areas_cases (report_data : list report_row) (frames : list Z) :
  match Py.map_result (lumen_area_of report_data) frames with
  | Ok _ => forall f, In f frames -> In f (map fst report_data)
  | Raise e => e = IndexError /\ exists f, In f frames /\ ~ In f (map fst report_data)
  end.
Proof.
  induction frames as [|f frames IH]; cbn [Py.map_result].
  - intros f [].
  - pose proof (lumen_area_of_cases report_data f) as Hf.
    destruct (lumen_area_of report_data f) as [area|e]; cbn [bind].
    + destruct (Py.map_result (lumen_area_of report_data) frames) as [areas|e];
        cbn [bind].
      * intros g [<- | Hg]; [|now apply IH].
        apply in_map_iff. exists (f, area). auto.
      * destruct IH as [-> (g & Hg & Hno)]. split; [reflexivity|].
        exists g. split; [now right | exact Hno].
    + destruct Hf as [-> Hno]. split; [reflexivity|]. exists f. split; [now left | exact Hno].
Qed.

Lemma stamp_phases_total (label : string) (frames : list Z) (w : window) :
  Forall (fun f => 0 <= f < Z.of_nat (length (phases w))) frames ->
  exists w',
    stamp_phases label frames w = (Ok tt, w') /\
    gated_frames_dia w' = gated_frames_dia w /\
    gated_frames_sys w' = gated_frames_sys w /\
    length (phases w') = length (phases w).
Proof.
  revert w. induction frames as [|f frames IH]; intros w Hall.
  - exists w. simpl. unfold ret. auto.
  - inversion Hall as [|? ? Hf Hrest]; subst.
    cbn [stamp_phases]. unfold bindM, set_phase, Py.setitem.
    destruct (f <? 0) eqn:E; [apply Z.ltb_lt in E; lia|].
    destruct (Z.leb_spec 0 f) as [_|]; [|lia].
    destruct (Z.ltb_spec f (Z.of_nat (length (phases w)))) as [_|]; [|lia].
    cbn [andb].
    set (w1 := mkWindow _ _ _ _).
    destruct (IH w1) as (w' & E' & Hd & Hs & Hl).
    { unfold w1. cbn [phases]. now rewrite replace_nth_length. }
    exists w'. split; [exact E'|]. unfold w1 in *. cbn in Hd, Hs, Hl.
    rewrite replace_nth_length in Hl. auto.
Qed.

End Lookups.

Section GatingOutcome.
Local Open Scope Z_scope.

Lemma halves_cover (gated : list Z) (P : Z -> Prop) :
  Forall P gated ->
  Forall P (Py.every_second gated) /\ Forall P (Py.every_second (skipn 1 gated)).
Proof.
  intros H. rewrite !Forall_forall in *.
  split; intros f Hf; apply H; apply every_second_split; auto.
Qed.

Lemma stamp_both_total (dia sys : list Z) (w : window) :
  Forall (fun f => 0 <= f < Z.of_nat (length (phases w))) dia ->
  Forall (fun f => 0 <= f < Z.of_nat (length (phases w))) sys ->
  exists w',
    (w1 <~ get ;; stamp_phases "D" (gated_frames_dia w1) ;;;
     w2 <~ get ;; stamp_phases "S" (gated_frames_sys w2))
      (mkWindow dia sys (phases w) (log w)) = (Ok tt, w').
Proof.
  intros Hd Hs. unfold bindM at 1, get at 1. cbn [gated_frames_dia].
  unfold bindM at 1.
  destruct (stamp_phases_total "D" dia (mkWindow dia sys (phases w) (log w)) Hd)
    as (w1 & E1 & Hd1 & Hs1 & Hl1).
  rewrite E1. unfold bindM at 1, get at 1. rewrite Hs1. cbn [gated_frames_sys].
  cbn [phases] in Hl1.
  destruct (stamp_phases_total "S" sys w1) as (w2 & E2 & _).
  { now rewrite Hl1. }
  exists w2. exact E2.
Qed.

Lemma assign_phases_total (report_data : list report_row) (gated : list Z) (w : window) :
  Forall (fun f => 0 <= f < Z.of_nat (length (phases w))) gated ->
  (forall f, In f gated -> In f (map fst report_data)) ->
  exists w', assign_phases report_data gated w = (Ok tt, w').
Proof.
  intros Hrange Hrows. unfold assign_phases.
  destruct (halves_cover gated _ Hrange) as [Hr1 Hr2].
  set (first_half := Py.every_second gated) in *.
  set (second_half := Py.every_second (skipn 1 gated)) in *.
  unfold bindM at 1. unfold lift at 1.
  pose proof (lumen_areas_cases report_data first_half) as H1.
  destruct (Py.map_result (lumen_area_of report_data) first_half) as [a1|e].
  2:{ destruct H1 as [_ (f & Hf & Hno)]. exfalso. apply Hno, Hrows.
      apply every_second_split. now left. }
  unfold bindM at 1. unfold lift at 1.
  pose proof (lumen_areas_cases report_data second_half) as H2.
  destruct (Py.map_result (lumen_area_of report_data) second_half) as [a2|e].
  2:{ destruct H2 as [_ (f & Hf & Hno)]. exfalso. apply Hno, Hrows.
      apply every_second_split. now right. }
  destruct (NpFloat.gtb (py_sum a1) (py_sum a2)).
  - unfold bindM at 1 2. cbn. now apply stamp_both_total.
  - unfold bindM at 1 2. cbn. now apply stamp_both_total.
Qed.

(** X14. Automatic gating cannot fail on well-formed input: with a
    configuration the libraries accept, two signals that are not empty,
    a report that has a row for each frame number from 1 to [n - 2] and
    at least [n - 1] phase labels, where [n] is the length of the longer
    signal, [automatic_gating] returns. *)
Theorem automatic_gating_succeeds (cfg : config) (report_data : list report_row)
    (maxima_signal extrema_signal : list npfloat) (w : window) :
  valid_detection cfg ->
  maxima_signal <> [] -> extrema_signal <> [] ->
  (forall f, 1 <= f ->
     f + 2 <= Z.max (Z.of_nat (length maxima_signal)) (Z.of_nat (length extrema_signal)) ->
     In f (map fst report_data)) ->
  Z.max (Z.of_nat (length maxima_signal)) (Z.of_nat (length extrema_signal)) - 1
  <= Z.of_nat (length (phases w)) ->
  exists w', automatic_gating cfg report_data maxima_signal extrema_signal w = (Ok tt, w').
Proof.
  intros (H0 & H100 & Hd) Hne1 Hne2 Hrows Hlen.
  rewrite automatic_gating_run. cbv zeta.
  destruct (gated_indices cfg maxima_signal extrema_signal) as [gated|e] eqn:E.
  - pose proof (fun f => gated_indices_bounds _ _ _ _ f E) as Hin.
    apply assign_phases_total.
    + apply Forall_forall. intros f Hf. cbn [phases]. specialize (Hin f Hf). lia.
    + intros f Hf. specialize (Hin f Hf). apply Hrows; lia.
  - exfalso. unfold gated_indices in E.
    destruct (identify_extrema_total cfg maxima_signal H0 H100 Hd Hne1) as [[ext1 mx1] E1].
    destruct (identify_extrema_total cfg extrema_signal H0 H100 Hd Hne2) as [[ext2 mx2] E2].
    rewrite E1, E2 in E. cbn [bind fst snd] in E.
    destruct (match_peaks_matching (auto_gating_threshold cfg)
                (if both_extrema cfg then ext1 else mx1) [] ext2)
      as (pairs & remaining & _ & Em).
    rewrite Em in E. discriminate E.
Qed.

(** X15. When [automatic_gating] returns, the diastole frames and the
    systole frames together are the gated indices, each as often as it
    was gated, and the two sets differ in size by at most one. *)
Theorem automatic_gating_partition (cfg : config) (report_data : list report_row)
    (maxima_signal extrema_signal : list npfloat) (w w' : window) :
  automatic_gating cfg report_data maxima_signal extrema_signal w = (Ok tt, w') ->
  exists gated : list Z,
    gated_indices cfg maxima_signal extrema_signal = Ok gated /\
    Permutation (gated_frames_dia w' ++ gated_frames_sys w') gated /\
    (length (gated_frames_dia w') <= length (gated_frames_sys w') + 1)%nat /\
    (length (gated_frames_sys w') <= length (gated_frames_dia w') + 1)%nat.
Proof.
  rewrite automatic_gating_run. cbv zeta.
  destruct (gated_indices cfg maxima_signal extrema_signal) as [gated|e] eqn:E;
    [|discriminate].
  intros H. exists gated. split; [reflexivity|].
  apply assign_phases_spec in H; [|now apply (gated_indices_nonneg _ _ _ _ E)].
  cbv zeta in H. destruct H as (a1 & a2 & _ & _ & Hsets & _).
  pose proof (every_second_perm gated) as Hperm.
  pose proof (every_second_lengths gated) as Hlen.
  destruct (NpFloat.gtb (py_sum a1) (py_sum a2));
    injection Hsets as -> ->.
  - cbn [skipn] in *. split; [exact Hperm | lia].
  - cbn [skipn] in *. split; [|lia].
    eapply Permutation_trans; [apply Permutation_app_comm | exact Hperm].
Qed.

(** X16. If a gated index has no row in the report, [automatic_gating]
    raises [IndexError] before anything is assigned: the gated frames and
    the phase labels are as they were, and only the log has grown by the
    message of the peak detection. *)
Theorem automatic_gating_missing_row (cfg : config) (report_data : list report_row)
    (maxima_signal extrema_signal : list npfloat) (w : window)
    (gated : list Z) (f : Z) :
  gated_indices cfg maxima_signal extrema_signal = Ok gated ->
  In f gated -> ~ In f (map fst report_data) ->
  exists message : string,
    automatic_gating cfg report_data maxima_signal extrema_signal w
    = (Raise IndexError,
       mkWindow (gated_frames_dia w) (gated_frames_sys w) (phases w)
                (log w ++ [message])).
Proof.
  intros E Hf Hno. rewrite automatic_gating_run. cbv zeta. rewrite E.
  eexists. unfold assign_phases.
  set (first_half := Py.every_second gated) in *.
  set (second_half := Py.every_second (skipn 1 gated)) in *.
  unfold bindM at 1. unfold lift at 1.
  pose proof (lumen_areas_cases report_data first_half) as H1.
  destruct (Py.map_result (lumen_area_of report_data) first_half) as [a1|e].
  2:{ destruct H1 as [-> _]. reflexivity. }
  unfold bindM at 1. unfold lift at 1.
  pose proof (lumen_areas_cases report_data second_half) as H2.
  destruct (Py.map_result (lumen_area_of report_data) second_half) as [a2|e].
  2:{ destruct H2 as [-> _]. reflexivity. }
  exfalso. apply Hno. apply every_second_split in Hf.
  destruct Hf as [Hf | Hf]; [now apply H1 | now apply H2].
Qed.

End GatingOutcome.

Section GatingOutcomeWitnesses.
Local Open Scope Z_scope.

Lemma automatic_gating_succeeds_witness :
  exists w',
    automatic_gating (sample_config 3 50 2 2 true)
      (report_of [0; 1; 4; 9; 16; 25; 36; 49; 64; 81; 100])
      (signal_of [0; 3; 0; -3; 0; 3; 0; -3; 0; 3; 0])
      (signal_of [0; 3; 0; -3; 0; 3; 0; -3; 0; 3; 0])
      (fresh_window 11)
    = (Ok tt, w').
Proof.
  apply (automatic_gating_succeeds (sample_config 3 50 2 2 true)
           (report_of [0; 1; 4; 9; 16; 25; 36; 49; 64; 81; 100])
           (signal_of [0; 3; 0; -3; 0; 3; 0; -3; 0; 3; 0])
           (signal_of [0; 3; 0; -3; 0; 3; 0; -3; 0; 3; 0])
           (fresh_window 11)).
  - split; [|split]; vm_compute; discriminate.
  - discriminate.
  - discriminate.
  - intros f H1 H2. change (f + 2 <= 11) in H2.
    vm_compute. lia.
  - vm_compute. discriminate.
Defined.

Lemma automatic_gating_partition_witness :
  exists gated : list Z,
    gated_indices (sample_config 3 50 2 2 true)
      (signal_of [0; 3; 0; -3; 0; 3; 0; -3; 0; 3; 0])
      (signal_of [0; 3; 0; -3; 0; 3; 0; -3; 0; 3; 0]) = Ok gated /\
    Permutation ([1; 5; 9] ++ [3; 7]) gated /\
    (length [1; 5; 9] <= length [3; 7] + 1)%nat /\
    (length [3; 7] <= length [1; 5; 9] + 1)%nat.
Proof.
  apply (automatic_gating_partition (sample_config 3 50 2 2 true)
           (report_of [0; 1; 4; 9; 16; 25; 36; 49; 64; 81; 100])
           (signal_of [0; 3; 0; -3; 0; 3; 0; -3; 0; 3; 0])
           (signal_of [0; 3; 0; -3; 0; 3; 0; -3; 0; 3; 0])
           (fresh_window 11)
           (mkWindow [1; 5; 9] [3; 7]
              ["-"; "D"; "-"; "S"; "-"; "D"; "-"; "S"; "-"; "D"; "-"]%string
              ["Extrema peak detection according to config.yaml"%string])).
  vm_compute. reflexivity.
Defined.

Lemma automatic_gating_missing_row_witness :
  exists message : string,
    automatic_gating (sample_config 3 50 2 2 true) (report_of [5; 6])
      (signal_of [0; 3; 0; -3; 0; 3; 0; -3; 0; 3; 0])
      (signal_of [0; 3; 0; -3; 0; 3; 0; -3; 0; 3; 0])
      (fresh_window 11)
    = (Raise IndexError, mkWindow [] [] (repeat "-"%string 11) ([] ++ [message])).
Proof.
  apply (automatic_gating_missing_row (sample_config 3 50 2 2 true) (report_of [5; 6])
           (signal_of [0; 3; 0; -3; 0; 3; 0; -3; 0; 3; 0])
           (signal_of [0; 3; 0; -3; 0; 3; 0; -3; 0; 3; 0])
           (fresh_window 11) [1; 3; 5; 7; 9] 3).
  - vm_compute. reflexivity.
  - simpl. auto.
  - vm_compute. intros [H | [H | []]]; discriminate H.
Defined.

End GatingOutcomeWitnesses.

(** * Further properties of the signal fusion *)

Section Weights.
Local Open Scope Qc_scope.
Import SignalSpec.

Lemma Qcmult_pos (a b : Qc) : 0 < a -> 0 < b -> 0 < a * b.
Proof.
  intros Ha Hb. rewrite <- (Qcmult_0_l b). now apply Qcmult_lt_compat_r.
Qed.

End Weights.

Section NaNVariability.

Lemma add_nan_r (a : npfloat) : NpFloat.add a NaN = NaN.
Proof. now destruct a. Qed.

Lemma mul_nan_r (a : npfloat) : NpFloat.mul a NaN = NaN.
Proof. now destruct a. Qed.

Lemma div_nan_r (a : npfloat) : NpFloat.div a NaN = NaN.
Proof. now destruct a. Qed.

Lemma fold_add_nan (l : list npfloat) : fold_left NpFloat.add l NaN = NaN.
Proof. induction l as [|a l IH]; simpl; auto. Qed.

Lemma np_sum_nan (l : list npfloat) : In NaN l -> Np.sum l = NaN.
Proof.
  unfold Np.sum. generalize NpFloat.zero.
  induction l as [|a l IH]; intros acc Hin; [contradiction|].
  simpl. destruct Hin as [-> | Hin].
  - rewrite add_nan_r. apply fold_add_nan.
  - now apply IH.
Qed.

Lemma signal_weights_nan (variability : list npfloat) :
  In NaN variability ->
  signal_weights variability = map (fun _ => NaN) variability.
Proof.
  intros Hin. unfold signal_weights. rewrite (np_sum_nan _ Hin).
  apply map_ext. intros v. now rewrite div_nan_r.
Qed.

Lemma iadd_nan_term (combined term out : list npfloat) :
  iadd combined term = Ok out -> Forall (eq NaN) term -> Forall (eq NaN) out.
Proof.
  unfold iadd. destruct (length term =? length combined)%nat.
  - intros H Ht. injection H as <-. rewrite Forall_forall in *.
    intros y Hy. apply in_map_iff in Hy. destruct Hy as ([a b] & <- & Hab).
    cbn [fst snd]. rewrite <- (Ht b); [now rewrite add_nan_r|].
    eapply in_combine_r; eauto.
  - destruct term as [|x [|? ?]]; try discriminate.
    intros H Ht. injection H as <-. unfold Np.add_scalar.
    rewrite Forall_forall in *. intros y Hy.
    apply in_map_iff in Hy. destruct Hy as (a & <- & Ha).
    rewrite <- (Ht x); [now rewrite add_nan_r | now left].
Qed.

Lemma iadd_keeps_nan (combined term out : list npfloat) :
  iadd combined term = Ok out -> Forall (eq NaN) combined -> Forall (eq NaN) out.
Proof.
  unfold iadd. destruct (length term =? length combined)%nat.
  - intros H Hc. injection H as <-. rewrite Forall_forall in *.
    intros y Hy. apply in_map_iff in Hy. destruct Hy as ([a b] & <- & Hab).
    cbn [fst snd]. rewrite <- (Hc a); [reflexivity|].
    eapply in_combine_l; eauto.
  - destruct term as [|x [|? ?]]; try discriminate.
    intros H Hc. injection H as <-. unfold Np.add_scalar.
    rewrite Forall_forall in *. intros y Hy.
    apply in_map_iff in Hy. destruct Hy as (a & <- & Ha).
    rewrite <- (Hc a); [reflexivity | exact Ha].
Qed.

Lemma accumulate_keeps_nan (weights : list npfloat) (signals : list (list npfloat))
    (i : nat) (combined out : list npfloat) :
  accumulate weights i signals combined = Ok out ->
  Forall (eq NaN) combined -> Forall (eq NaN) out.
Proof.
  revert i combined. induction signals as [|s signals IH]; intros i combined; simpl.
  - intros H. now injection H as <-.
  - destruct (nth_error weights i) as [w|]; [|discriminate].
    destruct (iadd combined (Np.mul_scalar s w)) as [c|e] eqn:E; [|discriminate].
    simpl. intros H Hc. eapply IH; eauto. eapply iadd_keeps_nan; eauto.
Qed.

Lemma accumulate_nan_weights (n : nat) (signals : list (list npfloat))
    (i : nat) (combined out : list npfloat) :
  signals <> [] ->
  accumulate (repeat NaN n) i signals combined = Ok out ->
  Forall (eq NaN) out.
Proof.
  destruct signals as [|s signals]; [contradiction|]. intros _. simpl.
  destruct (nth_error (repeat NaN n) i) as [w|] eqn:Ew; [|discriminate].
  assert (w = NaN).
  { apply nth_error_In in Ew. now apply repeat_spec in Ew. }
  subst w.
  destruct (iadd combined (Np.mul_scalar s NaN)) as [c|e] eqn:E; [|discriminate].
  simpl. intros H. eapply accumulate_keeps_nan; eauto.
  eapply iadd_nan_term; eauto.
  unfold Np.mul_scalar. apply Forall_forall. intros y Hy.
  apply in_map_iff in Hy. destruct Hy as (a & <- & _). now rewrite mul_nan_r.
Qed.

Lemma map_result_in {A B : Type} (f : A -> result B) (l : list A) (ys : list B)
    (x : A) (y : B) :
  Py.map_result f l = Ok ys -> In x l -> f x = Ok y -> In y ys.
Proof.
  revert ys. induction l as [|a l IH]; intros ys H Hin Hx; [contradiction|].
  cbn [Py.map_result] in H.
  destruct (f a) as [b|e] eqn:Ea; [|discriminate]. cbn [bind] in H.
  destruct (Py.map_result f l) as [bs|e]; [|discriminate]. cbn [bind] in H.
  injection H as <-. destruct Hin as [-> | Hin].
  - left. congruence.
  - right. now apply IH.
Qed.

Lemma diff_short (l : list Z) : (length l <= 1)%nat -> Np.diff l = [].
Proof. destruct l as [|a [|b l]]; simpl; auto; lia. Qed.

(** X18. One signal with fewer than two extrema is enough to lose the
    whole composite: the standard deviation of no gaps at all is NaN, the
    sum of the variabilities is then NaN, every weight is NaN, and every
    element of the combined signal and of its unfiltered counterpart is
    NaN. *)
Theorem combined_signal_few_extrema (np_std : list Z -> npfloat) (cfg : config)
    (maxima_only : bool) (signal_list signal_list_nor : list (list npfloat))
    (signal smoothed : list npfloat) (found : list Z * list Z)
    (combined combined_nor : list npfloat) :
  np_std [] = NaN ->
  In signal signal_list ->
  smooth_curve cfg signal = Ok smoothed ->
  identify_extrema cfg smoothed = Ok found ->
  (length (if maxima_only then snd found else fst found) <= 1)%nat ->
  combined_signal np_std cfg signal_list maxima_only signal_list_nor
  = Ok (combined, combined_nor) ->
  Forall (eq NaN) combined /\
  (signal_list_nor <> [] -> Forall (eq NaN) combined_nor).
Proof.
  intros Hstd Hin Hsm Hfound Hlen. unfold combined_signal.
  destruct (signal_variability np_std cfg maxima_only signal_list)
    as [variability|e] eqn:Ev; [|discriminate].
  cbn [bind].
  assert (Hnan : In NaN variability).
  { unfold signal_variability in Ev.
    destruct (Py.map_result (smooth_curve cfg) signal_list) as [sms|e] eqn:E1;
      [|discriminate].
    cbn [bind] in Ev.
    destruct (Py.map_result _ sms) as [exts|e] eqn:E2; [|discriminate].
    cbn [bind] in Ev. injection Ev as <-.
    pose proof (map_result_in _ _ _ _ _ E1 Hin Hsm) as Hs.
    assert (Hx : In (if maxima_only then snd found else fst found) exts).
    { eapply map_result_in; [exact E2 | exact Hs|].
      cbv beta. rewrite Hfound. reflexivity. }
    apply in_map_iff. eexists. split; [|exact Hx].
    now rewrite (diff_short _ Hlen). }
  rewrite (signal_weights_nan _ Hnan).
  replace (map (fun _ => NaN) variability) with (repeat NaN (length variability)).
  2:{ clear. induction variability; simpl; congruence. }
  destruct signal_list as [|first rest]; [contradiction|].
  destruct (accumulate _ 0 (first :: rest) _) as [c|e] eqn:Ec; [|discriminate].
  cbn [bind].
  destruct (accumulate _ 0 signal_list_nor _) as [cn|e] eqn:Ecn; [|discriminate].
  cbn [bind]. intros H. injection H as <- <-. split.
  - eapply accumulate_nan_weights; [|exact Ec]. discriminate.
  - intros Hne. eapply accumulate_nan_weights; eauto.
Qed.

Lemma combined_signal_few_extrema_witness :
  let curves :=
    curves_of
      (combined_signal Np.std (sample_config 1 50 1 5 true)
         [irregular_signal; signal_of [0; 0; 0; 0; 0; 0; 0; 0; 0; 0; 0]%Z] true
         [irregular_signal; regular_signal]) in
  Forall (eq NaN) (fst curves) /\
  ([irregular_signal; regular_signal] <> [] -> Forall (eq NaN) (snd curves)).
Proof.
  apply (combined_signal_few_extrema Np.std (sample_config 1 50 1 5 true) true
           [irregular_signal; signal_of [0; 0; 0; 0; 0; 0; 0; 0; 0; 0; 0]%Z]
           [irregular_signal; regular_signal]
           (signal_of [0; 0; 0; 0; 0; 0; 0; 0; 0; 0; 0]%Z)
           (signal_of [0; 0; 0; 0; 0; 0; 0; 0; 0; 0; 0]%Z)
           ([], [])).
  - reflexivity.
  - right. now left.
  - np_compute.
  - vm_compute. reflexivity.
  - simpl. lia.
  - vm_compute. reflexivity.
Defined.

End NaNVariability.

Section Scaling.
Local Open Scope Qc_scope.
Import SignalSpec.

End Scaling.

Section FusionShape.

Lemma iadd_shape (combined term out : list npfloat) :
  iadd combined term = Ok out ->
  length term = length combined \/ length term = 1%nat.
Proof.
  unfold iadd. destruct (Nat.eqb_spec (length term) (length combined)) as [E|_]; [auto|].
  destruct term as [|x [|? ?]]; try discriminate. auto.
Qed.

Lemma accumulate_shape (weights : list npfloat) (signals : list (list npfloat))
    (i : nat) (combined out : list npfloat) :
  accumulate weights i signals combined = Ok out ->
  Forall (fun s => length s = length combined \/ length s = 1%nat) signals /\
  (signals <> [] -> i + length signals <= length weights)%nat.
Proof.
  revert i combined. induction signals as [|s signals IH]; intros i combined; simpl.
  - intros _. split; [constructor | congruence].
  - destruct (nth_error weights i) as [w|] eqn:Ew; [|discriminate].
    destruct (iadd combined (Np.mul_scalar s w)) as [c|e] eqn:E; [|discriminate].
    cbn [bind]. intros H.
    pose proof (iadd_shape _ _ _ E) as Hs. pose proof (iadd_length _ _ _ E) as Hc.
    unfold Np.mul_scalar in Hs. rewrite length_map in Hs.
    destruct (IH _ _ H) as [Hall Hlen]. rewrite Hc in Hall.
    split; [now constructor|]. intros _.
    assert (Hi : (i < length weights)%nat).
    { apply nth_error_Some. congruence. }
    destruct signals as [|s' signals]; [simpl; lia|].
    specialize (Hlen ltac:(discriminate)). simpl in *. lia.
Qed.

(** X20. What must hold for [combined_signal] to return: the window size
    is positive, the configuration is one the detection accepts, the
    first signal is not empty, every signal of the group and every
    unfiltered signal has the length of the first one (or a single
    sample), and there are no more unfiltered signals than signals.  Both
    arrays returned then have the length of the first signal. *)
Theorem combined_signal_shape (np_std : list Z -> npfloat) (cfg : config)
    (maxima_only : bool) (signal_list signal_list_nor : list (list npfloat))
    (combined combined_nor : list npfloat) :
  combined_signal np_std cfg signal_list maxima_only signal_list_nor
  = Ok (combined, combined_nor) ->
  exists first rest,
    signal_list = first :: rest /\ first <> [] /\
    (0 < window_size cfg)%Z /\ valid_detection cfg /\
    length combined = length first /\ length combined_nor = length first /\
    Forall (fun s => length s = length first \/ length s = 1%nat) signal_list /\
    Forall (fun s => length s = length first \/ length s = 1%nat) signal_list_nor /\
    (length signal_list_nor <= length signal_list)%nat.
Proof.
  unfold combined_signal.
  destruct (signal_variability np_std cfg maxima_only signal_list)
    as [variability|e] eqn:Ev; [|discriminate].
  cbn [bind].
  destruct signal_list as [|first rest]; [discriminate|].
  destruct (accumulate _ 0 (first :: rest) _) as [c|e] eqn:Ec; [|discriminate].
  cbn [bind].
  destruct (accumulate _ 0 signal_list_nor _) as [cn|e] eqn:Ecn; [|discriminate].
  cbn [bind]. intros H. injection H as <- <-.
  pose proof (signal_variability_length _ _ _ _ _ Ev) as Hlen.
  exists first, rest. split; [reflexivity|].
  unfold signal_variability in Ev. cbn [Py.map_result] in Ev.
  assert (Hsm : forall sm, smooth_curve cfg first = Ok sm ->
                  (0 < window_size cfg)%Z /\ first <> []).
  { unfold smooth_curve. intros sm.
    destruct (window_size cfg <=? 0)%Z eqn:Ew; [discriminate|].
    apply Z.leb_gt in Ew. destruct first; [discriminate|].
    intros _. split; [exact Ew | discriminate]. }
  destruct (smooth_curve cfg first) as [sm|e]; [|discriminate]. cbn [bind] in Ev.
  specialize (Hsm sm eq_refl).
  destruct (Py.map_result (smooth_curve cfg) rest) as [sms|e]; [|discriminate].
  cbn [bind Py.map_result] in Ev.
  destruct (identify_extrema cfg sm) as [found|e] eqn:Ef; [|discriminate].
  destruct Hsm as (Hw & Hfirst).
  split; [exact Hfirst|]. split; [exact Hw|].
  split; [now apply (identify_extrema_valid cfg sm found)|].
  pose proof (accumulate_length _ _ _ _ _ Ec) as Lc.
  pose proof (accumulate_length _ _ _ _ _ Ecn) as Lcn.
  rewrite repeat_length in Lc, Lcn.
  destruct (accumulate_shape _ _ _ _ _ Ec) as [Sc _].
  destruct (accumulate_shape _ _ _ _ _ Ecn) as [Scn Bn].
  rewrite repeat_length in Sc, Scn.
  repeat split; auto.
  destruct signal_list_nor as [|s nor]; [simpl; lia|].
  specialize (Bn ltac:(discriminate)).
  unfold signal_weights in Bn. rewrite length_map, Hlen in Bn. simpl in *. lia.
Qed.

Lemma combined_signal_shape_witness :
  let cfg := sample_config 1 50 1 5 true in
  let curves :=
    curves_of (combined_signal Np.std cfg [regular_signal; irregular_signal] true
                 [regular_signal; irregular_signal]) in
  exists first rest,
    [regular_signal; irregular_signal] = first :: rest /\ first <> [] /\
    (0 < window_size cfg)%Z /\ valid_detection cfg /\
    length (fst curves) = length first /\ length (snd curves) = length first /\
    Forall (fun s => length s = length first \/ length s = 1%nat)
           [regular_signal; irregular_signal] /\
    Forall (fun s => length s = length first \/ length s = 1%nat)
           [regular_signal; irregular_signal] /\
    (length [regular_signal; irregular_signal]
     <= length [regular_signal; irregular_signal])%nat.
Proof.
  apply (combined_signal_shape Np.std (sample_config 1 50 1 5 true) true
           [regular_signal; irregular_signal] [regular_signal; irregular_signal]).
  vm_compute. reflexivity.
Defined.

End FusionShape.

(** * Properties of the frame range and of the missing-frame message *)

Section MissingFrames.
Local Open Scope Z_scope.

Lemma strict_sorted_unique (l1 l2 : list Z) :
  StronglySorted Z.lt l1 -> StronglySorted Z.lt l2 ->
  (forall n, In n l1 <-> In n l2) -> l1 = l2.
Proof.
  intros H1. revert l2. induction H1 as [|a l1 Hs1 IH Ha]; intros l2 H2 Hmem.
  - destruct l2 as [|b l2]; [reflexivity|].
    exfalso. apply (Hmem b). now left.
  - destruct H2 as [|b l2 Hs2 Hb].
    { exfalso. apply (Hmem a). now left. }
    rewrite Forall_forall in Ha, Hb.
    assert (a = b).
    { assert (Hab : In a (b :: l2)) by (apply Hmem; now left).
      assert (Hba : In b (a :: l1)) by (apply Hmem; now left).
      destruct Hab as [-> | Hab]; [reflexivity|].
      destruct Hba as [-> | Hba]; [reflexivity|].
      specialize (Ha _ Hba). specialize (Hb _ Hab). lia. }
    subst b. f_equal. apply IH; [exact Hs2|].
    intros n. split; intros Hn.
    + assert (Hin : In n (a :: l2)) by (apply Hmem; now right).
      destruct Hin as [<- | Hin]; [|exact Hin].
      specialize (Ha _ Hn). lia.
    + assert (Hin : In n (a :: l1)) by (apply Hmem; now right).
      destruct Hin as [<- | Hin]; [|exact Hin].
      specialize (Hb _ Hn). lia.
Qed.

Lemma sorted_set_members (a b : list Z) :
  (forall n, In n a <-> In n b) ->
  Py.sorted Z.leb (Py.set a) = Py.sorted Z.leb (Py.set b).
Proof.
  intros Hmem. apply strict_sorted_unique.
  - apply sorted_strict, NoDup_nodup.
  - apply sorted_strict, NoDup_nodup.
  - intros n. unfold Py.set. split; intros Hn.
    + apply (Permutation_in _ (sorted_perm _ _)) in Hn. apply nodup_In in Hn.
      apply (Permutation_in _ (Permutation_sym (sorted_perm _ _))).
      apply nodup_In. now apply Hmem.
    + apply (Permutation_in _ (sorted_perm _ _)) in Hn. apply nodup_In in Hn.
      apply (Permutation_in _ (Permutation_sym (sorted_perm _ _))).
      apply nodup_In. now apply Hmem.
Qed.

(** X21. The message depends only on which frame numbers are missing:
    two lists with the same members, in any order and with any
    repetitions, are rendered as the same text. *)
Theorem connect_consecutive_frames_members (a b : list Z) :
  (forall n, In n a <-> In n b) ->
  connect_consecutive_frames a = connect_consecutive_frames b.
Proof.
  intros Hmem. unfold connect_consecutive_frames.
  now rewrite (sorted_set_members a b Hmem).
Qed.

Lemma connect_consecutive_frames_members_witness :
  connect_consecutive_frames [20; 13; 12; 14; 15; 12]
  = connect_consecutive_frames [12; 13; 14; 15; 20].
Proof.
  apply (connect_consecutive_frames_members [20; 13; 12; 14; 15; 12] [12; 13; 14; 15; 20]).
  intros n. simpl. lia.
Defined.

Lemma py_range_spec (a b f : Z) : In f (py_range a b) <-> a <= f < b.
Proof.
  unfold py_range. rewrite in_map_iff. split.
  - intros (k & <- & Hk). apply in_seq in Hk. lia.
  - intros Hf. exists (Z.to_nat (f - a)). split; [lia|]. apply in_seq. lia.
Qed.

Lemma py_range_NoDup (a b : Z) : NoDup (py_range a b).
Proof.
  unfold py_range. apply Finite.Injective_map_NoDup; [|apply seq_NoDup].
  intros x y H. lia.
Qed.

Lemma py_range_length (a b : Z) : length (py_range a b) = Z.to_nat (b - a).
Proof. unfold py_range. now rewrite length_map, length_seq. Qed.

Lemma missing_frames_spec (report_data : list report_row) (lower_limit upper_limit f : Z) :
  In f (missing_frames report_data lower_limit upper_limit) <->
  lower_limit < f <= upper_limit /\ ~ In f (map fst report_data).
Proof.
  unfold missing_frames. rewrite filter_In, py_range_spec, negb_true_iff.
  split; intros [Hr Hno]; (split; [lia|]).
  - intros Hin. assert (E : existsb (Z.eqb f) (map fst report_data) = true).
    { apply existsb_exists. exists f. split; [exact Hin | apply Z.eqb_refl]. }
    congruence.
  - destruct (existsb (Z.eqb f) (map fst report_data)) eqn:E; [|reflexivity].
    exfalso. apply Hno. apply existsb_exists in E. destruct E as (g & Hg & Eg).
    apply Z.eqb_eq in Eg. now subst g.
Qed.

(** X22. Let the rows of the report have distinct frame numbers, all
    within the range [lower_limit + 1 .. upper_limit].  Then the length
    test of [define_intramural_part] is exact: the method accepts the
    range if and only if no frame of the range lacks a row, [x] is then
    the frame column and holds every frame number of the range, and
    otherwise the error text names the missing frames, of which there is
    at least one. *)
Theorem define_intramural_part_exact (images : list image) (lower_limit upper_limit : Z)
    (report_data : list report_row) :
  lower_limit <= upper_limit ->
  NoDup (map fst report_data) ->
  (forall f, In f (map fst report_data) -> lower_limit < f <= upper_limit) ->
  let missing := missing_frames report_data lower_limit upper_limit in
  match define_intramural_part images (Some (lower_limit, upper_limit))
          (fun _ _ => Some report_data) with
  | Accepted frames x =>
      missing = [] /\ x = map fst report_data /\
      frames = py_slice images lower_limit upper_limit /\
      forall f, lower_limit < f <= upper_limit <-> In f x
  | Rejected message =>
      missing <> [] /\
      message
      = Some ("Please add contours to frames " ++ connect_consecutive_frames missing)%string
  end.
Proof.
  intros Hle Hnd Hin missing. unfold define_intramural_part.
  set (range := py_range (lower_limit + 1) (upper_limit + 1)).
  assert (Hrange : forall f, In f range <-> lower_limit < f <= upper_limit).
  { intros f. unfold range. rewrite py_range_spec. lia. }
  assert (Hlen : length range = Z.to_nat (upper_limit - lower_limit)).
  { unfold range. rewrite py_range_length. f_equal. lia. }
  assert (Hincl : incl (map fst report_data) range).
  { intros f Hf. apply Hrange. now apply Hin. }
  pose proof (NoDup_incl_length Hnd Hincl) as Hshort.
  rewrite (length_map fst report_data) in Hshort.
  destruct (Z.eqb_spec (Z.of_nat (length report_data)) (upper_limit - lower_limit))
    as [E | E]; cbn [negb].
  - assert (Hall : incl range (map fst report_data)).
    { apply NoDup_length_incl; [exact Hnd | | exact Hincl].
      rewrite (length_map fst report_data), Hlen, <- E, Nat2Z.id. apply le_n. }
    split; [|split; [reflexivity|split; [reflexivity|]]].
    + destruct missing as [|f rest] eqn:Em; [reflexivity|]. exfalso.
      assert (Hf : In f missing) by (rewrite Em; now left).
      apply missing_frames_spec in Hf. destruct Hf as [Hf Hno].
      apply Hno, Hall, Hrange. exact Hf.
    + intros f. split; intros Hf; [apply Hall, Hrange; exact Hf | now apply Hin].
  - split; [|reflexivity]. intros Em.
    assert (Hall : incl range (map fst report_data)).
    { intros f Hf.
      destruct (in_dec Z.eq_dec f (map fst report_data)) as [Hyes | Hno]; [exact Hyes|].
      exfalso. assert (Hm : In f missing).
      { apply missing_frames_spec. split; [now apply Hrange | exact Hno]. }
      rewrite Em in Hm. contradiction. }
    pose proof (NoDup_incl_length (py_range_NoDup _ _) Hall) as Hlong.
    fold range in Hlong. rewrite (length_map fst report_data), Hlen in Hlong.
    rewrite Hlen in Hshort. clear - E Hle Hlong Hshort. unfold report_row in *. lia.
Qed.

Lemma define_intramural_part_exact_witness :
  let report_data :=
    [(1, NpFloat.of_Z 7); (2, NpFloat.of_Z 8); (4, NpFloat.of_Z 9)] in
  let missing := missing_frames report_data 0 5 in
  match define_intramural_part [] (Some (0, 5)) (fun _ _ => Some report_data) with
  | Accepted frames x =>
      missing = [] /\ x = map fst report_data /\
      frames = py_slice [] 0 5 /\
      forall f, 0 < f <= 5 <-> In f x
  | Rejected message =>
      missing <> [] /\
      message
      = Some ("Please add contours to frames " ++ connect_consecutive_frames missing)%string
  end.
Proof.
  apply (define_intramural_part_exact [] 0 5
           [(1, NpFloat.of_Z 7); (2, NpFloat.of_Z 8); (4, NpFloat.of_Z 9)]).
  - lia.
  - simpl. repeat constructor; simpl; lia.
  - simpl. lia.
Defined.

End MissingFrames.

Section CorrelationSignal.
Local Open Scope Qc_scope.
Import SignalSpec.

Variable corrcoef : list npfloat -> list npfloat -> npfloat.

Lemma calculate_correlation_length (frames : list image) :
  length (calculate_correlation corrcoef frames) = Nat.max 1 (length frames).
Proof.
  unfold calculate_correlation. rewrite length_app, length_map, length_seq.
  cbn [length]. lia.
Qed.

Lemma nan_array (l : list npfloat) : map (fun _ => NaN) l = repeat NaN (length l).
Proof. induction l; simpl; congruence. Qed.

(** X23. If the correlation of one frame with the next is NaN (as for a
    frame of a single grey value), the normalised correlation signal is
    NaN at every frame. *)
Theorem correlation_nan_everywhere (frames : list image) (i : nat) :
  (S i < length frames)%nat ->
  corrcoef (ravel (nth i frames [])) (ravel (nth (i + 1) frames [])) = NaN ->
  normalize_data (calculate_correlation corrcoef frames)
  = Ok (repeat NaN (length frames)).
Proof.
  intros Hi Hnan.
  assert (Hin : In NaN (calculate_correlation corrcoef frames)).
  { unfold calculate_correlation. apply in_or_app. left.
    apply in_map_iff. exists i. split; [exact Hnan|]. apply in_seq. lia. }
  unfold normalize_data. rewrite (np_min_nan _ Hin). cbn [bind]. f_equal.
  replace (length frames) with (length (calculate_correlation corrcoef frames))
    by (rewrite calculate_correlation_length; lia).
  rewrite <- nan_array. unfold Np.div_scalar, Np.sub_scalar. rewrite map_map.
  apply map_ext. intros x. now rewrite sub_nan_r.
Qed.

Lemma calculate_correlation_finite (frames : list image) (cs : list Qc) :
  length frames = S (length cs) ->
  (forall i, (i < length cs)%nat ->
     corrcoef (ravel (nth i frames [])) (ravel (nth (i + 1) frames []))
     = Fin (nth i cs 0)) ->
  calculate_correlation corrcoef frames = map Fin (cs ++ [0]).
Proof.
  intros Hlen Hc. unfold calculate_correlation.
  rewrite Hlen, map_app. f_equal.
  replace (S (length cs) - 1)%nat with (length cs) by lia.
  rewrite (map_ext_in _ (fun i => Fin (nth i cs 0))).
  2:{ intros i Hi. apply in_seq in Hi. apply Hc. lia. }
  rewrite <- (map_map (fun i => nth i cs 0) Fin).
  rewrite map_nth_seq by lia. cbn [skipn]. now rewrite firstn_all.
Qed.

Lemma qsum_app (a b : list Qc) : qsum (a ++ b) = qsum a + qsum b.
Proof. induction a as [|x a IH]; simpl; [ring|]. rewrite IH. ring. Qed.

(** X24. The 0 that [calculate_correlation] appends takes part in the
    normalisation.  When all the correlations are positive it is the
    minimum, so [normalize_data] subtracts nothing: each correlation is
    only divided by the sum of the correlations, and the last entry of
    the normalised signal is 0. *)
Theorem correlation_normalized_by_sum (frames : list image) (cs : list Qc) :
  cs <> [] ->
  length frames = S (length cs) ->
  (forall i, (i < length cs)%nat ->
     corrcoef (ravel (nth i frames [])) (ravel (nth (i + 1) frames []))
     = Fin (nth i cs 0)) ->
  Forall (fun c => 0 < c) cs ->
  normalize_data (calculate_correlation corrcoef frames)
  = Ok (map (fun c => Fin (c / qsum cs)) cs ++ [Fin 0]).
Proof.
  intros Hne Hlen Hc Hpos.
  rewrite (calculate_correlation_finite frames cs Hlen Hc).
  rewrite Forall_forall in Hpos.
  assert (Hmin : is_minimum 0 (cs ++ [0])).
  { split; [apply in_or_app; right; now left|].
    intros x Hx. apply in_app_or in Hx. destruct Hx as [Hx | [<- | []]].
    - apply Qclt_le_weak. now apply Hpos.
    - apply Qcle_refl. }
  assert (Hnc : nonconstant_signal (cs ++ [0])).
  { destruct cs as [|c cs']; [contradiction|]. exists c, 0.
    split; [now left|]. split; [apply in_or_app; right; now left|].
    apply Qc_pos_neq. apply Hpos. now left. }
  rewrite (normalize_data_nonconstant _ 0 Hnc Hmin). f_equal.
  unfold normalized. rewrite qsum_sub_zero, qsum_app.
  replace (qsum cs + qsum [0]) with (qsum cs) by (simpl; ring).
  rewrite !map_app, map_map. cbn [map]. f_equal.
  - apply map_ext. intros c. now replace (c - 0) with c by ring.
  - f_equal. f_equal. unfold Qcdiv. ring.
Qed.

End CorrelationSignal.

Section CorrelationWitnesses.
Local Open Scope Qc_scope.

Lemma correlation_nan_everywhere_witness :
  normalize_data
    (calculate_correlation np_corrcoef
       [row_frame [0; 2; 4]%Z; row_frame [2; 2; 2]%Z; row_frame [0; 1; 2]%Z])
  = Ok (repeat NaN 3).
Proof.
  apply (correlation_nan_everywhere np_corrcoef
           [row_frame [0; 2; 4]%Z; row_frame [2; 2; 2]%Z; row_frame [0; 1; 2]%Z] 0).
  - simpl. lia.
  - vm_compute. reflexivity.
Defined.

Lemma correlation_normalized_by_sum_witness :
  normalize_data
    (calculate_correlation np_corrcoef
       [row_frame [0; 2; 4]%Z; row_frame [0; 4; 8]%Z; row_frame [0; 1; 2]%Z])
  = Ok (map (fun c => Fin (c / SignalSpec.qsum [1; 1])) [1; 1] ++ [Fin 0]).
Proof.
  apply (correlation_normalized_by_sum np_corrcoef
           [row_frame [0; 2; 4]%Z; row_frame [0; 4; 8]%Z; row_frame [0; 1; 2]%Z]
           [1; 1]).
  - discriminate.
  - reflexivity.
  - intros i Hi. destruct i as [|[|i]]; [np_compute | np_compute | simpl in Hi; lia].
  - repeat constructor.
Defined.

End CorrelationWitnesses.

Section Cropping.
Local Open Scope nat_scope.

Lemma in_slice {A : Type} (l : list A) (i j : nat) (x : A) :
  In x (Py.slice l i j) -> In x l.
Proof.
  unfold Py.slice. intros Hx.
  rewrite <- (firstn_skipn i l). apply in_or_app. right.
  rewrite <- (firstn_skipn (j - i) (skipn i l)). apply in_or_app. now left.
Qed.

Lemma py_slice_nonneg {A : Type} (l : list A) (i j : Z) :
  (0 <= i)%Z -> (0 <= j)%Z ->
  py_slice l i j
  = Py.slice l (Nat.min (Z.to_nat i) (length l)) (Nat.min (Z.to_nat j) (length l)).
Proof.
  intros Hi Hj. unfold py_slice.
  destruct (Z.ltb_spec i 0); [lia|]. destruct (Z.ltb_spec j 0); [lia|].
  f_equal; lia.
Qed.

Lemma py_slice_length {A : Type} (l : list A) (i j : Z) :
  (0 <= i)%Z -> (0 <= j)%Z ->
  length (py_slice l i j) = Nat.min (Z.to_nat j) (length l) - Z.to_nat i.
Proof.
  intros Hi Hj. rewrite py_slice_nonneg by assumption.
  unfold Py.slice. rewrite length_firstn, length_skipn. lia.
Qed.

Lemma py_slice_nth {A : Type} (l : list A) (i j : Z) (k : nat) (d : A) :
  (0 <= i)%Z -> (0 <= j)%Z ->
  k < Nat.min (Z.to_nat j) (length l) - Z.to_nat i ->
  nth k (py_slice l i j) d = nth (Z.to_nat i + k) l d.
Proof.
  intros Hi Hj Hk. rewrite py_slice_nonneg by assumption.
  unfold Py.slice. rewrite nth_firstn.
  destruct (Nat.ltb_spec k
              (Nat.min (Z.to_nat j) (length l) - Nat.min (Z.to_nat i) (length l)));
    [|lia].
  rewrite nth_skipn. f_equal. lia.
Qed.

(** X25. [crop_frames] on frames of [H] rows and [W] columns keeps every
    frame and cuts each to the rows from [x1] to [x2 - 1] and the
    columns from [y1] to [y2 - 1]: pixel [(r, c)] of a cropped frame is
    pixel [(x1 + r, y1 + c)] of the frame.  Where the frames are smaller
    than the bounds the result is cut short (it can be empty), and
    nothing is raised. *)
Theorem crop_frames_region (frames : list image) (x1 x2 y1 y2 : Z) (H W : nat) :
  (0 <= x1)%Z -> (0 <= x2)%Z -> (0 <= y1)%Z -> (0 <= y2)%Z ->
  Forall (fun frame => length frame = H /\ Forall (fun row => length row = W) frame)
         frames ->
  let h := Nat.min (Z.to_nat x2) H - Z.to_nat x1 in
  let w := Nat.min (Z.to_nat y2) W - Z.to_nat y1 in
  let cropped := crop_frames frames x1 x2 y1 y2 in
  length cropped = length frames /\
  Forall (fun frame => length frame = h /\ Forall (fun row => length row = w) frame)
         cropped /\
  forall k r c, k < length frames -> r < h -> c < w ->
    nth c (nth r (nth k cropped []) []) NaN
    = nth (Z.to_nat y1 + c) (nth (Z.to_nat x1 + r) (nth k frames []) []) NaN.
Proof.
  intros Hx1 Hx2 Hy1 Hy2 Hshape h w cropped. unfold cropped, crop_frames.
  rewrite Forall_forall in Hshape.
  split; [apply length_map|]. split.
  - apply Forall_forall. intros f Hf. apply in_map_iff in Hf.
    destruct Hf as (frame & <- & Hframe). destruct (Hshape _ Hframe) as [HH HW].
    split.
    + rewrite length_map, py_slice_length by assumption. now rewrite HH.
    + apply Forall_forall. intros row Hrow. apply in_map_iff in Hrow.
      destruct Hrow as (row0 & <- & Hrow0).
      rewrite py_slice_length by assumption.
      assert (E : length row0 = W); [|now rewrite E].
      rewrite Forall_forall in HW. apply HW.
      rewrite py_slice_nonneg in Hrow0 by assumption.
      now apply in_slice in Hrow0.
  - intros k r c Hk Hr Hc.
    set (crop := fun frame : image => map (fun row => py_slice row y1 y2) (py_slice frame x1 x2)).
    fold (map crop frames).
    rewrite (nth_indep (map crop frames) [] (crop [])) by (now rewrite length_map).
    rewrite (map_nth crop frames [] k).
    assert (Hin : In (nth k frames []) frames) by now apply nth_In.
    destruct (Hshape _ Hin) as [HH HW]. unfold crop.
    assert (Hr' : r < length (py_slice (nth k frames []) x1 x2)).
    { rewrite py_slice_length by assumption. now rewrite HH. }
    rewrite (nth_indep _ [] (py_slice [] y1 y2)) by (now rewrite length_map).
    rewrite (map_nth (fun row => py_slice row y1 y2)).
    rewrite (py_slice_nth (nth k frames [])) by (try assumption; now rewrite HH).
    assert (Hrow : length (nth (Z.to_nat x1 + r) (nth k frames []) []) = W).
    { rewrite Forall_forall in HW. apply HW. apply nth_In. rewrite HH. lia. }
    rewrite py_slice_nth by (try assumption; now rewrite Hrow). reflexivity.
Qed.

Lemma crop_frames_region_witness :
  let frames := [[signal_of [1; 2; 3]%Z; signal_of [4; 5; 6]%Z]] in
  let cropped := crop_frames frames 1 450 1 450 in
  length cropped = length frames /\
  Forall (fun frame => length frame = 1 /\ Forall (fun row => length row = 2) frame)
         cropped /\
  forall k r c, k < length frames -> r < 1 -> c < 2 ->
    nth c (nth r (nth k cropped []) []) NaN
    = nth (1 + c) (nth (1 + r) (nth k frames []) []) NaN.
Proof.
  apply (crop_frames_region [[signal_of [1; 2; 3]%Z; signal_of [4; 5; 6]%Z]]
           1 450 1 450 2 3); try lia.
  repeat constructor.
Defined.

End Cropping.

(** * Properties of the markers and of the mouse handlers *)

Section Lines.

Lemma get_line_update (st : markers) (id id' : nat) (f : line -> line) :
  (id < length (lines st))%nat ->
  get_line (update_line st id f) id'
  = if (id' =? id)%nat then f (get_line st id) else get_line st id'.
Proof.
  intros Hid. unfold get_line at 1, update_line. cbn [lines].
  now rewrite replace_nth_nth.
Qed.

Lemma lines_update_length (st : markers) (id : nat) (f : line -> line) :
  length (lines (update_line st id f)) = length (lines st).
Proof. unfold update_line. cbn [lines]. apply replace_nth_length. Qed.

(** A change of one line that keeps its position and makes no listed
    line dashed other than the selected one keeps the markers consistent. *)
Lemma update_line_consistent (st : markers) (id : nat) (f : line -> line) :
  markers_consistent st ->
  (forall l, line_xdata l <> None -> line_xdata (f l) <> None) ->
  (forall l, line_linestyle (f l) = Dashed ->
     line_linestyle l = Dashed \/ selected_line st = Some id) ->
  markers_consistent (update_line st id f).
Proof.
  intros (Ha & Hnd & Hb & Hc) Hx Hs.
  destruct (Nat.lt_ge_cases id (length (lines st))) as [Hid | Hid].
  - split; [exact Ha|]. split; [exact Hnd|]. split.
    + intros id' Hin. rewrite lines_update_length, get_line_update by exact Hid.
      destruct (Hb _ Hin) as [Hlt Hxd]. split; [exact Hlt|].
      destruct (Nat.eqb_spec id' id) as [->|_]; [now apply Hx | exact Hxd].
    + intros id' Hin. rewrite get_line_update by exact Hid.
      cbn [selected_line update_line].
      destruct (Nat.eqb_spec id' id) as [->|_]; [|now apply Hc].
      intros Hd. destruct (Hs _ Hd) as [Hd' | Hsel]; [now apply Hc | exact Hsel].
  - assert (E : update_line st id f = st).
    { unfold update_line. destruct st as [ls vs sel cp tp cs]. cbn. f_equal.
      clear - Hid. cbn in Hid. revert id Hid.
      induction ls as [|l ls IH]; intros id Hid; [now destruct id|].
      destruct id as [|id]; [simpl in Hid; lia|].
      cbn. f_equal. apply IH. simpl in Hid. lia. }
    rewrite E. repeat split; auto; now apply Hb.
Qed.

Lemma reset_highlights_consistent (st : markers) :
  markers_consistent st ->
  markers_consistent (reset_highlights st) /\
  selected_line (reset_highlights st) = None /\
  vertical_lines (reset_highlights st) = vertical_lines st /\
  (forall id, In id (vertical_lines st) ->
     line_xdata (get_line (reset_highlights st) id) = line_xdata (get_line st id)).
Proof.
  intros Hc. unfold reset_highlights.
  destruct (selected_line st) as [id|] eqn:Esel.
  2:{ split; [exact Hc|]. split; [exact Esel|]. split; [reflexivity|]. reflexivity. }
  destruct Hc as (Ha & Hnd & Hb & Hd).
  pose proof (Ha _ Esel) as Hin. destruct (Hb _ Hin) as [Hlt _].
  split; [|split; [reflexivity|split; [reflexivity|]]].
  - split; [intros id' H'; discriminate H'|]. split; [exact Hnd|]. split.
    + intros id' Hin'. cbn [lines set_selected_line].
      rewrite lines_update_length.
      change (get_line (set_selected_line None ?s) id') with (get_line s id').
      rewrite get_line_update by exact Hlt.
      destruct (Hb _ Hin') as [Hlt' Hx]. split; [exact Hlt'|].
      now destruct (Nat.eqb_spec id' id) as [->|_].
    + intros id' Hin'.
      change (get_line (set_selected_line None ?s) id') with (get_line s id').
      rewrite get_line_update by exact Hlt.
      destruct (Nat.eqb_spec id' id) as [->|Hne]; [discriminate|].
      intros Hdash. specialize (Hd _ Hin' Hdash). congruence.
  - intros id' Hin'.
    change (get_line (set_selected_line None ?s) id') with (get_line s id').
    rewrite get_line_update by exact Hlt.
    now destruct (Nat.eqb_spec id' id) as [->|_].
Qed.

(** A state with the same lines, list and selection. *)
Lemma same_marks_consistent (st st' : markers) :
  lines st' = lines st -> vertical_lines st' = vertical_lines st ->
  selected_line st' = selected_line st ->
  markers_consistent st -> markers_consistent st'.
Proof.
  intros El Ev Es. unfold markers_consistent, get_line. now rewrite El, Ev, Es.
Qed.

Lemma record_call_consistent (c : call) (st : markers) :
  markers_consistent st -> markers_consistent (record_call c st).
Proof. now apply same_marks_consistent. Qed.

Lemma set_tmp_phase_consistent (p : option phase) (st : markers) :
  markers_consistent st -> markers_consistent (set_tmp_phase p st).
Proof. now apply same_marks_consistent. Qed.

Lemma begin_toggle_consistent (w : window) (v : Z) (set_dia set_sys : bool)
    (st : markers) :
  markers_consistent st -> markers_consistent (begin_toggle w v set_dia set_sys st).
Proof.
  intros Hc. unfold begin_toggle.
  destruct (_ || set_dia); [|destruct (_ || set_sys)];
    repeat first [apply record_call_consistent | apply set_tmp_phase_consistent];
    exact Hc.
Qed.

Lemma append_line_consistent (x : Qc) (color : string) (st : markers) :
  markers_consistent st ->
  markers_consistent (snd (append_line x color st)) /\
  selected_line (snd (append_line x color st)) = selected_line st /\
  In (fst (append_line x color st)) (vertical_lines (snd (append_line x color st))).
Proof.
  intros (Ha & Hnd & Hb & Hd). unfold append_line. cbn [fst snd].
  assert (Hold : forall id, (id < length (lines st))%nat ->
            get_line (mkMarkers (lines st ++ [mkLine (Some x) color DefaultLinestyle])
                        (vertical_lines st ++ [length (lines st)]) (selected_line st)
                        (current_phase st) (tmp_phase st) (calls st)) id
            = get_line st id).
  { intros id Hid. unfold get_line. cbn [lines]. now rewrite app_nth1. }
  assert (Hnew : get_line (mkMarkers (lines st ++ [mkLine (Some x) color DefaultLinestyle])
                        (vertical_lines st ++ [length (lines st)]) (selected_line st)
                        (current_phase st) (tmp_phase st) (calls st)) (length (lines st))
                 = mkLine (Some x) color DefaultLinestyle).
  { unfold get_line. cbn [lines]. rewrite app_nth2 by lia.
    now rewrite Nat.sub_diag. }
  assert (Hfresh : ~ In (length (lines st)) (vertical_lines st)).
  { intros Hin. destruct (Hb _ Hin). lia. }
  split; [|split; [reflexivity | cbn [vertical_lines]; apply in_or_app; right; now left]].
  split; [|split; [|split]]; cbn [vertical_lines selected_line lines].
  - intros id Hs. apply in_or_app. left. now apply Ha.
  - apply NoDup_app; [exact Hnd | repeat constructor; simpl; tauto |].
    intros id Hin [<- | []]. now apply Hfresh.
  - intros id Hin. rewrite length_app. cbn [length].
    apply in_app_or in Hin. destruct Hin as [Hin | [<- | []]].
    + destruct (Hb _ Hin) as [Hlt Hx]. rewrite Hold by exact Hlt.
      split; [lia | exact Hx].
    + rewrite Hnew. split; [lia | discriminate].
  - intros id Hin. apply in_app_or in Hin. destruct Hin as [Hin | [<- | []]].
    + destruct (Hb _ Hin) as [Hlt _]. rewrite Hold by exact Hlt. now apply Hd.
    + rewrite Hnew. discriminate.
Qed.

Lemma select_line_consistent (id : nat) (st : markers) :
  markers_consistent st -> selected_line st = None -> In id (vertical_lines st) ->
  markers_consistent (select_line id st) /\
  selected_line (select_line id st) = Some id /\
  vertical_lines (select_line id st) = vertical_lines st.
Proof.
  intros (Ha & Hnd & Hb & Hd) Hsel Hin. unfold select_line.
  split; [|split; reflexivity].
  apply update_line_consistent.
  - split; [|split; [exact Hnd|split; [exact Hb|]]]; cbn [selected_line set_selected_line
                                                             vertical_lines].
    + intros id' E. injection E as <-. exact Hin.
    + intros id' Hin' Hdash.
      change (get_line (set_selected_line (Some id) st) id') with (get_line st id') in Hdash.
      specialize (Hd _ Hin' Hdash). congruence.
  - intros l Hl. exact Hl.
  - intros l _. right. reflexivity.
Qed.

Lemma distances_total (st : markers) (ids : list nat) (x : Qc) :
  (forall id, In id ids -> line_xdata (get_line st id) <> None) ->
  exists ds, distances st ids x = Some ds /\ length ds = length ids.
Proof.
  induction ids as [|id ids IH]; intros Hx; [exists []; auto|].
  cbn [distances].
  destruct (line_xdata (get_line st id)) as [lx|] eqn:El.
  2:{ exfalso. apply (Hx id); [now left | exact El]. }
  destruct IH as (ds & -> & Hlen); [intros id' H'; apply Hx; now right|].
  eexists. split; [reflexivity|]. simpl. now rewrite Hlen.
Qed.

Lemma argmin_from_position (best : Qc) (best_at start : nat) (ds : list Qc) :
  let position := snd (argmin_from best best_at start ds) in
  position = best_at \/ (start <= position < start + length ds)%nat.
Proof.
  revert best best_at start. induction ds as [|d ds IH]; intros best best_at start.
  - left. reflexivity.
  - cbn [argmin_from]. destruct (NpFloat.Qc_ltb d best).
    + destruct (IH d start (S start)) as [E | H]; right; cbn [length]; lia.
    + destruct (IH best best_at (S start)) as [E | H]; [now left|].
      right. cbn [length]. lia.
Qed.

Lemma nearest_line_consistent (n_frames : nat) (st : markers) (x : Qc) :
  markers_consistent st ->
  exists found,
    nearest_line n_frames st x = Done found /\
    forall id, found = Some id -> In id (vertical_lines st).
Proof.
  intros (_ & _ & Hb & _). unfold nearest_line.
  destruct (distances_total st (vertical_lines st) x) as (ds & -> & Hlen).
  { intros id Hin. now apply Hb. }
  destruct ds as [|d ds]; [exists None; split; [reflexivity | discriminate]|].
  pose proof (argmin_from_position d 0 1 ds) as Hp.
  destruct (argmin_from d 0 1 ds) as [smallest position]. cbn [snd] in Hp.
  destruct (NpFloat.Qc_ltb smallest _).
  - eexists. split; [reflexivity|]. intros id E. injection E as <-.
    apply nth_In. cbn [length] in Hlen. lia.
  - exists None. split; [reflexivity | discriminate].
Qed.

End Lines.

Section Handlers.

Lemma on_click_consistent (n_frames : nat) (w : window) (dc sc : string)
    (event : mouse_event) (st : markers) :
  markers_consistent st -> event_consistent event ->
  exists st',
    on_click n_frames w dc sc event st = Done st' /\ markers_consistent st'.
Proof.
  intros Hc He. unfold on_click.
  destruct (negb (cursor_shape event =? 0)%Z); [eauto|].
  destruct (left_button event && inaxes event) eqn:Eb; [|eauto].
  apply andb_true_iff in Eb. destruct Eb as [_ Hin].
  destruct (reset_highlights_consistent st Hc) as (Hc0 & Hsel0 & _ & _).
  set (st0 := reset_highlights st) in *.
  destruct (xdata event) as [x|] eqn:Ex.
  2:{ exfalso. apply He in Hin. now apply Hin. }
  destruct (nearest_line_consistent n_frames st0 x Hc0) as (found & -> & Hfound).
  destruct found as [id|].
  - specialize (Hfound id eq_refl).
    destruct Hc0 as (Ha & Hnd & Hb & Hd).
    destruct (Hb _ Hfound) as [_ Hx].
    destruct (line_xdata (get_line st0 id)) as [position|]; [|contradiction].
    eexists. split; [reflexivity|].
    apply begin_toggle_consistent.
    now apply select_line_consistent.
  - unfold new_line_for_phase.
    destruct (match current_phase st0 with
              | Some Diastole => (dc, true, false)
              | Some Systole => (sc, false, true)
              | None => ("grey"%string, false, false)
              end) as [[color set_dia] set_sys].
    destruct (append_line_consistent x color st0 Hc0) as (Hc1 & Hsel1 & Hin1).
    destruct (append_line x color st0) as [id st1]. cbn [fst snd] in *.
    eexists. split; [reflexivity|].
    apply begin_toggle_consistent.
    apply select_line_consistent; [exact Hc1 | congruence | exact Hin1].
Qed.

Lemma remove_first_spec (id : nat) (ids : list nat) :
  In id ids -> NoDup ids ->
  exists rest,
    remove_first id ids = Some rest /\
    (forall i, In i rest <-> In i ids /\ i <> id) /\
    NoDup rest /\ length ids = S (length rest).
Proof.
  induction ids as [|i ids IH]; intros Hin Hnd; [contradiction|].
  inversion Hnd as [|? ? Hni Hnd']; subst. cbn [remove_first].
  destruct (Nat.eqb_spec i id) as [-> | Hne].
  - exists ids. split; [reflexivity|]. split; [|split; [exact Hnd' | reflexivity]].
    intros j. split.
    + intros Hj. split; [now right|]. intros ->. contradiction.
    + intros [[<- | Hj] Hne]; [contradiction | exact Hj].
  - destruct Hin as [E | Hin]; [contradiction|].
    destruct (IH Hin Hnd') as (rest & -> & Hmem & Hnd'' & Hlen).
    exists (i :: rest). split; [reflexivity|]. split; [|split].
    + intros j. cbn [In]. rewrite Hmem. split.
      * intros [<- | [Hj Hn]]; [split; [now left | exact Hne] | split; [now right | exact Hn]].
      * intros [[<- | Hj] Hn]; [now left | right; now split].
    + constructor; [|exact Hnd'']. intros Hi. apply Hmem in Hi. tauto.
    + cbn [length]. now rewrite Hlen.
Qed.

Lemma on_motion_consistent (event : mouse_event) (st : markers) :
  markers_consistent st ->
  exists st', on_motion event st = Done st' /\ markers_consistent st'.
Proof.
  intros Hc. unfold on_motion.
  destruct (negb (cursor_shape event =? 0)%Z); [eauto|].
  destruct (left_button event); [|eauto].
  destruct (selected_line st) as [id|] eqn:Esel; [|eauto].
  destruct (xdata event) as [x|].
  - eexists. split; [reflexivity|]. apply record_call_consistent.
    apply update_line_consistent; [exact Hc | discriminate | auto].
  - destruct Hc as (Ha & Hnd & Hb & Hd).
    pose proof (Ha _ Esel) as Hin. destruct (Hb _ Hin) as [Hlt _].
    change (vertical_lines (update_line st id (set_xdata None)))
      with (vertical_lines st).
    destruct (remove_first_spec id (vertical_lines st) Hin Hnd)
      as (rest & -> & Hmem & Hnd' & _).
    eexists. split; [reflexivity|].
    set (st1 := update_line st id (set_xdata None)).
    assert (Hget : forall id', id' <> id ->
              get_line (mkMarkers (lines st1) rest None (current_phase st1) None
                                  (calls st1)) id'
              = get_line st id').
    { intros id' Hne.
      change (get_line (mkMarkers (lines st1) rest None (current_phase st1) None
                                  (calls st1)) id')
        with (get_line st1 id').
      unfold st1. rewrite get_line_update by exact Hlt.
      now destruct (Nat.eqb_spec id' id). }
    split; [|split; [|split]]; cbn [selected_line vertical_lines lines].
    + discriminate.
    + exact Hnd'.
    + intros id' Hin'. apply Hmem in Hin'. destruct Hin' as [Hin' Hne].
      unfold st1 at 1. rewrite lines_update_length, Hget by exact Hne.
      now apply Hb.
    + intros id' Hin'. apply Hmem in Hin'. destruct Hin' as [Hin' Hne].
      rewrite Hget by exact Hne.
      intros Hdash. specialize (Hd _ Hin' Hdash). congruence.
Qed.

Lemma on_release_consistent (event : mouse_event) (st : markers) :
  markers_consistent st -> markers_consistent (on_release event st).
Proof.
  intros Hc. unfold on_release.
  destruct (negb (cursor_shape event =? 0)%Z); [exact Hc|].
  apply set_tmp_phase_consistent.
  destruct (left_button event && inaxes event); [|exact Hc].
  destruct (tmp_phase st) as [[|]|]; [| |exact Hc];
    now repeat apply record_call_consistent.
Qed.

Lemma draw_existing_lines_consistent (x frames : list Z) (color : string)
    (st : markers) :
  markers_consistent st -> markers_consistent (draw_existing_lines x frames color st).
Proof.
  unfold draw_existing_lines.
  generalize (filter (fun frame => existsb (Z.eqb frame) (map (fun v => (v - 1)%Z) x))
                     frames).
  intros l. revert st. induction l as [|f l IH]; intros st Hc; [exact Hc|].
  cbn [fold_left]. apply IH. now apply append_line_consistent.
Qed.

Lemma update_color_consistent (color : option string) (st : markers) :
  markers_consistent st -> markers_consistent (update_color color st).
Proof.
  intros Hc. unfold update_color.
  destruct (selected_line st); [|exact Hc].
  apply update_line_consistent; auto.
Qed.

(** X26. The handlers keep the markers consistent: as long as the
    selected line is one of the vertical lines, every vertical line has a
    position and is listed once, and no vertical line but the selected
    one is dashed, this is still so after [on_click], [on_motion],
    [on_release], [draw_existing_lines], [update_color] and
    [reset_highlights]; and on such markers [on_click] and [on_motion]
    raise nothing, also when a line is dragged out of the axes. *)
Theorem handlers_keep_markers_consistent (n_frames : nat) (w : window)
    (diastole_color_plt systole_color_plt : string) (x frames : list Z)
    (color : string) (chosen : option string) (event : mouse_event) (st : markers) :
  markers_consistent st -> event_consistent event ->
  (exists st',
     on_click n_frames w diastole_color_plt systole_color_plt event st = Done st' /\
     markers_consistent st') /\
  (exists st', on_motion event st = Done st' /\ markers_consistent st') /\
  markers_consistent (on_release event st) /\
  markers_consistent (draw_existing_lines x frames color st) /\
  markers_consistent (update_color chosen st) /\
  markers_consistent (reset_highlights st).
Proof.
  intros Hc He.
  split; [now apply on_click_consistent|].
  split; [now apply on_motion_consistent|].
  split; [now apply on_release_consistent|].
  split; [now apply draw_existing_lines_consistent|].
  split; [now apply update_color_consistent|].
  now apply reset_highlights_consistent.
Qed.

End Handlers.

Section ClickOnMarker.
Local Open Scope Qc_scope.

Lemma abs_difference_nonneg (lx x : Qc) : 0 <= abs_difference lx x.
Proof.
  unfold abs_difference. cbv zeta.
  destruct (NpFloat.Qc_ltb (lx - x) 0) eqn:E.
  - apply Qc_ltb_lt in E. apply Qclt_le_weak.
    apply Qcopp_lt_reg. now replace (- - (lx - x)) with (lx - x) by ring.
  - now apply Qc_ltb_ge in E.
Qed.

Lemma abs_difference_zero (lx x : Qc) : abs_difference lx x = 0 <-> lx = x.
Proof.
  unfold abs_difference. cbv zeta. split.
  - destruct (NpFloat.Qc_ltb (lx - x) 0); intros E.
    + replace lx with (x - - (lx - x)) by ring. rewrite E. ring.
    + replace lx with (x + (lx - x)) by ring. rewrite E. ring.
  - intros ->. replace (x - x) with 0 by ring. reflexivity.
Qed.

Lemma distances_nth (st : markers) (ids : list nat) (x : Qc) (ds : list Qc) :
  distances st ids x = Some ds ->
  length ds = length ids /\
  forall k, (k < length ids)%nat ->
    exists lx,
      line_xdata (get_line st (nth k ids O)) = Some lx /\
      nth k ds 0 = abs_difference lx x.
Proof.
  revert ds. induction ids as [|id ids IH]; intros ds H.
  - injection H as <-. split; [reflexivity|]. intros k Hk. simpl in Hk. lia.
  - cbn [distances] in H.
    destruct (line_xdata (get_line st id)) as [lx|] eqn:El; [|discriminate].
    destruct (distances st ids x) as [ds'|]; [|discriminate].
    injection H as <-. destruct (IH ds' eq_refl) as [Hlen Hnth].
    split; [simpl; now rewrite Hlen|].
    intros [|k] Hk; [exists lx; auto|].
    apply Hnth. simpl in Hk. lia.
Qed.

Lemma argmin_from_min (best : Qc) (best_at start : nat) (ds : list Qc) :
  let (smallest, position) := argmin_from best best_at start ds in
  smallest <= best /\ (forall d, In d ds -> smallest <= d) /\
  ((smallest = best /\ position = best_at) \/
   exists k, (k < length ds)%nat /\ position = (start + k)%nat /\ smallest = nth k ds 0).
Proof.
  revert best best_at start. induction ds as [|d ds IH]; intros best best_at start.
  - cbn. split; [apply Qcle_refl|]. split; [intros d []|]. now left.
  - cbn [argmin_from]. destruct (NpFloat.Qc_ltb d best) eqn:E.
    + apply Qc_ltb_lt in E. specialize (IH d start (S start)).
      destruct (argmin_from d start (S start) ds) as [m p].
      destruct IH as (Hle & Hall & Hpos).
      split; [apply Qclt_le_weak; eapply Qcle_lt_trans; eauto|].
      split; [intros d' [<- | Hd']; auto|].
      right. destruct Hpos as [[-> ->] | (k & Hk & -> & ->)].
      * exists O. cbn [length nth]. split; [lia|]. split; [lia | reflexivity].
      * exists (S k). cbn [length nth]. split; [lia|]. split; [lia | reflexivity].
    + apply Qc_ltb_ge in E. specialize (IH best best_at (S start)).
      destruct (argmin_from best best_at (S start) ds) as [m p].
      destruct IH as (Hle & Hall & Hpos).
      split; [exact Hle|].
      split; [intros d' [<- | Hd']; [eapply Qcle_trans; eauto | auto]|].
      destruct Hpos as [H | (k & Hk & -> & ->)]; [now left|].
      right. exists (S k). cbn [length nth]. split; [lia|]. split; [lia | reflexivity].
Qed.

Lemma threshold_positive (n_frames : nat) :
  (0 < n_frames)%nat -> 0 < Q2Qc (inject_Z (Z.of_nat n_frames)) / Q2Qc 100.
Proof.
  intros Hn. unfold Qcdiv. apply Qcmult_pos; [|reflexivity].
  unfold Qclt. cbn [this Q2Qc]. rewrite !Qred_correct.
  unfold Qlt, inject_Z. cbn [Qnum Qden]. lia.
Qed.

Lemma inject_Z_succ (k : Z) :
  Q2Qc (inject_Z (k + 1)) - 1 = Q2Qc (inject_Z k).
Proof.
  apply Qc_is_canon. unfold Qcminus, Qcplus, Qcopp. cbn [this Q2Qc].
  rewrite !Qred_correct. unfold Qeq, Qplus, Qopp, inject_Z. cbn [Qnum Qden]. lia.
Qed.

Lemma py_round_of_Z (k : Z) : py_round (Q2Qc (inject_Z k)) = k.
Proof.
  unfold py_round. rewrite floor_of_Z.
  replace (Q2Qc (inject_Z k) - Q2Qc (inject_Z k)) with 0 by ring.
  reflexivity.
Qed.

(** The line that a click at [x] selects when a vertical line stands
    exactly at [x]: a line of the list at [x]. *)
Lemma nearest_line_exact (n_frames : nat) (st : markers) (x : Qc) (id : nat) :
  markers_consistent st -> (0 < n_frames)%nat ->
  In id (vertical_lines st) -> line_xdata (get_line st id) = Some x ->
  exists chosen,
    nearest_line n_frames st x = Done (Some chosen) /\
    In chosen (vertical_lines st) /\
    line_xdata (get_line st chosen) = Some x.
Proof.
  intros (_ & _ & Hb & _) Hn Hin Hx. unfold nearest_line.
  destruct (distances_total st (vertical_lines st) x) as (ds & Eds & Hlen).
  { intros id' Hin'. now apply Hb. }
  rewrite Eds. destruct (distances_nth _ _ _ _ Eds) as [_ Hnth].
  destruct (In_nth _ _ O Hin) as (k & Hk & Ek).
  assert (Hzero : nth k ds 0 = 0).
  { destruct (Hnth k Hk) as (lx & El & ->). rewrite Ek, Hx in El.
    injection El as <-. now apply abs_difference_zero. }
  assert (Hnonneg : forall j, (j < length ds)%nat -> 0 <= nth j ds 0).
  { intros j Hj. destruct (Hnth j ltac:(lia)) as (lx & _ & ->).
    apply abs_difference_nonneg. }
  destruct ds as [|d ds]; [simpl in Hlen; lia|].
  pose proof (argmin_from_min d 0 1 ds) as Hmin.
  destruct (argmin_from d 0 1 ds) as [smallest position].
  destruct Hmin as (Hle & Hall & Hpos).
  assert (Hpick : (position < length (d :: ds))%nat /\ smallest = nth position (d :: ds) 0).
  { destruct Hpos as [[-> ->] | (j & Hj & -> & ->)]; cbn [length nth]; split;
      try lia; reflexivity. }
  destruct Hpick as [Hp Epick].
  assert (Hsmall : smallest = 0).
  { apply Qcle_antisym.
    - rewrite <- Hzero. destruct k as [|k]; [exact Hle|]. cbn [nth].
      apply Hall. apply nth_In. cbn [length] in Hlen. lia.
    - rewrite Epick. now apply Hnonneg. }
  pose proof (threshold_positive n_frames Hn) as Hthr.
  rewrite Hsmall. apply Qc_ltb_lt in Hthr. rewrite Hthr.
  eexists. split; [reflexivity|]. split; [apply nth_In; lia|].
  destruct (Hnth position ltac:(lia)) as (lx & El & Ed).
  rewrite El. f_equal. apply abs_difference_zero. congruence.
Qed.

(** X27. A click exactly on the marker of frame [frame], which stands at
    [frame + 1]: no line is added; a line at that position is selected
    and dashed; the slider is sent back to [frame]; and if the frame is
    a gated diastole frame a diastole toggle is pending. *)
Theorem on_click_marker_round_trip (n_frames : nat) (w : window)
    (diastole_color_plt systole_color_plt : string) (event : mouse_event)
    (st : markers) (id : nat) (frame : Z) :
  markers_consistent st -> (0 < n_frames)%nat ->
  cursor_shape event = 0%Z -> left_button event = true -> inaxes event = true ->
  xdata event = Some (Q2Qc (inject_Z (frame + 1))) ->
  In id (vertical_lines st) ->
  line_xdata (get_line st id) = Some (Q2Qc (inject_Z (frame + 1))) ->
  exists st' chosen rest,
    on_click n_frames w diastole_color_plt systole_color_plt event st = Done st' /\
    vertical_lines st' = vertical_lines st /\
    selected_line st' = Some chosen /\ In chosen (vertical_lines st) /\
    line_xdata (get_line st' chosen) = Some (Q2Qc (inject_Z (frame + 1))) /\
    line_linestyle (get_line st' chosen) = Dashed /\
    calls st' = calls st ++ SetSliderValue frame :: rest /\
    (In frame (gated_frames_dia w) -> tmp_phase st' = Some Diastole).
Proof.
  intros Hc Hn Hcur Hleft Hin Hx Hid Hline. unfold on_click.
  rewrite Hcur, Hleft, Hin, Hx. cbn [Z.eqb negb andb].
  destruct (reset_highlights_consistent st Hc) as (Hc0 & Hsel0 & Hvl0 & Hx0).
  set (st0 := reset_highlights st) in *.
  assert (Hcalls0 : calls st0 = calls st).
  { unfold st0, reset_highlights. now destruct (selected_line st). }
  destruct (nearest_line_exact n_frames st0 (Q2Qc (inject_Z (frame + 1))) id Hc0 Hn)
    as (chosen & -> & Hch & Hxch).
  { now rewrite Hvl0. }
  { now rewrite Hx0. }
  rewrite Hxch. rewrite inject_Z_succ, py_round_of_Z.
  destruct (select_line_consistent chosen st0 Hc0 Hsel0 Hch) as (Hc1 & Hsel1 & Hvl1).
  set (st1 := select_line chosen st0) in *.
  assert (Hlt : (chosen < length (lines st0))%nat).
  { destruct Hc0 as (_ & _ & Hb & _). now apply Hb. }
  assert (Hline1 : get_line st1 chosen = set_linestyle Dashed (get_line st0 chosen)).
  { unfold st1, select_line.
    rewrite get_line_update by exact Hlt. now rewrite Nat.eqb_refl. }
  assert (Hsame : forall st2,
            lines st2 = lines st1 -> vertical_lines st2 = vertical_lines st1 ->
            selected_line st2 = selected_line st1 ->
            vertical_lines st2 = vertical_lines st /\
            selected_line st2 = Some chosen /\ In chosen (vertical_lines st) /\
            line_xdata (get_line st2 chosen) = Some (Q2Qc (inject_Z (frame + 1))) /\
            line_linestyle (get_line st2 chosen) = Dashed).
  { intros st2 El Ev Es. rewrite Ev, Es, Hvl1, Hsel1, Hvl0.
    split; [reflexivity|]. split; [reflexivity|]. split; [now rewrite <- Hvl0|].
    unfold get_line. rewrite El. fold (get_line st1 chosen). rewrite Hline1.
    split; [exact Hxch | reflexivity]. }
  assert (Hcalls1 : calls st1 = calls st) by (rewrite <- Hcalls0; reflexivity).
  unfold begin_toggle. rewrite !orb_false_r.
  destruct (existsb (Z.eqb frame) (gated_frames_dia w)) eqn:Ed.
  - eexists. exists chosen, [ToggleDiastolicFrame false].
    split; [reflexivity|].
    destruct (Hsame (record_call (ToggleDiastolicFrame false)
                       (set_tmp_phase (Some Diastole)
                          (record_call (SetSliderValue frame) st1))))
      as (H1 & H2 & H3 & H4 & H5); try reflexivity.
    repeat (split; [assumption|]). split.
    + cbn [calls record_call set_tmp_phase]. rewrite Hcalls1, <- app_assoc. reflexivity.
    + reflexivity.
  - assert (Hnot : ~ In frame (gated_frames_dia w)).
    { intros Hf. assert (E : existsb (Z.eqb frame) (gated_frames_dia w) = true).
      { apply existsb_exists. exists frame. split; [exact Hf | apply Z.eqb_refl]. }
      congruence. }
    destruct (existsb (Z.eqb frame) (gated_frames_sys w)).
    + eexists. exists chosen, [ToggleSystolicFrame false].
      split; [reflexivity|].
      destruct (Hsame (record_call (ToggleSystolicFrame false)
                         (set_tmp_phase (Some Systole)
                            (record_call (SetSliderValue frame) st1))))
        as (H1 & H2 & H3 & H4 & H5); try reflexivity.
      repeat (split; [assumption|]). split.
      * cbn [calls record_call set_tmp_phase]. rewrite Hcalls1, <- app_assoc. reflexivity.
      * intros Hf. contradiction.
    + eexists. exists chosen, [].
      split; [reflexivity|].
      destruct (Hsame (record_call (SetSliderValue frame) st1))
        as (H1 & H2 & H3 & H4 & H5); try reflexivity.
      repeat (split; [assumption|]). split.
      * cbn [calls record_call]. now rewrite Hcalls1.
      * intros Hf. contradiction.
Qed.

End ClickOnMarker.

Section Drawing.

Lemma in_shifted_range (frame : Z) (x : list Z) :
  existsb (Z.eqb frame) (map (fun v => (v - 1)%Z) x) = existsb (Z.eqb (frame + 1)) x.
Proof.
  induction x as [|v x IH]; [reflexivity|]. cbn [map existsb]. rewrite IH. f_equal.
  destruct (Z.eqb_spec frame (v - 1)); destruct (Z.eqb_spec (frame + 1) v);
    try reflexivity; lia.
Qed.

Lemma fold_append_lines (color : string) (l : list Z) (st : markers) :
  let st' :=
    fold_left
      (fun st frame => snd (append_line (Q2Qc (inject_Z (frame + 1))) color st)) l st in
  lines st'
  = lines st
    ++ map (fun frame => mkLine (Some (Q2Qc (inject_Z (frame + 1)))) color DefaultLinestyle) l
  /\ vertical_lines st' = vertical_lines st ++ seq (length (lines st)) (length l)
  /\ selected_line st' = selected_line st
  /\ current_phase st' = current_phase st
  /\ tmp_phase st' = tmp_phase st
  /\ calls st' = calls st.
Proof.
  revert st. induction l as [|f l IH]; intros st; cbn [fold_left].
  - cbn [map length seq]. rewrite !app_nil_r. repeat split.
  - destruct (IH (snd (append_line (Q2Qc (inject_Z (f + 1))) color st)))
      as (H1 & H2 & H3 & H4 & H5 & H6).
    cbv zeta. rewrite H1, H2, H3, H4, H5, H6.
    unfold append_line. cbn [snd lines vertical_lines selected_line current_phase
                               tmp_phase calls map length seq].
    rewrite <- !app_assoc, length_app. cbn [app length].
    replace (length (lines st) + 1)%nat with (S (length (lines st))) by lia.
    repeat split.
Qed.

(** X28. [draw_existing_lines] adds one line for each listed frame whose
    number plus one is in [x], in the order of the list: a line at
    [frame + 1] in the given colour and the default style; a frame
    outside the range gets none.  The lines that were there, the
    selection and the pending phase are left alone. *)
Theorem draw_existing_lines_positions (x frames : list Z) (color : string)
    (st : markers) :
  let kept := filter (fun frame => existsb (Z.eqb (frame + 1)) x) frames in
  let st' := draw_existing_lines x frames color st in
  lines st'
  = lines st
    ++ map (fun frame =>
              mkLine (Some (Q2Qc (inject_Z (frame + 1)))) color DefaultLinestyle) kept /\
  vertical_lines st' = vertical_lines st ++ seq (length (lines st)) (length kept) /\
  selected_line st' = selected_line st /\
  tmp_phase st' = tmp_phase st /\
  calls st' = calls st.
Proof.
  cbv zeta. unfold draw_existing_lines.
  rewrite (filter_ext _ (fun frame => existsb (Z.eqb (frame + 1)) x))
    by (intros f; apply in_shifted_range).
  destruct (fold_append_lines color
              (filter (fun frame => existsb (Z.eqb (frame + 1)) x) frames) st)
    as (H1 & H2 & H3 & _ & H5 & H6).
  auto.
Qed.

(** X29. [remove_lines] empties the list and leaves [selected_line] as it
    is.  So after [remove_lines] with a line selected the markers are no
    longer consistent, and dragging that line out of the axes raises
    [ValueError] ([list.remove] of a line that is not in the list), the
    line still being selected. *)
Theorem remove_lines_keeps_selection (st : markers) (event : mouse_event) (id : nat) :
  selected_line st = Some id ->
  cursor_shape event = 0%Z -> left_button event = true -> xdata event = None ->
  ~ markers_consistent (remove_lines st) /\
  exists st',
    on_motion event (remove_lines st) = Failed HandlerValueError st' /\
    selected_line st' = Some id /\ vertical_lines st' = [].
Proof.
  intros Hsel Hcur Hleft Hx. split.
  - intros (Ha & _). apply (Ha id). exact Hsel.
  - unfold on_motion. rewrite Hcur, Hleft, Hx. cbn [Z.eqb negb].
    cbn [remove_lines selected_line]. rewrite Hsel.
    cbn [update_line vertical_lines remove_first].
    eexists. split; [reflexivity|]. split; [exact Hsel | reflexivity].
Qed.

End Drawing.

Section MarkerWitnesses.

Lemma no_markers_consistent : markers_consistent no_markers.
Proof.
  split; [discriminate|]. split; [constructor|]. split; intros id [].
Qed.

Lemma two_markers_consistent : markers_consistent two_markers.
Proof. apply draw_existing_lines_consistent, no_markers_consistent. Qed.

Lemma left_at_consistent (x : option Qc) : event_consistent (left_at x).
Proof. unfold event_consistent. destruct x; simpl; split; congruence. Qed.

Lemma handlers_keep_markers_consistent_witness :
  (exists st',
     on_click 100 (fresh_window 5) "blue" "red"
       (left_at (Some (Q2Qc (inject_Z 3)))) two_markers = Done st' /\
     markers_consistent st') /\
  (exists st',
     on_motion (left_at (Some (Q2Qc (inject_Z 3)))) two_markers = Done st' /\
     markers_consistent st') /\
  markers_consistent (on_release (left_at (Some (Q2Qc (inject_Z 3)))) two_markers) /\
  markers_consistent (draw_existing_lines [1; 2; 3; 4; 5]%Z [2]%Z "red" two_markers) /\
  markers_consistent (update_color (Some "red"%string) two_markers) /\
  markers_consistent (reset_highlights two_markers).
Proof.
  apply (handlers_keep_markers_consistent 100 (fresh_window 5) "blue" "red"
           [1; 2; 3; 4; 5]%Z [2]%Z "red" (Some "red"%string)
           (left_at (Some (Q2Qc (inject_Z 3)))) two_markers).
  - exact two_markers_consistent.
  - apply left_at_consistent.
Defined.

Lemma on_click_marker_round_trip_witness :
  exists st' chosen rest,
    on_click 100 (mkWindow [3]%Z [] (repeat "-"%string 5) []) "blue" "red"
      (left_at (Some (Q2Qc (inject_Z (3 + 1))))) two_markers = Done st' /\
    vertical_lines st' = vertical_lines two_markers /\
    selected_line st' = Some chosen /\ In chosen (vertical_lines two_markers) /\
    line_xdata (get_line st' chosen) = Some (Q2Qc (inject_Z (3 + 1))) /\
    line_linestyle (get_line st' chosen) = Dashed /\
    calls st' = calls two_markers ++ SetSliderValue 3 :: rest /\
    (In 3%Z [3]%Z -> tmp_phase st' = Some Diastole).
Proof.
  apply (on_click_marker_round_trip 100 (mkWindow [3]%Z [] (repeat "-"%string 5) [])
           "blue" "red" (left_at (Some (Q2Qc (inject_Z (3 + 1))))) two_markers 1 3).
  - exact two_markers_consistent.
  - lia.
  - reflexivity.
  - reflexivity.
  - reflexivity.
  - reflexivity.
  - vm_compute. auto.
  - reflexivity.
Defined.

Lemma remove_lines_keeps_selection_witness :
  ~ markers_consistent (remove_lines selected_marker) /\
  exists st',
    on_motion (left_at None) (remove_lines selected_marker)
    = Failed HandlerValueError st' /\
    selected_line st' = Some O /\ vertical_lines st' = [].
Proof.
  apply (remove_lines_keeps_selection selected_marker (left_at None) O); reflexivity.
Defined.

End MarkerWitnesses.

(** * Properties of the overlays *)

Section Overlays.

Lemma np_max_cases (l : list npfloat) :
  match Np.max l with
  | Ok _ => l <> []
  | Raise e => e = ValueError /\ l = []
  end.
Proof. destruct l; simpl; [auto | discriminate]. Qed.

Lemma np_min_cases (l : list npfloat) :
  match Np.min l with
  | Ok _ => l <> []
  | Raise e => e = ValueError /\ l = []
  end.
Proof. destruct l; simpl; [auto | discriminate]. Qed.

(** X30. The dashed overlays.  The block of [plot_data] that rescales the
    two unfiltered composite signals raises [ValueError] if one of the
    four signals is empty, and nothing else; otherwise it returns two
    arrays with the lengths of the two unfiltered signals, whatever the
    values are (a zero range gives NaN or infinite samples, no
    exception). *)
Theorem rescale_overlays_shape
    (signal_maxima signal_extrema signal_maxima_nor signal_extrema_nor : list npfloat) :
  match rescale_overlays signal_maxima signal_extrema
                         signal_maxima_nor signal_extrema_nor with
  | Ok (overlay_maxima, overlay_extrema) =>
      signal_maxima <> [] /\ signal_extrema <> [] /\
      signal_maxima_nor <> [] /\ signal_extrema_nor <> [] /\
      length overlay_maxima = length signal_maxima_nor /\
      length overlay_extrema = length signal_extrema_nor
  | Raise e =>
      e = ValueError /\
      (signal_maxima = [] \/ signal_extrema = [] \/
       signal_maxima_nor = [] \/ signal_extrema_nor = [])
  end.
Proof.
  unfold rescale_overlays.
  pose proof (np_max_cases signal_maxima) as H1.
  destruct (Np.max signal_maxima) as [M1|e]; cbn [bind]; [|destruct H1; auto].
  pose proof (np_max_cases signal_extrema) as H2.
  destruct (Np.max signal_extrema) as [M2|e]; cbn [bind]; [|destruct H2; auto].
  pose proof (np_min_cases signal_maxima) as H3.
  destruct (Np.min signal_maxima) as [m1|e]; cbn [bind]; [|destruct H3; auto].
  pose proof (np_min_cases signal_extrema) as H4.
  destruct (Np.min signal_extrema) as [m2|e]; cbn [bind]; [|destruct H4; auto].
  pose proof (np_max_cases signal_maxima_nor) as H5.
  destruct (Np.max signal_maxima_nor) as [N1|e]; cbn [bind]; [|destruct H5; auto].
  pose proof (np_max_cases signal_extrema_nor) as H6.
  destruct (Np.max signal_extrema_nor) as [N2|e]; cbn [bind]; [|destruct H6; auto].
  pose proof (np_min_cases signal_maxima_nor) as H7.
  destruct (Np.min signal_maxima_nor) as [n1|e]; cbn [bind]; [|destruct H7; auto].
  pose proof (np_min_cases signal_extrema_nor) as H8.
  destruct (Np.min signal_extrema_nor) as [n2|e]; cbn [bind]; [|destruct H8; auto].
  set (k := NpFloat.div _ _).
  set (a := Np.mul_scalar (Np.sub_scalar signal_maxima_nor _) k).
  set (b := Np.mul_scalar (Np.sub_scalar signal_extrema_nor _) k).
  assert (La : length a = length signal_maxima_nor)
    by (unfold a, Np.mul_scalar, Np.sub_scalar; now rewrite !length_map).
  assert (Lb : length b = length signal_extrema_nor)
    by (unfold b, Np.mul_scalar, Np.sub_scalar; now rewrite !length_map).
  pose proof (np_max_cases a) as Ha.
  destruct (Np.max a) as [T1|e]; cbn [bind].
  2:{ destruct Ha as [_ Ea]. rewrite Ea in La. destruct signal_maxima_nor; [|discriminate].
      now elim H5. }
  pose proof (np_max_cases b) as Hb.
  destruct (Np.max b) as [T2|e]; cbn [bind].
  2:{ destruct Hb as [_ Eb]. rewrite Eb in Lb. destruct signal_extrema_nor; [|discriminate].
      now elim H6. }
  unfold Np.add_scalar. rewrite !length_map. auto 10.
Qed.

End Overlays.
